(** * glimpse: camera model, correspondences, RANSAC and bundle adjustment

    A shallow embedding of the geometric core of [glimpse/image.py] and
    [glimpse/optimize.py], together with the properties stated for it.

    Layout of the development:
    - [Num]: the values held by a NumPy [float64] array;
    - [Camera]: the 20-slot camera vector, rotation, distortion,
      projection, inverse projection and resizing ([image.py]);
    - [Points], [Lines]: the correspondences ([optimize.py]);
    - [Ransac]: the generic [ransac] estimator ([optimize.py]);
    - [Cameras]: the bundle adjuster, its sparsity pattern and [fit]
      ([optimize.py]). *)

From Stdlib Require Import ZArith QArith Qcanon Qround Lia Bool String.
From stdpp Require Import base list gmap.

(** * Array entries *)

(** An entry of a [float64] array is a finite number, an infinity or NaN.
    Finite numbers are kept as exact rationals: the special values and the
    comparisons follow IEEE 754 as NumPy exposes them, while rounding error
    and the sign of zero are not represented. *)
Module Num.

Local Open Scope Qc_scope.

Inductive num : Type :=
| Fin (q : Qc)
| PInf
| NInf
| NaN.

Definition of_Z (z : Z) : num := Fin (Q2Qc (inject_Z z)).
Definition zero : num := of_Z 0.
Definition one : num := of_Z 1.
Definition half : num := Fin (Q2Qc (1 # 2)).

(** The infinity carrying the sign given by a comparison with zero; a
    product or quotient whose sign is undetermined is NaN. *)
Definition inf_of (s : comparison) : num :=
  match s with
  | Gt => PInf
  | Lt => NInf
  | Eq => NaN
  end.

Definition opp (x : num) : num :=
  match x with
  | Fin a => Fin (- a)
  | PInf => NInf
  | NInf => PInf
  | NaN => NaN
  end.

Definition add (x y : num) : num :=
  match x, y with
  | NaN, _ | _, NaN => NaN
  | Fin a, Fin b => Fin (a + b)
  | PInf, NInf | NInf, PInf => NaN
  | PInf, _ | _, PInf => PInf
  | NInf, _ | _, NInf => NInf
  end.

Definition sub (x y : num) : num := add x (opp y).

Definition mul (x y : num) : num :=
  match x, y with
  | NaN, _ | _, NaN => NaN
  | Fin a, Fin b => Fin (a * b)
  | Fin a, PInf | PInf, Fin a => inf_of (Qccompare a 0)
  | Fin a, NInf | NInf, Fin a => inf_of (Qccompare 0 a)
  | PInf, PInf | NInf, NInf => PInf
  | PInf, NInf | NInf, PInf => NInf
  end.

(** NumPy division: [x / 0] is an infinity for [x <> 0] and NaN for
    [0 / 0] (with a warning, never an exception). *)
Definition div (x y : num) : num :=
  match x, y with
  | NaN, _ | _, NaN => NaN
  | Fin a, Fin b => if decide (b = 0) then inf_of (Qccompare a 0) else Fin (a / b)
  | Fin _, (PInf | NInf) => Fin 0
  | PInf, Fin b => match Qccompare b 0 with Lt => NInf | _ => PInf end
  | NInf, Fin b => match Qccompare b 0 with Lt => PInf | _ => NInf end
  | (PInf | NInf), (PInf | NInf) => NaN
  end.

(** [np.floor]. *)
Definition floor (x : num) : num :=
  match x with
  | Fin a => of_Z (Qfloor a)
  | _ => x
  end.

(** [np.round]: to the nearest integer, ties to the even one. *)
Definition round_half_even (a : Qc) : Z :=
  let n := Qfloor a in
  match Qccompare (a - Q2Qc (inject_Z n))%Qc (Q2Qc (1 # 2)) with
  | Lt => n
  | Gt => (n + 1)%Z
  | Eq => if Z.even n then n else (n + 1)%Z
  end.

Definition round (x : num) : num :=
  match x with
  | Fin a => of_Z (round_half_even a)
  | _ => x
  end.

(** Comparisons: every comparison with NaN is false, except [!=]. *)
Definition eqb (x y : num) : bool :=
  match x, y with
  | Fin a, Fin b => bool_decide (a = b)
  | PInf, PInf | NInf, NInf => true
  | _, _ => false
  end.

Definition neqb (x y : num) : bool := negb (eqb x y).

Definition ltb (x y : num) : bool :=
  match x, y with
  | NaN, _ | _, NaN => false
  | Fin a, Fin b => match Qccompare a b with Lt => true | _ => false end
  | NInf, (Fin _ | PInf) => true
  | Fin _, PInf => true
  | _, _ => false
  end.

Definition leb (x y : num) : bool :=
  match x, y with
  | NaN, _ | _, NaN => false
  | Fin a, Fin b => match Qccompare a b with Gt => false | _ => true end
  | NInf, _ => true
  | _, PInf => true
  | _, _ => false
  end.

(** Python truth value of a float: everything but zero, NaN included. *)
Definition truthy (x : num) : bool :=
  match x with
  | Fin a => negb (bool_decide (a = 0))
  | _ => true
  end.

(** The builtin [any] over a slice of floats. *)
Definition any (xs : list num) : bool := existsb truthy xs.

Definition is_fin (x : num) : Prop :=
  match x with
  | Fin _ => True
  | _ => False
  end.

Definition is_nan (x : num) : bool :=
  match x with
  | NaN => true
  | _ => false
  end.

#[global] Instance num_eq_dec : EqDecision num.
Proof. solve_decision. Defined.

End Num.

Export Num.

Declare Scope num_scope.
Delimit Scope num_scope with num.
Bind Scope num_scope with num.
Infix "+" := add : num_scope.
Infix "-" := sub : num_scope.
Infix "*" := mul : num_scope.
Infix "/" := div : num_scope.
Notation "- x" := (opp x) : num_scope.

(** Pairs and triples of entries: rows of [(n, 2)] and [(n, 3)] arrays. *)
Definition vec2 : Type := num * num.
Definition vec3 : Type := num * num * num.

Definition map2 (g : num -> num -> num) (a b : vec2) : vec2 :=
  (g a.1 b.1, g a.2 b.2).
Definition vadd2 : vec2 -> vec2 -> vec2 := map2 add.
Definition vsub2 : vec2 -> vec2 -> vec2 := map2 sub.
Definition vmul2 : vec2 -> vec2 -> vec2 := map2 mul.
Definition vdiv2 : vec2 -> vec2 -> vec2 := map2 div.
(** Broadcasting a scalar over a row. *)
Definition vscale2 (s : num) (a : vec2) : vec2 := (mul a.1 s, mul a.2 s).

Definition vadd3 (a b : vec3) : vec3 :=
  (add a.1.1 b.1.1, add a.1.2 b.1.2, add a.2 b.2).
Definition vsub3 (a b : vec3) : vec3 :=
  (sub a.1.1 b.1.1, sub a.1.2 b.1.2, sub a.2 b.2).
Definition vscale3 (s : num) (a : vec3) : vec3 :=
  (mul a.1.1 s, mul a.1.2 s, mul a.2 s).
(** Dot product, summed left to right as [np.dot] does for a row. *)
Definition dot3 (a b : vec3) : num :=
  add (add (mul a.1.1 b.1.1) (mul a.1.2 b.1.2)) (mul a.2 b.2).

(** Rows of finite numbers, and rows free of NaN. *)
Definition fin2 (a : vec2) : Prop := is_fin a.1 /\ is_fin a.2.
Definition fin3 (a : vec3) : Prop := is_fin a.1.1 /\ is_fin a.1.2 /\ is_fin a.2.
Definition no_nan3 (a : vec3) : Prop :=
  is_nan a.1.1 = false /\ is_nan a.1.2 = false /\ is_nan a.2 = false.

(** * Exceptions *)

(** The exceptions the modelled code raises, with their messages. *)
Inductive exn : Type :=
| ValueError (msg : string)
| IndexError (msg : string)
| OverflowError (msg : string).

(** The outcome of a call that may raise. *)
Inductive result (A : Type) : Type :=
| Return (a : A)
| Raise (e : exn).
Arguments Return {A} a.
Arguments Raise {A} e.

(** Sequencing: an exception ends the computation. *)
#[global] Instance result_bind : MBind result :=
  fun A B (g : A -> result B) (r : result A) =>
    match r with
    | Return a => g a
    | Raise e => Raise e
    end.

Definition raises {A : Type} (r : result A) : Prop :=
  match r with
  | Return _ => False
  | Raise _ => True
  end.

(** The call does not raise the exception [e]. *)
Definition avoids {A : Type} (e : exn) (r : result A) : Prop := r <> Raise e.

(** Fancy indexing [a[index]]: everything for [None] (the full slice), the
    listed rows otherwise, [IndexError] when a row is out of bounds. *)
Fixpoint take_rows {A : Type} (a : list A) (index : list nat)
    : result (list A) :=
  match index with
  | [] => Return []
  | i :: index' =>
      match a !! i with
      | None => Raise (IndexError "index is out of bounds")
      | Some x => rest ← take_rows a index'; Return (x :: rest)
      end
  end.

Definition select {A : Type} (a : list A) (index : option (list nat))
    : result (list A) :=
  match index with
  | None => Return a
  | Some index => take_rows a index
  end.

(** * NumPy and builtin helpers *)

(** The builtin [int] on a float: truncation toward zero. *)
Definition py_int (x : num) : result Z :=
  match x with
  | Fin a =>
      Return (if Qle_bool 0 (this a) then Qfloor (this a) else Qceiling (this a))
  | NaN => Raise (ValueError "cannot convert float NaN to integer")
  | _ => Raise (OverflowError "cannot convert float infinity to integer")
  end.

(** [np.linspace(0, stop, n)]. *)
Definition linspace (stop : num) (n : Z) : result (list num) :=
  if (n <? 0)%Z
  then Raise (ValueError "Number of samples must be non-negative")
  else
    Return
      match Z.to_nat n with
      | O => []
      | S O => [zero]
      | S m =>
          map (fun i => mul (of_Z (Z.of_nat i)) (div stop (of_Z (Z.of_nat m))))
              (seq 0 m)
          ++ [stop]
      end.

(** [np.min] and [np.max] of a column: NaN wins, nothing to reduce is an
    error. *)
Definition np_min (xs : list num) : result num :=
  match xs with
  | [] => Raise (ValueError "zero-size array to reduction operation minimum")
  | x :: xs' =>
      Return (foldl (fun m y => if is_nan m then m
                                else if is_nan y then y
                                else if ltb y m then y else m) x xs')
  end.

Definition np_max (xs : list num) : result num :=
  match xs with
  | [] => Raise (ValueError "zero-size array to reduction operation maximum")
  | x :: xs' =>
      Return (foldl (fun m y => if is_nan m then m
                                else if is_nan y then y
                                else if ltb m y then y else m) x xs')
  end.

(** [np.argmin] of one row: the first NaN if there is one, else the first
    smallest entry. *)
Fixpoint argmin_from (best : num) (ibest i : nat) (xs : list num) : nat :=
  match xs with
  | [] => ibest
  | y :: xs' =>
      if is_nan best then ibest
      else if is_nan y || ltb y best then argmin_from y i (S i) xs'
      else argmin_from best ibest (S i) xs'
  end.

Definition np_argmin (xs : list num) : result nat :=
  match xs with
  | [] => Raise (ValueError "attempt to get argmin of an empty sequence")
  | x :: xs' => Return (argmin_from x 0 1 xs')
  end.

(** [np.vstack] / [np.row_stack] of a list of arrays. *)
Definition np_vstack {A : Type} (arrays : list (list A)) : result (list A) :=
  match arrays with
  | [] => Raise (ValueError "need at least one array to concatenate")
  | _ => Return (concat arrays)
  end.

(** [np.mean] of a one-dimensional array. *)
Definition np_mean (xs : list num) : num :=
  div (foldl add zero xs) (of_Z (Z.of_nat (length xs))).

(** Sequencing over a list, left to right, stopping at the first
    exception. *)
Fixpoint mapM {A B : Type} (g : A -> result B) (l : list A)
    : result (list B) :=
  match l with
  | [] => Return []
  | a :: l' => b ← g a; bs ← mapM g l'; Return (b :: bs)
  end.

(** * External numerical routines *)

(** What the camera model calls but does not define: NumPy's
    transcendental functions, SciPy's bounded minimiser, the geodesy helper
    [helpers.elevation_corrections], and the distortion solvers that rest
    on them. The model is stated for any implementation of them. *)
Class External : Type := {
  np_deg2rad : num -> num;
  np_cos : num -> num;
  np_sin : num -> num;
  (** keyword arguments of [helpers.elevation_corrections] *)
  correction_args : Type;
  correction_default : correction_args;
  (** [helpers.elevation_corrections(squared_distances, **correction)]:
      the vertical offset for one squared horizontal distance *)
  elevation_corrections : correction_args -> num -> num;
  (** [scipy.optimize.minimize(err, x0, bounds)['x']] *)
  scipy_optimize_minimize : (num -> num) -> num -> vec2 -> num;
  (** [config._UseMatMul]: [np.matmul] or [np.dot] for the rotations *)
  config_UseMatMul : bool;
  (** The undistortion solvers for a camera ([vector]) with distortion:
      closed form for [k1] alone, table lookup, Oulu iteration and regula
      falsi. *)
  undistort_k1 : list num -> list vec2 -> list vec2;
  undistort_lookup : list num -> list vec2 -> list vec2;
  undistort_oulu : list num -> list vec2 -> list vec2;
  undistort_regulafalsi : list num -> list vec2 -> list vec2;
  (** [helpers.interpolate_line(line, dx)] *)
  interpolate_line : list vec2 -> num -> list vec2;
  (** [helpers.boolean_split(x, mask, include='false')] *)
  boolean_split : list vec2 -> list bool -> list (list vec2);
  (** [helpers.clip_polyline_box(line, box)], the box as (min, max) *)
  clip_polyline_box : list vec2 -> vec2 * vec2 -> list (list vec2);
  (** [helpers.pairwise_distance(a, b)]: one row per row of [a] *)
  pairwise_distance : list vec2 -> list vec2 -> list (list num);
}.

(** * Camera ([glimpse/image.py]) *)
Module Camera.

Local Open Scope num_scope.

(** The object state: [vector] (20 entries) and its snapshot
    [original_vector]. [sensorsz] only serves the millimetre views [fmm]
    and [cmm] and is left out. *)
Record t : Type := mk {
  vector : list num;
  original_vector : list num;
}.

(** [vector[i]] for a slot of the fixed layout. *)
Definition slot (v : list num) (i : nat) : num := nth i v NaN.

(** ** Properties *)
Definition xyz (cam : t) : vec3 :=
  (slot (vector cam) 0, slot (vector cam) 1, slot (vector cam) 2).
Definition viewdir (cam : t) : vec3 :=
  (slot (vector cam) 3, slot (vector cam) 4, slot (vector cam) 5).
Definition imgsz (cam : t) : vec2 := (slot (vector cam) 6, slot (vector cam) 7).
Definition f (cam : t) : vec2 := (slot (vector cam) 8, slot (vector cam) 9).
Definition c (cam : t) : vec2 := (slot (vector cam) 10, slot (vector cam) 11).
Definition k (cam : t) : list num := take 6 (drop 12 (vector cam)).
Definition p (cam : t) : list num := take 2 (drop 18 (vector cam)).
Definition original_imgsz (cam : t) : vec2 :=
  (slot (original_vector cam) 6, slot (original_vector cam) 7).

(** Slice assignment [vector[i:i+2] = value]. *)
Definition set2 (i : nat) (value : vec2) (v : list num) : list num :=
  <[S i := value.2]> (<[i := value.1]> v).

Definition set_imgsz (value : vec2) (cam : t) : t :=
  mk (set2 6 value (vector cam)) (original_vector cam).
Definition set_f (value : vec2) (cam : t) : t :=
  mk (set2 8 value (vector cam)) (original_vector cam).
Definition set_c (value : vec2) (cam : t) : t :=
  mk (set2 10 value (vector cam)) (original_vector cam).

(** [Camera(vector=...)]: the first 20 entries, snapshotted. *)
Definition of_vector (v : list num) : t := mk (take 20 v) (take 20 v).

(** [Camera(xyz, viewdir, imgsz, f, c, k, p)] with every argument given in
    full ([helpers.format_list] pads short arguments and is not modelled). *)
Definition init (xyz viewdir : vec3) (imgsz f c : vec2)
    (k1 k2 k3 k4 k5 k6 : num) (p : vec2) : t :=
  of_vector [xyz.1.1; xyz.1.2; xyz.2; viewdir.1.1; viewdir.1.2; viewdir.2;
             imgsz.1; imgsz.2; f.1; f.2; c.1; c.2;
             k1; k2; k3; k4; k5; k6; p.1; p.2].

(** The defaults of [__init__]: at the origin, level, facing north,
    100 x 100 pixels, focal length 100, no offset, no distortion. *)
Definition default_with (xyz : vec3) (imgsz f : vec2) : t :=
  init xyz (zero, zero, zero) imgsz f (zero, zero)
       zero zero zero zero zero zero (zero, zero).
Definition defaults : t :=
  default_with (zero, zero, zero) (of_Z 100, of_Z 100) (of_Z 100, of_Z 100).

(** [copy] and [reset]. *)
Definition copy (cam : t) : t := of_vector (vector cam).
Definition reset (cam : t) : t := mk (original_vector cam) (original_vector cam).

(** [edges(step)]: the vertices of the image frame, clockwise from the
    origin. *)
Definition edges (cam : t) (step : vec2) : result (list vec2) :=
  let count sz st := py_int ((if truthy st then sz / st else one) + one) in
  nu ← count (imgsz cam).1 step.1;
  nv ← count (imgsz cam).2 step.2;
  u ← linspace (imgsz cam).1 nu;
  v ← linspace (imgsz cam).2 nv;
  match last u with
  | None => Raise (IndexError "index -1 is out of bounds for axis 0 with size 0")
  | Some u_last =>
      if (length v <? 2)%nat
      then Raise (ValueError "repeats may not contain negative values")
      else
        let inner (l : list num) := drop 1 (take (length l - 1) l) in
        let v_last := default NaN (last v) in
        Return (map (fun x => (x, zero)) u
                ++ map (fun y => (u_last, y)) (inner v)
                ++ map (fun x => (x, v_last)) (rev u)
                ++ map (fun y => (zero, y)) (inner (rev v)))
  end.

(** ** Resizing *)

(** The [size] argument of [resize]: a scale factor or a target size. *)
Inductive size_arg : Type :=
| Scale (s : num)
| Target (new_size : vec2).

Definition vabs_diff_sum (a b : vec2) : num :=
  let d := vsub2 a b in
  let abs x := if ltb x zero then opp x else x in
  abs d.1 + abs d.2.

Section WithExternal.
Context `{External}.

(** [Camera.get_scale_from_size]; [None] when the target cannot be
    reached by a scalar factor. *)
Definition get_scale_from_size (old_size new_size : vec2) : option num :=
  if eqb new_size.1 old_size.1 && eqb new_size.2 old_size.2 then Some one
  else
    let scale_bounds := vdiv2 new_size old_size in
    if eqb scale_bounds.1 scale_bounds.2 then Some scale_bounds.1
    else
      let err scale :=
        vabs_diff_sum
          (floor (scale * old_size.1 + half), floor (scale * old_size.2 + half))
          new_size in
      let x0 := (scale_bounds.1 + scale_bounds.2) / of_Z 2 in
      let fit := scipy_optimize_minimize err x0 scale_bounds in
      if eqb (err fit) zero then Some fit else None.

(** [Camera.resize(size, force)]; [None] is the [ValueError] raised when a
    target size does not preserve the original aspect ratio. *)
Definition resize (size : size_arg) (force : bool) (cam : t) : option t :=
  let new_size :=
    match size with
    | Target sz =>
        if force then Some sz
        else
          match get_scale_from_size (original_imgsz cam) sz with
          | None => None
          | Some s =>
              Some (floor (s * (original_imgsz cam).1 + half),
                    floor (s * (original_imgsz cam).2 + half))
          end
    | Scale s =>
        Some (floor (s * (original_imgsz cam).1 + half),
              floor (s * (original_imgsz cam).2 + half))
    end in
  match new_size with
  | None => None
  | Some new_size =>
      let scale2d := vdiv2 new_size (imgsz cam) in
      let cam1 := set_imgsz (round new_size.1, round new_size.2) cam in
      let cam2 := set_f (vmul2 (f cam1) scale2d) cam1 in
      Some (set_c (vmul2 (c cam2) scale2d) cam2)
  end.

(** [cam.resize(s)] for a scalar [s]: this call cannot raise. *)
Definition resize_scale (s : num) (cam : t) : t :=
  match resize (Scale s) false cam with
  | Some cam' => cam'
  | None => cam
  end.

(** ** Rotation *)

Definition mat3 : Type := vec3 * vec3 * vec3.

(** The property [R]: rows are image right, image down and the optical
    axis. *)
Definition R (cam : t) : mat3 :=
  let C0 := np_cos (np_deg2rad (viewdir cam).1.1) in
  let C1 := np_cos (np_deg2rad (viewdir cam).1.2) in
  let C2 := np_cos (np_deg2rad (viewdir cam).2) in
  let S0 := np_sin (np_deg2rad (viewdir cam).1.1) in
  let S1 := np_sin (np_deg2rad (viewdir cam).1.2) in
  let S2 := np_sin (np_deg2rad (viewdir cam).2) in
  ((C0 * C2 + S0 * S1 * S2, C0 * S1 * S2 - C2 * S0, - C1 * S2),
   (C2 * S0 * S1 - C0 * S2, S0 * S2 + C0 * C2 * S1, - C1 * C2),
   (C1 * S0, C0 * C1, S1)).

(** [np.matmul(R, dxyz.T).T] and [np.dot(dxyz, R.T)] for one row. *)
Definition to_camera_frame (cam : t) (dxyz : vec3) : vec3 :=
  let M := R cam in
  if config_UseMatMul
  then (dot3 M.1.1 dxyz, dot3 M.1.2 dxyz, dot3 M.2 dxyz)
  else (dot3 dxyz M.1.1, dot3 dxyz M.1.2, dot3 dxyz M.2).

(** [np.matmul(R.T[:, 0:2], xy.T).T] and [np.dot(xy, R[0:2, :])] for one
    row. *)
Definition from_camera_frame (cam : t) (xy : vec2) : vec3 :=
  let M := R cam in
  if config_UseMatMul
  then (M.1.1.1.1 * xy.1 + M.1.2.1.1 * xy.2,
        M.1.1.1.2 * xy.1 + M.1.2.1.2 * xy.2,
        M.1.1.2 * xy.1 + M.1.2.2 * xy.2)
  else (xy.1 * M.1.1.1.1 + xy.2 * M.1.2.1.1,
        xy.1 * M.1.1.1.2 + xy.2 * M.1.2.1.2,
        xy.1 * M.1.1.2 + xy.2 * M.1.2.2).

(** ** Distortion *)

(** The numerator [dr] and the denominator [temp] of
    [_radial_distortion], each term added only for a nonzero
    coefficient. *)
Definition radial_numerator (cam : t) (r2 : num) : num :=
  let k i := slot (k cam) i in
  let dr := one in
  let dr := if truthy (k 0%nat) then dr + k 0%nat * r2 else dr in
  let dr := if truthy (k 1%nat) then dr + k 1%nat * r2 * r2 else dr in
  if truthy (k 2%nat) then dr + k 2%nat * r2 * r2 * r2 else dr.

Definition radial_denominator (cam : t) (r2 : num) : num :=
  let k i := slot (k cam) i in
  let temp := one in
  let temp := if truthy (k 3%nat) then temp + k 3%nat * r2 else temp in
  let temp := if truthy (k 4%nat) then temp + k 4%nat * r2 * r2 else temp in
  if truthy (k 5%nat) then temp + k 5%nat * r2 * r2 * r2 else temp.

Definition _radial_distortion (cam : t) (r2 : num) : num :=
  if any (drop 3 (k cam))
  then radial_numerator cam r2 / radial_denominator cam r2
  else radial_numerator cam r2.

Definition _tangential_distortion (cam : t) (xy : vec2) (r2 : num) : vec2 :=
  let p0 := slot (p cam) 0 in
  let p1 := slot (p cam) 1 in
  let xty := xy.1 * xy.2 in
  let dtx := of_Z 2 * xty * p0 + p1 * (r2 + of_Z 2 * (xy.1 * xy.1)) in
  let dty := p0 * (r2 + of_Z 2 * (xy.2 * xy.2)) + of_Z 2 * xty * p1 in
  (dtx, dty).

(** [_distort] on one row of camera coordinates. *)
Definition _distort_row (cam : t) (xy : vec2) : vec2 :=
  let r2 := xy.1 * xy.1 + xy.2 * xy.2 in
  let dxy := xy in
  let dxy :=
    if any (k cam) then vscale2 (_radial_distortion cam r2) dxy else dxy in
  if any (p cam) then vadd2 dxy (_tangential_distortion cam xy r2) else dxy.

Definition _distort (cam : t) (xy : list vec2) : list vec2 :=
  if negb (any (k cam)) && negb (any (p cam)) then xy
  else map (_distort_row cam) xy.

Inductive undistort_method : Type := lookup | oulu | regulafalsi.

Definition _undistort (cam : t) (method : undistort_method)
    (xy : list vec2) : list vec2 :=
  if negb (any (k cam)) && negb (any (p cam)) then xy
  else if truthy (slot (k cam) 0) && negb (any (drop 1 (k cam)))
          && negb (any (p cam))
  then undistort_k1 (vector cam) xy
  else
    match method with
    | lookup => undistort_lookup (vector cam) xy
    | oulu => undistort_oulu (vector cam) xy
    | regulafalsi => undistort_regulafalsi (vector cam) xy
    end.

(** ** World, camera and image coordinates *)

(** One row of [_world2camera]: camera coordinates and depth along the
    optical axis. [correction] is [None] for [False]/[None] and carries
    the keyword arguments otherwise ([True] is [correction_default]). *)
Definition _world2camera_row (cam : t) (directions : bool)
    (correction : option correction_args) (xyz : vec3) : vec2 * num :=
  let dxyz :=
    if directions then xyz
    else
      let d := vsub3 xyz (Camera.xyz cam) in
      match correction with
      | Some args =>
          (d.1.1, d.1.2,
           d.2 + elevation_corrections args (d.1.1 * d.1.1 + d.1.2 * d.1.2))
      | None => d
      end in
  let xyz_c := to_camera_frame cam dxyz in
  let xy := (xyz_c.1.1 / xyz_c.2, xyz_c.1.2 / xyz_c.2) in
  let behind := leb xyz_c.2 zero in
  (if behind then (NaN, NaN) else xy, xyz_c.2).

Definition _world2camera (cam : t) (directions : bool)
    (correction : option correction_args) (xyz : list vec3) : list vec2 :=
  map (fun row => (_world2camera_row cam directions correction row).1) xyz.

Definition _world2camera_depth (cam : t) (directions : bool)
    (correction : option correction_args) (xyz : list vec3) : list num :=
  map (fun row => (_world2camera_row cam directions correction row).2) xyz.

Definition _camera2world_row (cam : t) (directions : bool) (depth : num)
    (xy : vec2) : vec3 :=
  let xyz := vadd3 (from_camera_frame cam xy) (R cam).2 in
  let xyz := if neqb depth one then vscale3 depth xyz else xyz in
  if directions then xyz else vadd3 xyz (Camera.xyz cam).

Definition _camera2world (cam : t) (directions : bool) (depth : num)
    (xy : list vec2) : list vec3 :=
  map (_camera2world_row cam directions depth) xy.

Definition _camera2image (cam : t) (xy : list vec2) : list vec2 :=
  map (fun row =>
         vadd2 (vmul2 row (f cam))
               (vadd2 ((imgsz cam).1 / of_Z 2, (imgsz cam).2 / of_Z 2)
                      (c cam)))
      (_distort cam xy).

Definition _image2camera (cam : t) (uv : list vec2) : list vec2 :=
  _undistort cam oulu
    (map (fun row =>
            vmul2 (vsub2 row (vadd2 ((imgsz cam).1 * half, (imgsz cam).2 * half)
                                    (c cam)))
                  (one / (f cam).1, one / (f cam).2))
         uv).

(** [project(xyz, directions, correction)] (with [return_depth=False]). *)
Definition project (cam : t) (directions : bool)
    (correction : option correction_args) (xyz : list vec3) : list vec2 :=
  _camera2image cam (_world2camera cam directions correction xyz).

(** [project(xyz, directions, correction, return_depth=True)]. *)
Definition project_with_depth (cam : t) (directions : bool)
    (correction : option correction_args) (xyz : list vec3)
    : list vec2 * list num :=
  (project cam directions correction xyz,
   _world2camera_depth cam directions correction xyz).

(** [invproject(uv, directions, depth)]. *)
Definition invproject (cam : t) (directions : bool) (depth : num)
    (uv : list vec2) : list vec3 :=
  _camera2world cam directions depth (_image2camera cam uv).

(** The calls with every keyword left at its default:
    [project(xyz)] is [project(xyz, directions=False, correction=False)] and
    [invproject(uv)] is [invproject(uv, directions=True, depth=1)]. *)
Definition project_defaults (cam : t) (xyz : list vec3) : list vec2 :=
  project cam false None xyz.
Definition invproject_defaults (cam : t) (uv : list vec2) : list vec3 :=
  invproject cam true one uv.

(** [inframe]: in or on the image frame. *)
Definition inframe_row (cam : t) (uv : vec2) : bool :=
  leb zero uv.1 && leb uv.1 (imgsz cam).1
  && leb zero uv.2 && leb uv.2 (imgsz cam).2.

(** Strictly inside the frame. *)
Definition strictly_inframe_row (cam : t) (uv : vec2) : bool :=
  ltb zero uv.1 && ltb uv.1 (imgsz cam).1
  && ltb zero uv.2 && ltb uv.2 (imgsz cam).2.

(** ** Visibility *)

(** [infront(xyz, directions)]: the sign of the component along the
    optical axis, [np.dot(dxyz, R.T[:, 2]) > 0]. *)
Definition infront_row (cam : t) (directions : bool) (xyz : vec3) : bool :=
  let dxyz := if directions then xyz else vsub3 xyz (Camera.xyz cam) in
  ltb zero (dot3 dxyz (R cam).2).

Definition infront (cam : t) (directions : bool) (xyz : list vec3)
    : list bool :=
  map (infront_row cam directions) xyz.

(** [inframe(uv)] and [inview(xyz, directions)]. *)
Definition inframe (cam : t) (uv : list vec2) : list bool :=
  map (inframe_row cam) uv.

Definition inview (cam : t) (directions : bool) (xyz : list vec3)
    : list bool :=
  inframe cam (project cam directions None xyz).

(** ** OpenCV views *)

(** The property [cameraMatrix]. *)
Definition cameraMatrix (cam : t) : mat3 :=
  (((f cam).1, zero, (c cam).1 + (imgsz cam).1 / of_Z 2),
   (zero, (f cam).2, (c cam).2 + (imgsz cam).2 / of_Z 2),
   (zero, zero, one)).

(** ** Removing the distortion *)

(** Slice assignment [v[i:j] = values]: the values must be as many as the
    slice holds, a single value being broadcast. On a vector of fewer
    than [j] entries the slice is shorter than [j - i]. *)
Definition assign_slice (i j : nat) (values : list num) (v : list num)
    : result (list num) :=
  let m := length (take (j - i) (drop i v)) in
  if (m =? length values)%nat
  then Return (take i v ++ values ++ drop j v)
  else
    match values with
    | [y] => Return (take i v ++ replicate m y ++ drop j v)
    | _ => Raise (ValueError "could not broadcast input array")
    end.

(** [idealize()]: [k], [p] and then [c] are set to zeros through their
    setters. The camera is returned as the call leaves it, also when a
    setter raises. *)
Definition idealize (cam : t) : t * result unit :=
  match assign_slice 12 18 (replicate 6 zero) (vector cam) with
  | Raise e => (cam, Raise e)
  | Return v1 =>
      match assign_slice 18 20 (replicate 2 zero) v1 with
      | Raise e => (mk v1 (original_vector cam), Raise e)
      | Return v2 =>
          match assign_slice 10 12 (replicate 2 zero) v2 with
          | Raise e => (mk v2 (original_vector cam), Raise e)
          | Return v3 => (mk v3 (original_vector cam), Return ())
          end
      end
  end.

(** [np.abs]. *)
Definition np_abs (x : num) : num := if ltb x zero then opp x else x.

(** One pass of the loop of [_undistort_oulu] over the rows [uxy], the
    current guess for the rows [xy]. [None] stands for the [TypeError]
    of [_radial_distortion], which subscripts the integer [1] when no
    [k] is set. *)
Definition oulu_pass (cam : t) (xy uxy : list vec2) : option (list vec2) :=
  let r2 (u : vec2) := u.1 * u.1 + u.2 * u.2 in
  if any (p cam) && negb (any (k cam))
  then Some (zip_with
               (fun a u => vsub2 a (_tangential_distortion cam u (r2 u)))
               xy uxy)
  else if any (k cam) && negb (any (k cam))
  then Some (zip_with
               (fun a u => vscale2 (one / _radial_distortion cam (r2 u)) a)
               xy uxy)
  else if any (k cam)
  then Some (zip_with
               (fun a u =>
                  vscale2 (one / _radial_distortion cam (r2 u))
                          (vsub2 a (_tangential_distortion cam u (r2 u))))
               xy uxy)
  else None.

(** The early exit of [_undistort_oulu]:
    [np.all(np.abs(self._distort(uxy) - xy) < tolerance / self.f.mean())]. *)
Definition oulu_converged (cam : t) (tolerance : num) (xy uxy : list vec2)
    : bool :=
  let bound := tolerance / np_mean [(f cam).1; (f cam).2] in
  forallb (fun d : vec2 => ltb (np_abs d.1) bound && ltb (np_abs d.2) bound)
          (zip_with vsub2 (_distort cam uxy) xy).

Fixpoint oulu_loop (cam : t) (xy : list vec2) (tolerance : num) (n : nat)
    (uxy : list vec2) : option (list vec2) :=
  match n with
  | O => Some uxy
  | S n' =>
      match oulu_pass cam xy uxy with
      | None => None
      | Some uxy' =>
          if ltb zero tolerance && oulu_converged cam tolerance xy uxy'
          then Some uxy'
          else oulu_loop cam xy tolerance n' uxy'
      end
  end.

(** [_undistort_oulu(xy, iterations, tolerance)]. *)
Definition _undistort_oulu (cam : t) (xy : list vec2) (iterations : nat)
    (tolerance : num) : option (list vec2) :=
  oulu_loop cam xy tolerance iterations xy.

(** ** Notions used to state the properties of the camera *)

(** The size [resize(s)] aims at, and the vector it leaves behind. *)
Definition scaled_size (s : num) (cam : t) : vec2 :=
  (floor (s * (original_imgsz cam).1 + half),
   floor (s * (original_imgsz cam).2 + half)).

Definition resized_vector (new_size : vec2) (cam : t) : list num :=
  take 6 (vector cam)
  ++ [round new_size.1; round new_size.2;
      (f cam).1 * (new_size.1 / (imgsz cam).1);
      (f cam).2 * (new_size.2 / (imgsz cam).2);
      (c cam).1 * (new_size.1 / (imgsz cam).1);
      (c cam).2 * (new_size.2 / (imgsz cam).2)]
  ++ drop 12 (vector cam).

(** One row of [project]. *)
Definition project_row (cam : t) (directions : bool)
    (correction : option correction_args) (xyz : vec3) : vec2 :=
  vadd2 (vmul2 (_distort_row cam
                  (_world2camera_row cam directions correction xyz).1)
               (f cam))
        (vadd2 ((imgsz cam).1 / of_Z 2, (imgsz cam).2 / of_Z 2) (c cam)).

(** The cosines and sines of the three view angles are the finite numbers
    [c0 s0 c1 s1 c2 s2]. *)
Definition rotation_angles (cam : t) (c0 s0 c1 s1 c2 s2 : Qc) : Prop :=
  np_cos (np_deg2rad (viewdir cam).1.1) = Fin c0
  /\ np_sin (np_deg2rad (viewdir cam).1.1) = Fin s0
  /\ np_cos (np_deg2rad (viewdir cam).1.2) = Fin c1
  /\ np_sin (np_deg2rad (viewdir cam).1.2) = Fin s1
  /\ np_cos (np_deg2rad (viewdir cam).2) = Fin c2
  /\ np_sin (np_deg2rad (viewdir cam).2) = Fin s2.

(** A cosine and sine pair on the unit circle. *)
Definition unit_circle (c s : Qc) : Prop := (c * c + s * s = 1)%Qc.

(** The elevation correction, when applied, is finite on finite input. *)
Definition correction_finite (correction : option correction_args) : Prop :=
  match correction with
  | None => True
  | Some args => forall q, is_fin (elevation_corrections args (Fin q))
  end.

(** The radial distortion has a nonzero denominator at [xy]. *)
Definition regular_at (cam : t) (xy : vec2) : Prop :=
  any (drop 3 (k cam)) = true ->
  radial_denominator cam (xy.1 * xy.1 + xy.2 * xy.2) <> zero.

(** A finite row of camera coordinates that the distortion leaves in
    place, the radial distortion being regular and nonzero there. *)
Definition undistorted_at (cam : t) (row : vec2) : Prop :=
  fin2 row
  /\ regular_at cam row
  /\ _radial_distortion cam (row.1 * row.1 + row.2 * row.2) <> zero
  /\ _distort_row cam row = row.

End WithExternal.

End Camera.

(** * Correspondences ([glimpse/optimize.py]) *)

(** A correspondence keeps a reference to its camera, which the optimiser
    mutates: every method below receives the camera's current state. *)

(** The message of the position check shared by [Points] and [Lines]. *)
Definition moved_error : exn :=
  ValueError "Camera has changed position (xyz) and `directions=True`".

(** [(cam.xyz == cam_xyz).all()]. *)
Definition same_position (a b : vec3) : bool :=
  eqb a.1.1 b.1.1 && eqb a.1.2 b.1.2 && eqb a.2 b.2.

Module Points.
Section WithExternal.
Context `{External}.

Record t : Type := mk {
  uv : list vec2;
  xyz : list vec3;
  directions : bool;
  correction : option correction_args;
  cam_xyz : vec3;
  imgsz : vec2;
}.

Definition init (cam : Camera.t) (uv : list vec2) (xyz : list vec3)
    (directions : bool) (correction : option correction_args) : result t :=
  if negb (length uv =? length xyz)%nat
  then Raise (ValueError "`uv` and `xyz` have different number of rows")
  else Return (mk uv xyz directions correction (Camera.xyz cam)
                  (Camera.imgsz cam)).

Definition size (pts : t) : nat := length (uv pts).

Definition observed (pts : t) (index : option (list nat))
    : result (list vec2) :=
  select (uv pts) index.

Definition is_static (pts : t) (cam : Camera.t) : bool :=
  same_position (Camera.xyz cam) (cam_xyz pts).

Definition predicted (pts : t) (cam : Camera.t) (index : option (list nat))
    : result (list vec2) :=
  if directions pts && negb (is_static pts cam)
  then Raise moved_error
  else
    rows ← select (xyz pts) index;
    Return (Camera.project cam (directions pts) (correction pts) rows).

(** The second half of [resize]: the image coordinates follow the
    camera's image size. *)
Definition rescale (pts : t) (cam : Camera.t) : t :=
  let scale := vdiv2 (Camera.imgsz cam) (imgsz pts) in
  if neqb scale.1 one || neqb scale.2 one
  then mk (map (fun row => vmul2 row scale) (uv pts)) (xyz pts)
          (directions pts) (correction pts) (cam_xyz pts) (Camera.imgsz cam)
  else pts.

(** [resize(size, force)]: the correspondence and its camera afterwards;
    [None] is the [ValueError] of [Camera.resize]. *)
Definition resize (pts : t) (cam : Camera.t) (size : option Camera.size_arg)
    (force : bool) : option (t * Camera.t) :=
  match size with
  | None => Some (rescale pts cam, cam)
  | Some sz =>
      match Camera.resize sz force cam with
      | None => None
      | Some cam' => Some (rescale pts cam', cam')
      end
  end.

End WithExternal.
End Points.

Module Lines.
Section WithExternal.
Context `{External}.

Record t : Type := mk {
  uvs : list (list vec2);
  step : option num;
  uvi : list vec2;
  xyzs : list (list vec3);
  directions : bool;
  correction : option correction_args;
  cam_xyz : vec3;
  imgsz : vec2;
}.

Definition init (cam : Camera.t) (uvs : list (list vec2))
    (xyzs : list (list vec3)) (directions : bool)
    (correction : option correction_args) (step : option num) : result t :=
  uvi ←
    match step with
    | Some dx =>
        if truthy dx
        then np_vstack (map (fun uv => interpolate_line uv dx) uvs)
        else np_vstack uvs
    | None => np_vstack uvs
    end;
  Return (mk uvs step uvi xyzs directions correction (Camera.xyz cam)
             (Camera.imgsz cam)).

Definition size (lines : t) : nat := length (uvi lines).

Definition observed (lines : t) (index : option (list nat))
    : result (list vec2) :=
  select (uvi lines) index.

Definition is_static (lines : t) (cam : Camera.t) : bool :=
  same_position (Camera.xyz cam) (cam_xyz lines).

(** The loop of [project] over one world line [xyz]: the pieces in front
    of the camera ([inlines]) and their clipped, densified projections
    ([puvs]). *)
Definition project_line (lines : t) (cam : Camera.t) (xy_step : num)
    (xy_box : vec2 * vec2) (xyz : list vec3)
    : list (list vec2) * list (list vec2) :=
  let xy :=
    Camera._world2camera cam (directions lines) (correction lines) xyz in
  let pieces := boolean_split xy (map (fun row => is_nan row.1) xy) in
  (concat
     (map (fun line =>
             map (fun cline =>
                    Camera._camera2image cam (interpolate_line cline xy_step))
                 (clip_polyline_box line xy_box))
          pieces),
   pieces).

Definition project (lines : t) (cam : Camera.t) : result (list (list vec2)) :=
  if directions lines && negb (is_static lines cam)
  then Raise moved_error
  else
    let xy_step := div one (np_mean [(Camera.f cam).1; (Camera.f cam).2]) in
    uv_edges ←
      Camera.edges cam (div (Camera.imgsz cam).1 (of_Z 2),
                        div (Camera.imgsz cam).2 (of_Z 2));
    let xy_edges := Camera._image2camera cam uv_edges in
    xmin ← np_min (map fst xy_edges);
    ymin ← np_min (map snd xy_edges);
    xmax ← np_max (map fst xy_edges);
    ymax ← np_max (map snd xy_edges);
    let xy_box := ((xmin, ymin), (xmax, ymax)) in
    let projected := map (project_line lines cam xy_step xy_box) (xyzs lines) in
    let puvs := concat (map fst projected) in
    let inlines := concat (map snd projected) in
    match puvs with
    | _ :: _ => Return puvs
    | [] => Return (map (Camera._camera2image cam) inlines)
    end.

Definition predicted (lines : t) (cam : Camera.t) (index : option (list nat))
    : result (list vec2) :=
  arrays ← project lines cam;
  puv ← np_vstack arrays;
  uv ← observed lines index;
  min_index ←
    match puv with
    | [] => Raise (ValueError "attempt to get argmin of an empty sequence")
    | _ => mapM np_argmin (pairwise_distance uv puv)
    end;
  take_rows puv min_index.

End WithExternal.
End Lines.

(** * RANSAC ([glimpse/optimize.py]) *)
Module Ransac.

(** The model interface: [data_size()], [fit(index)] (which may return
    [None]) and [errors(params, index)], one error per sample; with the
    index omitted, [errors(params)] covers the whole data set. *)
Record model (P : Type) : Type := mk_model {
  data_size : nat;
  fit : list nat -> option P;
  error : P -> nat -> num;
}.
Arguments mk_model {P} data_size fit error.
Arguments data_size {P} m.
Arguments fit {P} m index.
Arguments error {P} m params i.

Definition errors {P : Type} (m : model P) (params : P) (index : list nat)
    : list num :=
  map (error m params) index.

Definition no_fit_error : exn :=
  ValueError "Best fit does not meet acceptance criteria".

Section Algorithm.
Context {P : Type}.

(** The random source: [shuffle n indices] is the permutation produced by
    the [n]-th call of [np.random.shuffle]. *)
Variable shuffle : nat -> list nat -> list nat.

(** [ransac_sample], on its [n]-th call. *)
Definition ransac_sample (n sample_size data_size : nat)
    : result (list nat * list nat) :=
  if (data_size <=? sample_size)%nat
  then Raise (ValueError "`sample_size` is larger or equal to `data_size`")
  else
    let indices := shuffle n (seq 0 data_size) in
    Return (take sample_size indices, drop sample_size indices).

Variable m : model P.
Variables (sample_size : nat) (max_error : num) (min_inliers iterations : nat).

(** The local variables of [ransac], and the number of samples drawn. *)
Record state : Type := mk_state {
  i : nat;
  params : option P;
  err : num;
  inlier_idx : option (list nat);
  draws : nat;
}.

Definition initial : state := mk_state 0 None PInf None 0.

(** [test_idx[test_errs < max_error]]. *)
Definition also_inliers (maybe_params : P) (test_idx : list nat) : list nat :=
  filter (fun j => ltb (error m maybe_params j) max_error = true) test_idx.

(** What one pass through the loop body does with the sample it drew:
    a [continue] (the counter [i] is left alone), or a completed pass that
    may have replaced the best candidate. *)
Inductive pass : Type :=
| Continue
| Completed (best : option (P * num * list nat)).

Definition candidate (st : state) (maybe_idx test_idx : list nat) : pass :=
  match fit m maybe_idx with
  | None => Continue
  | Some maybe_params =>
      let also_idx := also_inliers maybe_params test_idx in
      if (min_inliers <? length also_idx)%nat then
        let better_idx := maybe_idx ++ also_idx in
        match fit m better_idx with
        | None => Continue
        | Some better_params =>
            let this_err := np_mean (errors m better_params better_idx) in
            if ltb this_err (err st)
            then Completed (Some (better_params, this_err, better_idx))
            else Completed None
        end
      else Completed None
  end.

(** One execution of the body of [while i < iterations]. *)
Definition body (st : state) : result state :=
  sample ← ransac_sample (draws st) sample_size (data_size m);
  Return
    match candidate st sample.1 sample.2 with
    | Continue =>
        mk_state (i st) (params st) (err st) (inlier_idx st) (S (draws st))
    | Completed None =>
        mk_state (S (i st)) (params st) (err st) (inlier_idx st)
                 (S (draws st))
    | Completed (Some (better_params, this_err, better_idx)) =>
        mk_state (S (i st)) (Some better_params) this_err (Some better_idx)
                 (S (draws st))
    end.

(** The loop, run for at most [fuel] passes: [None] when the passes are
    used up with [i < iterations] still true. *)
Fixpoint loop (fuel : nat) (st : state) : option (result state) :=
  if (i st <? iterations)%nat then
    match fuel with
    | O => None
    | S fuel' =>
        match body st with
        | Return st' => loop fuel' st'
        | Raise e => Some (Raise e)
        end
    end
  else Some (Return st).

(** The final pass [np.where(model.errors(params) <= max_error)[0]]. *)
Definition final_inliers (best : P) : list nat :=
  filter (fun j => leb (error m best j) max_error = true) (seq 0 (data_size m)).

(** What follows the loop. *)
Definition finish (st : state) : result (P * list nat) :=
  match params st with
  | None => Raise no_fit_error
  | Some best => Return (best, final_inliers best)
  end.

(** [ransac(model, sample_size, max_error, min_inliers, iterations)] within
    [fuel] passes of its loop. *)
Definition ransac (fuel : nat) : option (result (P * list nat)) :=
  match loop fuel initial with
  | None => None
  | Some (Raise e) => Some (Raise e)
  | Some (Return st) => Some (finish st)
  end.

(** The state after [n] passes, regardless of the loop condition. *)
Fixpoint after (n : nat) (st : state) : result state :=
  match n with
  | O => Return st
  | S n' => st' ← body st; after n' st'
  end.

(** The candidate a pass from [st] accepts, if it accepts one: its
    parameters, its mean error and its inliers. *)
Definition accepts (st : state) : option (P * num * list nat) :=
  match ransac_sample (draws st) sample_size (data_size m) with
  | Raise _ => None
  | Return sample =>
      match candidate st sample.1 sample.2 with
      | Completed (Some best) => Some best
      | _ => None
      end
  end.

End Algorithm.
End Ransac.

(** * Bundle adjustment ([glimpse/optimize.py], class [Cameras]) *)
Module Cameras.

(** Camera objects are shared between the adjuster, its correspondences
    and the caller: they live in a store indexed by object identity. *)
Definition heap : Type := nat -> Camera.t.

(** [cam.vector = v] on the object [id]. *)
Definition set_vector (id : nat) (v : list num) (h : heap) : heap :=
  fun id' =>
    if decide (id' = id)
    then Camera.mk v (Camera.original_vector (h id))
    else h id'.

(** ** Correspondences as the adjuster uses them *)

Inductive control_kind : Type := KPoints | KLines | KMatches.

(** A correspondence: its class, the cameras it references ([cam] or
    [cams]), its [directions] flag, its [size] ([ctrl_size]), and its
    [observed] and [predicted] methods. *)
Record control : Type := mk_control {
  kind : control_kind;
  ctrl_cams : list nat;
  ctrl_directions : bool;
  ctrl_size : nat;
  observed_of : option (list nat) -> result (list vec2);
  predicted_of : heap -> option (list nat) -> result (list vec2);
}.

Definition of_points `{External} (id : nat) (pts : Points.t) : control :=
  mk_control KPoints [id] (Points.directions pts) (Points.size pts)
    (Points.observed pts)
    (fun h index => Points.predicted pts (h id) index).

Definition of_lines `{External} (id : nat) (lines : Lines.t) : control :=
  mk_control KLines [id] (Lines.directions lines) (Lines.size lines)
    (Lines.observed lines)
    (fun h index => Lines.predicted lines (h id) index).

(** ** Parameter selection *)

Inductive attribute : Type :=
| A_xyz | A_viewdir | A_imgsz | A_f | A_c | A_k | A_p.

#[global] Instance attribute_eq_dec : EqDecision attribute.
Proof. solve_decision. Defined.

(** The selection given for an attribute: [True], [False], [None], an
    index or a list of indices. Custom bounds, which only constrain the
    solver, are left out. *)
Inductive selection : Type :=
| SelTrue
| SelFalse
| SelNone
| SelInt (n : nat)
| SelList (l : list nat).

Definition params_dict : Type := list (attribute * selection).

Definition has_key (a : attribute) (params : params_dict) : bool :=
  bool_decide (a ∈ map fst params).

(** [indices[i]] and [indices[i + 1]] for an attribute. *)
Definition attribute_range (a : attribute) : nat * nat :=
  match a with
  | A_xyz => (0, 3)
  | A_viewdir => (3, 6)
  | A_imgsz => (6, 8)
  | A_f => (8, 10)
  | A_c => (10, 12)
  | A_k => (12, 18)
  | A_p => (18, 20)
  end.

(** The [positions] selected for an attribute, [None] when the test
    [selection or selection == 0] fails. *)
Definition positions (a : attribute) (sel : selection) : option (list nat) :=
  let start := (attribute_range a).1 in
  match sel with
  | SelTrue => Some (seq start ((attribute_range a).2 - start))
  | SelFalse => Some [start]
  | SelNone => None
  | SelInt n => Some [start + n]
  | SelList [] => None
  | SelList l => Some (map (Nat.add start) l)
  end.

(** [mask[positions] = True]. *)
Definition mark (mask : list bool) (pos : list nat) : result (list bool) :=
  if forallb (fun i => i <? length mask) pos
  then Return (foldl (fun acc i => <[i := true]> acc) mask pos)
  else Raise (IndexError "index is out of bounds for axis 0 with size 20").

(** The mask returned by [parse_params]. *)
Fixpoint parse_params_from (mask : list bool) (params : params_dict)
    : result (list bool) :=
  match params with
  | [] => Return mask
  | (a, sel) :: params' =>
      mask' ← match positions a sel with
               | Some pos => mark mask pos
               | None => Return mask
               end;
      parse_params_from mask' params'
  end.

Definition parse_params (params : params_dict) : result (list bool) :=
  parse_params_from (replicate 20 false) params.

(** ** Masked reads and writes *)

Definition count_nonzero (mask : list bool) : nat :=
  length (filter (fun b => b = true) mask).

(** [v[mask]]. *)
Fixpoint gather (v : list num) (mask : list bool) : list num :=
  match v, mask with
  | x :: v', b :: mask' => if b then x :: gather v' mask' else gather v' mask'
  | _, _ => []
  end.

Definition masked (v : list num) (mask : list bool) : result (list num) :=
  if negb (length mask =? length v)
  then Raise (IndexError "boolean index did not match indexed array")
  else Return (gather v mask).

Fixpoint scatter (v : list num) (mask : list bool) (vals : list num)
    : list num :=
  match v, mask with
  | x :: v', b :: mask' =>
      if b then
        match vals with
        | y :: vals' => y :: scatter v' mask' vals'
        | [] => x :: scatter v' mask' []
        end
      else x :: scatter v' mask' vals
  | _, _ => v
  end.

(** [v[mask] = vals]: as many values as selected slots, or one value
    broadcast to all of them. *)
Definition mask_assign (v : list num) (mask : list bool) (vals : list num)
    : result (list num) :=
  if negb (length mask =? length v)
  then Raise (IndexError "boolean index did not match indexed array")
  else if length vals =? count_nonzero mask
  then Return (scatter v mask vals)
  else
    match vals with
    | [y] => Return (scatter v mask (replicate (count_nonzero mask) y))
    | _ =>
        Raise (ValueError
                 "NumPy boolean array indexing assignment cannot assign input values to the output values where the mask is true")
    end.

(** [np.cumsum([first] + xs)]. *)
Fixpoint cumsum_from (first : nat) (xs : list nat) : list nat :=
  first ::
  match xs with
  | [] => []
  | x :: xs' => cumsum_from (first + x) xs'
  end.

(** [a[i]] on an array, [IndexError] out of bounds. *)
Definition at_index {A : Type} (a : list A) (i : nat) : result A :=
  match a !! i with
  | Some x => Return x
  | None => Raise (IndexError "index is out of bounds")
  end.

(** [list.index]: the first position of an element. *)
Fixpoint index_of (x : nat) (l : list nat) : option nat :=
  match l with
  | [] => None
  | y :: l' => if decide (x = y) then Some 0 else S <$> index_of x l'
  end.

(** ** The adjuster *)

(** The attributes of a [Cameras] object. Parameter bounds and scale
    factors, which only precondition the solver, are left out; [params]
    holds the initial values of the [lmfit.Parameters]. *)
Record t : Type := mk {
  cams : list nat;
  vectors : list (list num);
  controls : list control;
  cam_params : list params_dict;
  group_params : params_dict;
  cam_masks : list (list bool);
  group_mask : list bool;
  params : list num;
  weights : option (list num);
  sparsity : option (list (list Z));
}.

(** [prune_controls]. *)
Definition prune_controls (cams : list nat) (controls : list control)
    : list control :=
  filter (fun ctl => existsb (fun id => bool_decide (id ∈ cams)) (ctrl_cams ctl)
                     = true)
         controls.

Definition is_points_or_lines (kd : control_kind) : bool :=
  match kd with
  | KPoints | KLines => true
  | KMatches => false
  end.

Definition same_size (a b : vec2) : bool := eqb a.1 b.1 && eqb a.2 b.2.

(** More than one distinct row among the image sizes. *)
Definition sizes_differ (h : heap) (cams : list nat) : bool :=
  match cams with
  | [] => false
  | id :: rest =>
      existsb (fun id' => negb (same_size (Camera.imgsz (h id'))
                                          (Camera.imgsz (h id))))
              rest
  end.

(** The check that every camera is referenced:
    [len(set(cams) & set(control_cams_flat)) < len(cams)]. *)
Definition cameras_missing (cams : list nat) (controls : list control) : bool :=
  size ((list_to_set cams : gset nat)
          ∩ list_to_set (concat (map ctrl_cams controls)))
  <? length cams.

(** [test_cameras]. *)
Definition test_cameras (h : heap) (cams : list nat) (controls : list control)
    (cam_params : list params_dict) (group_params : params_dict)
    : result unit :=
  match controls with
  | [] => Raise (ValueError "No controls reference the cameras")
  | _ =>
      if (has_key A_f group_params || has_key A_c group_params)
         && sizes_differ h cams
      then Raise (ValueError
                    "'f' or 'c' in `group_params` but image sizes not equal")
      else
        let control_cams := map ctrl_cams controls in
        let is_directions_control :=
          map (fun ctl => is_points_or_lines (kind ctl) && ctrl_directions ctl)
              controls in
        let is_xyz_cam := map (has_key A_xyz) cam_params in
        let is_directions_cam :=
          concat
            (map (fun id =>
                    map (fun cd : list nat * bool =>
                           cd.2 && bool_decide (id ∈ cd.1))
                        (zip control_cams is_directions_control))
                 cams) in
        if cameras_missing cams controls
        then Raise (ValueError "Not all cameras appear in controls")
        else if has_key A_xyz group_params
                && existsb (fun b => b) is_directions_control
        then Raise (ValueError
                      "'xyz' cannot be in `group_params` if any `control.directions` is True")
        else if existsb (fun ab : bool * bool => ab.1 && ab.2)
                        (zip is_xyz_cam is_directions_cam)
        then Raise (ValueError
                      "'xyz' cannot be in `cam_params` if `control.directions` is True for control involving that camera")
        else Return ()
  end.

(** The values of [build_lmfit_params]: the group values read from the
    first camera, then each camera's own. *)
Definition build_values (h : heap) (cams : list nat)
    (cam_masks : list (list bool)) (group_mask : list bool)
    : result (list num) :=
  first ← at_index cams 0;
  group_values ← masked (Camera.vector (h first)) group_mask;
  cam_values ←
    mapM (fun cm : nat * list bool => masked (Camera.vector (h cm.1)) cm.2)
         (zip cams cam_masks);
  Return (group_values ++ concat cam_values).

(** ** Sparsity *)

(** [_initialize_sparse_jacobian]: the zero matrix, [n_group], [cam_ends]
    and [ctrl_ends]. *)
Definition _initialize_sparse_jacobian (cam_masks : list (list bool))
    (group_mask : list bool) (controls : list control)
    : list (list Z) * nat * list nat * list nat :=
  let n_group := count_nonzero group_mask in
  let n_cams := map count_nonzero cam_masks in
  let n := n_group + sum_list n_cams in
  let m_control := map (fun ctl => 2 * ctrl_size ctl) controls in
  let m := sum_list m_control in
  (replicate m (replicate n 0%Z), n_group,
   cumsum_from n_group n_cams, cumsum_from 0 m_control).

(** [S[r0:r1, c0:c1] = 1]. *)
Definition set_block (r0 r1 c0 c1 : nat) (M : list (list Z)) : list (list Z) :=
  imap (fun r row =>
          if (r0 <=? r) && (r <? r1)
          then imap (fun col x => if (c0 <=? col) && (col <? c1) then 1%Z else x)
                    row
          else row)
       M.

(** The inner loop of [build_sparsity] for the control at position [i]. *)
Fixpoint mark_cameras (cams : list nat) (cam_ends ctrl_ends : list nat)
    (i : nat) (ctrl_cams : list nat) (M : list (list Z))
    : result (list (list Z)) :=
  match ctrl_cams with
  | [] => Return M
  | cam :: rest =>
      M' ← match index_of cam cams with
            | None => Return M
            | Some j =>
                r0 ← at_index ctrl_ends i;
                r1 ← at_index ctrl_ends (i + 1);
                c0 ← at_index cam_ends j;
                c1 ← at_index cam_ends (j + 1);
                Return (set_block r0 r1 c0 c1 M)
            end;
      mark_cameras cams cam_ends ctrl_ends i rest M'
  end.

(** The outer loop, from the control at position [i] on. *)
Fixpoint mark_controls (cams : list nat) (cam_ends ctrl_ends : list nat)
    (i : nat) (controls : list control) (M : list (list Z))
    : result (list (list Z)) :=
  match controls with
  | [] => Return M
  | ctl :: rest =>
      M' ← mark_cameras cams cam_ends ctrl_ends i (ctrl_cams ctl) M;
      mark_controls cams cam_ends ctrl_ends (i + 1) rest M'
  end.

Definition build_sparsity_of (cams : list nat) (cam_masks : list (list bool))
    (group_mask : list bool) (controls : list control)
    : result (list (list Z)) :=
  let '(M, n_group, cam_ends, ctrl_ends) :=
    _initialize_sparse_jacobian cam_masks group_mask controls in
  mark_controls cams cam_ends ctrl_ends 0 controls
    (set_block 0 (length M) 0 n_group M).

Definition build_sparsity (self : t) : result (list (list Z)) :=
  build_sparsity_of (cams self) (cam_masks self) (group_mask self)
    (controls self).

(** [S[r, col]], zero outside the matrix. *)
Definition entry (M : list (list Z)) (r col : nat) : Z :=
  default 0%Z (row ← M !! r; row !! col).

(** [S.shape == (m, n)]. *)
Definition has_shape (m n : nat) (M : list (list Z)) : Prop :=
  length M = m /\ Forall (fun row => length row = n) M.

(** The quantities of [_initialize_sparse_jacobian] for an adjuster: the
    width of the shared block, the column ends of the camera blocks, the
    row ends of the controls and the number of rows. *)
Definition n_group (self : t) : nat := count_nonzero (group_mask self).
Definition cam_ends (self : t) : list nat :=
  cumsum_from (n_group self) (map count_nonzero (cam_masks self)).
Definition ctrl_ends (self : t) : list nat :=
  cumsum_from 0 (map (fun ctl => 2 * ctrl_size ctl) (controls self)).
Definition n_rows (self : t) : nat :=
  sum_list (map (fun ctl => 2 * ctrl_size ctl) (controls self)).

(** The entry [(r, col)] lies in a block that the control at position
    [i], referencing [ctrl_cams], sets in [build_sparsity]. *)
Definition marked (cams cam_ends ctrl_ends : list nat) (i : nat)
    (ctrl_cams : list nat) (r col : nat) : Prop :=
  exists cam j r0 r1 c0 c1,
    cam ∈ ctrl_cams /\ index_of cam cams = Some j
    /\ ctrl_ends !! i = Some r0 /\ ctrl_ends !! (i + 1) = Some r1
    /\ cam_ends !! j = Some c0 /\ cam_ends !! (j + 1) = Some c1
    /\ (r0 <= r < r1)%nat /\ (c0 <= col < c1)%nat.

(** [h'] differs from [h] at most in the [vector] of the objects [ids]. *)
Definition same_outside (ids : list nat) (h h' : heap) : Prop :=
  forall id,
    Camera.original_vector (h' id) = Camera.original_vector (h id)
    /\ (id ∉ ids -> h' id = h id).

(** The cameras hold the vectors the adjuster has saved for them. *)
Definition at_saved (self : t) (h : heap) : Prop :=
  forall j id v,
    cams self !! j = Some id -> vectors self !! j = Some v ->
    Camera.vector (h id) = v.

(** ** Construction *)

(** [Cameras(cams, controls, cam_params, group_params, weights)], with
    [scales] and [sparsity] left at [True]. A single dictionary for
    [cam_params] is the one-element list. *)
Definition init (h : heap) (cams : list nat) (controls : list control)
    (cam_params : list params_dict) (group_params : params_dict)
    (weights : option (list num)) : result t :=
  let vectors := map (fun id => Camera.vector (h id)) cams in
  let controls := prune_controls cams controls in
  _ ← test_cameras h cams controls cam_params group_params;
  cam_masks ← mapM (fun pb : params_dict * nat => parse_params pb.1)
                   (zip cam_params cams);
  group_mask ← parse_params group_params;
  params ← build_values h cams cam_masks group_mask;
  M ← build_sparsity_of cams cam_masks group_mask controls;
  Return (mk cams vectors controls cam_params group_params cam_masks
             group_mask params weights (Some M)).

(** ** Moving the cameras *)

(** The loop of [apply_params]: the camera at position [i] takes its own
    slice of [values], then the group values. The store is returned as it
    stands when an exception interrupts the loop. *)
Fixpoint apply_from (self : t) (values group_values : list num)
    (cam_breaks : list nat) (i : nat) (ids : list nat) (h : heap)
    : heap * result unit :=
  match ids with
  | [] => (h, Return ())
  | id :: ids' =>
      let step :=
        b0 ← at_index cam_breaks i;
        b1 ← at_index cam_breaks (i + 1);
        mask ← at_index (cam_masks self) i;
        v ← mask_assign (Camera.vector (h id)) mask
              (take (b1 - b0) (drop b0 values));
        Return v in
      match step with
      | Raise e => (h, Raise e)
      | Return v =>
          let h1 := set_vector id v h in
          match mask_assign (Camera.vector (h1 id)) (group_mask self)
                            group_values with
          | Raise e => (h1, Raise e)
          | Return v' =>
              apply_from self values group_values cam_breaks (i + 1) ids'
                (set_vector id v' h1)
          end
      end
  end.

(** [set_cameras(params)]. *)
Definition set_cameras (self : t) (values : list num) (h : heap)
    : heap * result unit :=
  let n_group := count_nonzero (group_mask self) in
  let group_values := take n_group values in
  let cam_breaks := cumsum_from n_group (map count_nonzero (cam_masks self)) in
  apply_from self values group_values cam_breaks 0 (cams self) h.

(** The loop of [reset_cameras]: [cam.vector = vector.copy()] over
    [zip(self.cams, vectors)]. *)
Definition restore (ids : list nat) (vectors : list (list num)) (h : heap)
    : heap :=
  foldl (fun acc iv => set_vector iv.1 iv.2 acc) h (zip ids vectors).

(** [reset_cameras()]: back to the saved vectors. *)
Definition reset_cameras (self : t) (h : heap) : heap :=
  restore (cams self) (vectors self) h.

(** [reset_cameras(vectors, save)]. *)
Definition reset_cameras_to (self : t) (vectors : list (list num))
    (save : bool) (h : heap) : t * heap :=
  (if save
   then mk (cams self) vectors (controls self) (cam_params self)
           (group_params self) (cam_masks self) (group_mask self)
           (params self) (weights self) (sparsity self)
   else self,
   restore (cams self) vectors h).

(** [update_params()]. *)
Definition update_params (self : t) (h : heap) : result t :=
  masks ← mapM (fun pb : params_dict * nat => parse_params pb.1)
               (zip (cam_params self) (cams self));
  gmask ← parse_params (group_params self);
  values ← build_values h (cams self) masks gmask;
  Return (mk (cams self) (vectors self) (controls self) (cam_params self)
             (group_params self) (cam_masks self) (group_mask self)
             values (weights self) (sparsity self)).

Definition data_size (self : t) : nat := sum_list (map ctrl_size (controls self)).

(** ** Observed and predicted coordinates *)

Definition stacked (rows : result (list (list vec2)))
    (index : option (list nat)) : result (list vec2) :=
  arrays ← rows;
  all ← np_vstack arrays;
  select all index.

(** [observed(index)]. *)
Definition observed (self : t) (index : option (list nat))
    : result (list vec2) :=
  match controls self with
  | [ctl] => observed_of ctl index
  | ctls => stacked (mapM (fun ctl => observed_of ctl None) ctls) index
  end.

(** [predicted(params, index)]: with [params] given, the cameras are set
    to them for the prediction and put back afterwards. *)
Definition predicted (self : t) (params : option (list num))
    (index : option (list nat)) (h : heap) : heap * result (list vec2) :=
  let saved := map (fun id => Camera.vector (h id)) (cams self) in
  let predict (h' : heap) : result (list vec2) :=
    match controls self with
    | [ctl] => predicted_of ctl h' index
    | ctls => stacked (mapM (fun ctl => predicted_of ctl h' None) ctls) index
    end in
  match params with
  | None => (h, predict h)
  | Some values =>
      match set_cameras self values h with
      | (h1, Raise e) => (h1, Raise e)
      | (h1, Return _) =>
          match predict h1 with
          | Raise e => (h1, Raise e)
          | Return rows => (restore (cams self) saved h1, Return rows)
          end
      end
  end.

(** Elementwise arithmetic on two [(n, 2)] arrays, a single row being
    broadcast. *)
Definition broadcast_rows (g : vec2 -> vec2 -> vec2) (a b : list vec2)
    : result (list vec2) :=
  if length a =? length b then Return (zip_with g a b)
  else
    match a, b with
    | [x], _ => Return (map (g x) b)
    | _, [y] => Return (map (fun x => g x y) a)
    | _, _ => Raise (ValueError "operands could not be broadcast together")
    end.

(** [residuals(params, index)]. *)
Definition residuals (self : t) (params : option (list num))
    (index : option (list nat)) (h : heap) : heap * result (list vec2) :=
  match predicted self params index h with
  | (h1, Raise e) => (h1, Raise e)
  | (h1, Return puv) =>
      (h1,
       uv ← observed self index;
       d ← broadcast_rows vsub2 puv uv;
       match weights self with
       | None => Return d
       | Some w =>
           w' ← select w index;
           broadcast_rows vmul2 d (map (fun x => (x, x)) w')
       end)
  end.

(** ** Weights *)

(** The setter of [weights]: [value * len(value) / sum(value)]. *)
Definition set_weights (value : option (list num)) : option (list num) :=
  match value with
  | None => None
  | Some w =>
      let n := of_Z (Z.of_nat (length w)) in
      let total := foldl add zero w in
      Some (map (fun x => div (mul x n) total) w)
  end.

(** ** The solver *)

(** What [lmfit.minimize] hands back. *)
Record MinimizerResult : Type := mk_result {
  success : bool;
  message : string;
  values : list num;
}.

(** A run of the least-squares solver, as the objective sees it: the
    solver asks for the residuals at parameter values of its choice, any
    number of times, and stops with a result. *)
Inductive solver : Type :=
| Evaluate (x : list num) (next : list vec2 -> solver)
| Stop (res : MinimizerResult).

(** Running a solver against [residuals]. *)
Fixpoint run (self : t) (index : option (list nat)) (sv : solver) (h : heap)
    : heap * result MinimizerResult :=
  match sv with
  | Stop res => (h, Return res)
  | Evaluate x next =>
      match residuals self (Some x) index h with
      | (h1, Raise e) => (h1, Raise e)
      | (h1, Return d) => run self index (next d) h1
      end
  end.

(** What [fit] returns: nothing, the parameter values, or (with [full])
    the solver's result. *)
Inductive fitted : Type :=
| FitNone
| FitValues (x : list num)
| FitResult (res : MinimizerResult).

Definition fit_return (full : bool) (res : MinimizerResult) : fitted :=
  if full then FitResult res
  else if success res then FitValues (values res)
  else FitNone.

Section Fit.

(** [lmfit.minimize(params=self.params, fcn=self.residuals, ...)]: the run
    the solver makes for this adjuster. *)
Variable lmfit_minimize : t -> option (list nat) -> solver.

(** [fit(index, full=full)] without warm-start stages. *)
Definition fit_plain (self : t) (index : option (list nat)) (full : bool)
    (h : heap) : heap * result fitted :=
  match run self index (lmfit_minimize self index) h with
  | (h1, Raise e) => (h1, Raise e)
  | (h1, Return res) => (h1, Return (fit_return full res))
  end.

(** The number of warm-start stages:
    [max(len(cam_params) if cam_params else 0, ...)]. *)
Definition stage_count (stage_cam_params : option (list (list params_dict)))
    (stage_group_params : option (list params_dict)) : nat :=
  max (length (default [] stage_cam_params))
      (length (default [] stage_group_params)).

(** [cam_params[n] if cam_params else self.cam_params]. *)
Definition stage_arg {A : Type} (arg : option (list A)) (own : A) (n : nat)
    : result A :=
  match arg with
  | None | Some [] => Return own
  | Some l => at_index l n
  end.

(** One warm-start stage: a fresh adjuster over the same cameras and
    controls is fitted and its values, if any, are applied. *)
Definition stage (self : t)
    (stage_cam_params : option (list (list params_dict)))
    (stage_group_params : option (list params_dict))
    (index : option (list nat)) (n : nat) (h : heap) : heap * result unit :=
  let made :=
    iter_cam_params ← stage_arg stage_cam_params (cam_params self) n;
    iter_group_params ← stage_arg stage_group_params (group_params self) n;
    init h (cams self) (controls self) iter_cam_params iter_group_params None in
  match made with
  | Raise e => (h, Raise e)
  | Return model =>
      match fit_plain model index false h with
      | (h1, Raise e) => (h1, Raise e)
      | (h1, Return (FitValues x)) => set_cameras model x h1
      | (h1, Return _) => (h1, Return ())
      end
  end.

Fixpoint stages (self : t)
    (stage_cam_params : option (list (list params_dict)))
    (stage_group_params : option (list params_dict))
    (index : option (list nat)) (ns : list nat) (h : heap)
    : heap * result unit :=
  match ns with
  | [] => (h, Return ())
  | n :: ns' =>
      match stage self stage_cam_params stage_group_params index n h with
      | (h1, Raise e) => (h1, Raise e)
      | (h1, Return _) =>
          stages self stage_cam_params stage_group_params index ns' h1
      end
  end.

(** [fit(index, cam_params, group_params, full)]: the store and the
    adjuster afterwards, and what the call returns or raises. *)
Definition fit (self : t) (index : option (list nat))
    (stage_cam_params : option (list (list params_dict)))
    (stage_group_params : option (list params_dict)) (full : bool)
    (h : heap) : heap * t * result fitted :=
  let iterations := stage_count stage_cam_params stage_group_params in
  let warmed : heap * result t :=
    match iterations with
    | O => (h, Return self)
    | _ =>
        match stages self stage_cam_params stage_group_params index
                     (seq 0 iterations) h with
        | (h1, Raise e) => (h1, Raise e)
        | (h1, Return _) => (h1, update_params self h1)
        end
    end in
  match warmed with
  | (h1, Raise e) => (h1, self, Raise e)
  | (h1, Return self1) =>
      match run self1 index (lmfit_minimize self1 index) h1 with
      | (h2, Raise e) => (h2, self1, Raise e)
      | (h2, Return res) =>
          match iterations with
          | O => (h2, self1, Return (fit_return full res))
          | _ =>
              let h3 := reset_cameras self1 h2 in
              match update_params self1 h3 with
              | Raise e => (h3, self1, Raise e)
              | Return self2 => (h3, self2, Return (fit_return full res))
              end
          end
      end
  end.

End Fit.

End Cameras.

(** * Image-image correspondences ([glimpse/optimize.py], class [Matches]) *)
Module Matches.
Section WithExternal.
Context `{External}.

(** The attributes of a [Matches] object; the cameras are references into
    the store. *)
Record t : Type := mk {
  cams : list nat;
  uvs : list (list vec2);
  imgszs : list vec2;
  weights : option (list num);
}.

(** [l[i]] on a Python list. *)
Definition item {A : Type} (l : list A) (i : nat) : result A :=
  match l !! i with
  | Some x => Return x
  | None => Raise (IndexError "list index out of range")
  end.

(** [_test_matches]. *)
Definition _test_matches (cams : list nat) (uvs : list (list vec2))
    : result unit :=
  c0 ← item cams 0;
  c1 ← item cams 1;
  if bool_decide (c0 = c1)
  then Raise (ValueError "Both cameras are the same object")
  else if negb (length cams =? 2)%nat || negb (length uvs =? 2)%nat
  then Raise (ValueError
                "`cams` and coordinate arrays must each have two elements")
  else
    u0 ← item uvs 0;
    u1 ← item uvs 1;
    if negb (length u0 =? length u1)%nat
    then Raise (ValueError "Coordinate arrays have different shapes")
    else Return ().

(** [Matches(cams, uvs, weights)]. *)
Definition init (h : Cameras.heap) (cams : list nat) (uvs : list (list vec2))
    (weights : option (list num)) : result t :=
  _ ← _test_matches cams uvs;
  Return (mk cams uvs (map (fun id => Camera.imgsz (h id)) cams) weights).

(** The [cam] argument of the methods: a position or a camera object. *)
Inductive cam_ref : Type :=
| ByIndex (n : nat)
| ByObject (id : nat).

(** [cam_index(cam)]. *)
Definition cam_index (m : t) (cam : cam_ref) : result nat :=
  match cam with
  | ByIndex n =>
      if (length (cams m) <=? n)%nat
      then Raise (IndexError "Camera index out of range")
      else Return n
  | ByObject id =>
      match Cameras.index_of id (cams m) with
      | Some j => Return j
      | None => Raise (ValueError "Camera is not in list")
      end
  end.

(** [is_static()]. *)
Definition is_static (m : t) (h : Cameras.heap) : result bool :=
  c0 ← item (cams m) 0;
  c1 ← item (cams m) 1;
  Return (same_position (Camera.xyz (h c0)) (Camera.xyz (h c1))).

(** [observed(index, cam)]. *)
Definition observed (m : t) (index : option (list nat)) (cam : cam_ref)
    : result (list vec2) :=
  cam_idx ← cam_index m cam;
  uv ← item (uvs m) cam_idx;
  select uv index.

(** [predicted(index, cam)]: the points of the other camera, projected
    out as ray directions and into the camera [cam]. *)
Definition predicted (m : t) (h : Cameras.heap) (index : option (list nat))
    (cam : cam_ref) : result (list vec2) :=
  static ← is_static m h;
  if negb static
  then Raise (ValueError "Cameras have different positions (xyz)")
  else
    cam_in ← cam_index m cam;
    let cam_out := if (cam_in =? 0)%nat then 1%nat else 0%nat in
    c_out ← item (cams m) cam_out;
    uv_out ← item (uvs m) cam_out;
    rows ← select uv_out index;
    c_in ← item (cams m) cam_in;
    Return (Camera.project (h c_in) true None
              (Camera.invproject_defaults (h c_out) rows)).

End WithExternal.
End Matches.

(** * Concrete inputs *)

(** The objects on which the model is evaluated in the examples below. *)
Module Sample.

(** [helpers.boolean_split(x, mask, include='false')]: the runs of rows
    whose mask is false. *)
Fixpoint false_runs (xy : list vec2) (mask : list bool) (run : list vec2)
    : list (list vec2) :=
  let close := match run with [] => [] | _ => [rev run] end in
  match xy, mask with
  | row :: xy', b :: mask' =>
      if b then close ++ false_runs xy' mask' []
      else false_runs xy' mask' (row :: run)
  | _, _ => close
  end.

(** An implementation of the external routines that is exact at the
    angle zero ([cos 0 = 1], [sin 0 = 0]): truncated series for the
    cosine and sine, [355/113] for pi, no elevation correction, identity
    stand-ins for the distortion solvers and for the clipping and
    densification of lines, squared distances between rows. *)
Definition external : External := {|
  np_deg2rad := fun x => mul x (Fin (Q2Qc (355 # 20340)));
  np_cos := fun x => sub one (div (mul x x) (of_Z 2));
  np_sin := fun x => sub x (div (mul (mul x x) x) (of_Z 6));
  correction_args := unit;
  correction_default := tt;
  elevation_corrections := fun _ _ => zero;
  scipy_optimize_minimize := fun _ x0 _ => x0;
  config_UseMatMul := false;
  undistort_k1 := fun _ xy => xy;
  undistort_lookup := fun _ xy => xy;
  undistort_oulu := fun _ xy => xy;
  undistort_regulafalsi := fun _ xy => xy;
  interpolate_line := fun line _ => line;
  boolean_split := fun xy mask => false_runs xy mask [];
  clip_polyline_box := fun line _ => [line];
  pairwise_distance := fun a b =>
    map (fun x => map (fun y => add (mul (sub x.1 y.1) (sub x.1 y.1))
                                    (mul (sub x.2 y.2) (sub x.2 y.2))) b) a;
|}.

(** ** Cameras *)

(** [Camera(xyz=(1, 0, 0))]. *)
Definition camera_east : Camera.t :=
  Camera.default_with (one, zero, zero) (of_Z 100, of_Z 100)
    (of_Z 100, of_Z 100).

(** [Camera(xyz=(1, 2, 3), c=(4, 5))]. *)
Definition camera_offset : Camera.t :=
  Camera.init (of_Z 1, of_Z 2, of_Z 3) (zero, zero, zero)
    (of_Z 100, of_Z 100) (of_Z 100, of_Z 100) (of_Z 4, of_Z 5)
    zero zero zero zero zero zero (zero, zero).

(** [Camera(k=(-1, 0, 0, -1, 0, 0))]: the radial numerator and
    denominator both vanish at radius one. *)
Definition camera_singular : Camera.t :=
  Camera.init (zero, zero, zero) (zero, zero, zero)
    (of_Z 100, of_Z 100) (of_Z 100, of_Z 100) (zero, zero)
    (of_Z (-1)) zero zero (of_Z (-1)) zero zero (zero, zero).

(** ** Correspondences *)

(** [Points(cam, uv=[(50, 50)], xyz=[(0, 10, 0)], directions=True)], with
    the fields the constructor fills in for a camera at the origin. *)
Definition points_north : Points.t (H := external) :=
  Points.mk [(of_Z 50, of_Z 50)] [(zero, of_Z 10, zero)] true None
    (zero, zero, zero) (of_Z 100, of_Z 100).

(** [Lines(cam, uvs=[[(50, 50)]], xyzs=[], directions=True)]: image lines
    without any world line. *)
Definition lines_empty : Lines.t (H := external) :=
  Lines.mk [[(of_Z 50, of_Z 50)]] None [(of_Z 50, of_Z 50)] [] true None
    (zero, zero, zero) (of_Z 100, of_Z 100).

(** ** RANSAC models *)

Definition identity_shuffle (n : nat) (indices : list nat) : list nat := indices.

(** A model over two data points whose [fit] never yields parameters. *)
Definition never_fits : Ransac.model unit :=
  Ransac.mk_model 2 (fun _ => None) (fun _ _ => zero).

(** A model over four data points whose [fit] returns the size of the
    sample it was given, with error zero everywhere. *)
Definition counts_sample : Ransac.model nat :=
  Ransac.mk_model 4 (fun index => Some (length index)) (fun _ _ => zero).

(** ** An adjuster *)

(** A store in which every object is the default camera, and the same
    store after camera 0 has been moved to [(1, 0, 0)]. *)
Definition store : Cameras.heap := fun _ => Camera.defaults.
Definition store_moved : Cameras.heap :=
  Cameras.set_vector 0 (Camera.vector camera_east) store.

(** One point in front of camera 0, given by absolute coordinates. *)
Definition control_north : Cameras.control :=
  Cameras.of_points (H := external) 0
    (Points.mk [(of_Z 50, of_Z 50)] [(zero, of_Z 10, zero)] false None
       (zero, zero, zero) (of_Z 100, of_Z 100)).

(** A correspondence of [n] points on camera [id], with nothing to
    predict: enough for the sparsity pattern. *)
Definition control_on (id n : nat) : Cameras.control :=
  Cameras.mk_control Cameras.KPoints [id] false n
    (fun _ => Return []) (fun _ _ => Return []).

Definition viewdir_mask : list bool :=
  [false; false; false; true; true; true; false; false; false; false;
   false; false; false; false; false; false; false; false; false; false].

Definition f_mask : list bool :=
  [false; false; false; false; false; false; false; false; true; true;
   false; false; false; false; false; false; false; false; false; false].

(** [Cameras(cams=[cam0], controls=[control_north],
    cam_params=dict(viewdir=True))] built on [store]. *)
Definition adjuster : Cameras.t :=
  Cameras.mk [0] [Camera.vector Camera.defaults] [control_north]
    [[(Cameras.A_viewdir, Cameras.SelTrue)]] [] [viewdir_mask]
    (replicate 20 false) [zero; zero; zero] None
    (Some [[1; 1; 1]; [1; 1; 1]]%Z).

(** Two cameras optimised in view direction with a shared focal length,
    and one correspondence on each, as the constructor leaves them:
    [Cameras(cams=[cam0, cam1], controls=[...],
    cam_params=[dict(viewdir=True), dict(viewdir=True)],
    group_params=dict(f=True))]. *)
Definition adjuster_pair : Cameras.t :=
  Cameras.mk [0; 1]
    [Camera.vector Camera.defaults; Camera.vector Camera.defaults]
    [control_on 0 1; control_on 1 2]
    [[(Cameras.A_viewdir, Cameras.SelTrue)];
     [(Cameras.A_viewdir, Cameras.SelTrue)]]
    [(Cameras.A_f, Cameras.SelTrue)] [viewdir_mask; viewdir_mask]
    f_mask [of_Z 100; of_Z 100; zero; zero; zero; zero; zero; zero] None
    (Some [[1; 1; 1; 1; 1; 0; 0; 0]; [1; 1; 1; 1; 1; 0; 0; 0];
           [1; 1; 0; 0; 0; 1; 1; 1]; [1; 1; 0; 0; 0; 1; 1; 1];
           [1; 1; 0; 0; 0; 1; 1; 1]; [1; 1; 0; 0; 0; 1; 1; 1]]%Z).

(** A solver that evaluates the residuals once and gives up. *)
Definition failed : Cameras.MinimizerResult :=
  Cameras.mk_result false "The maximum number of function evaluations is exceeded."
    [of_Z 1; of_Z 2; of_Z 3].

Definition giving_up (self : Cameras.t) (index : option (list nat))
    : Cameras.solver :=
  Cameras.Evaluate [of_Z 1; of_Z 2; of_Z 3] (fun _ => Cameras.Stop failed).

(** ** Further objects *)

(** [Camera(imgsz=(200, 200), f=(200, 200))]. *)
Definition camera_large : Camera.t :=
  Camera.default_with (zero, zero, zero) (of_Z 200, of_Z 200)
    (of_Z 200, of_Z 200).

(** [Lines(cam, uvs=[[(40, 50), (70, 50)]], xyzs=[[(0, 10, 0), (1, 10, 0)]])]
    on a default camera. *)
Definition lines_north : Lines.t (H := external) :=
  Lines.mk [[(of_Z 40, of_Z 50); (of_Z 70, of_Z 50)]] None
    [(of_Z 40, of_Z 50); (of_Z 70, of_Z 50)]
    [[(zero, of_Z 10, zero); (one, of_Z 10, zero)]] false None
    (zero, zero, zero) (of_Z 100, of_Z 100).

(** A solver that evaluates the residuals once and reports success. *)
Definition solved : Cameras.MinimizerResult :=
  Cameras.mk_result true "`ftol` termination condition is satisfied."
    [of_Z 1; of_Z 2; of_Z 3].

Definition converging (self : Cameras.t) (index : option (list nat))
    : Cameras.solver :=
  Cameras.Evaluate [of_Z 1; of_Z 2; of_Z 3] (fun _ => Cameras.Stop solved).

(** [Matches(cams=[cam0, cam1], uvs=[[(10, 20)], [(30, 40)]])] on two
    default cameras. *)
Definition matches_twins : Matches.t :=
  Matches.mk [0; 1] [[(of_Z 10, of_Z 20)]; [(of_Z 30, of_Z 40)]]
    [(of_Z 100, of_Z 100); (of_Z 100, of_Z 100)] None.

End Sample.

(** * Proof automation *)

Create HintDb fin.

(** A camera vector of length 20, entry by entry. *)
Ltac vec20 cam Hlen :=
  let v := fresh "v" in
  let o := fresh "o" in
  destruct cam as [v o]; cbn [Camera.vector Camera.original_vector] in *;
  do 20 (destruct v as [|? v]; [discriminate Hlen|]);
  destruct v; [clear Hlen|discriminate Hlen].

(** Closed equalities and inequalities between computed entries. *)
Ltac entries_eq :=
  lazymatch goal with
  | |- @eq Qc _ _ => apply Qc_is_canon; reflexivity
  | |- _ = _ => first [reflexivity | f_equal; entries_eq]
  end.
Ltac compute_eq :=
  lazymatch goal with |- _ = _ => vm_compute; entries_eq end.
Ltac compute_neq :=
  let Heq := fresh "Heq" in vm_compute; intros Heq; discriminate Heq.

(** * Properties *)

(** ** Arithmetic on array entries *)
Module NumFacts.
Local Open Scope Qc_scope.

Lemma of_Z_inj (z z' : Z) : of_Z z = of_Z z' -> z = z'.
Proof.
  unfold of_Z. intros Heq. injection Heq as Heq.
  assert (Hq : (inject_Z z == inject_Z z')%Q).
  { rewrite <- (Qred_correct (inject_Z z)), <- (Qred_correct (inject_Z z')).
    now rewrite Heq. }
  unfold Qeq in Hq. simpl in Hq. lia.
Qed.

Lemma of_Z_nonzero (z : Z) : z <> 0%Z -> Q2Qc (inject_Z z) <> 0.
Proof.
  intros Hz H0. apply Hz. apply of_Z_inj. unfold of_Z. now rewrite H0.
Qed.

Lemma one_nonzero : (1 : Qc) <> 0.
Proof. intros Heq. discriminate (f_equal this Heq). Qed.

Lemma Qfloor_of_Z (z : Z) : Qfloor (this (Q2Qc (inject_Z z))) = z.
Proof.
  simpl. rewrite (Qfloor_comp _ _ (Qred_correct (inject_Z z))). apply Qfloor_Z.
Qed.

(** Rounding leaves whole numbers alone. *)
Lemma round_of_Z (z : Z) : round (of_Z z) = of_Z z.
Proof.
  unfold round, of_Z at 1. f_equal. unfold round_half_even.
  rewrite Qfloor_of_Z.
  replace (Q2Qc (inject_Z z) - Q2Qc (inject_Z z)) with (Q2Qc 0) by ring.
  reflexivity.
Qed.

Lemma mul_one_r (x : num) : mul x one = x.
Proof.
  destruct x; try reflexivity.
  unfold one, of_Z. simpl. f_equal.
  change (Q2Qc (inject_Z 1)) with 1. ring.
Qed.

Lemma div_fin (a b : Qc) : b <> 0 -> div (Fin a) (Fin b) = Fin (a / b).
Proof. intros Hb. unfold div. now destruct (decide (b = 0)). Qed.

Lemma div_self (z : Z) : z <> 0%Z -> div (of_Z z) (of_Z z) = one.
Proof.
  intros Hz. unfold of_Z. rewrite div_fin by now apply of_Z_nonzero.
  unfold one, of_Z. f_equal. change (Q2Qc (inject_Z 1)) with 1.
  field. now apply of_Z_nonzero.
Qed.

Lemma Qcdiv_nonzero (a b : Qc) : a <> 0 -> b <> 0 -> a / b <> 0.
Proof.
  intros Ha Hb Hq. apply Ha.
  replace a with (a / b * b) by (now field). rewrite Hq. ring.
Qed.

(** The sign of a rational is the sign of its numerator. *)
Lemma Qccompare_0_r (a : Qc) : Qccompare a 0 = (Qnum (this a) ?= 0)%Z.
Proof. unfold Qccompare, Qcompare. simpl. now rewrite Z.mul_1_r. Qed.

Lemma Qccompare_0_l (a : Qc) : Qccompare 0 a = (0 ?= Qnum (this a))%Z.
Proof. unfold Qccompare, Qcompare. simpl. now rewrite Z.mul_1_r. Qed.

Lemma Qnum_mul_sign (a b : Qc) :
  (Qnum (this (a * b)) ?= 0)%Z = (Qnum (this a) * Qnum (this b) ?= 0)%Z.
Proof.
  rewrite <- Qccompare_0_r. unfold Qccompare. simpl.
  rewrite (Qcompare_comp _ _ (Qred_correct _) 0%Q 0%Q (Qeq_refl 0)).
  unfold Qcompare. simpl. now rewrite Z.mul_1_r.
Qed.

Lemma Qnum_zero (a : Qc) : Qnum (this a) = 0%Z -> a = 0.
Proof.
  intros Hn. apply Qc_is_canon. unfold Qeq. simpl. rewrite Hn. reflexivity.
Qed.

(** Multiplication is associative as long as the middle factor is a
    nonzero finite number. *)
Lemma mul_assoc_fin (x : num) (a b : Qc) :
  a <> 0 -> mul (mul x (Fin a)) (Fin b) = mul x (Fin (a * b)).
Proof.
  intros Ha.
  assert (Hn : Qnum (this a) <> 0%Z) by (intros Hn; now apply Ha, Qnum_zero).
  destruct x as [q | | |]; simpl.
  - f_equal. ring.
  - rewrite !Qccompare_0_r, Qnum_mul_sign.
    destruct (Qnum (this a)) as [|pa|pa]; [congruence | |]; simpl;
      rewrite ?Qccompare_0_r, ?Qccompare_0_l;
      destruct (Qnum (this b)); reflexivity.
  - rewrite !Qccompare_0_l, (Z.compare_antisym (Qnum (this (a * b))) 0%Z),
      Qnum_mul_sign.
    destruct (Qnum (this a)) as [|pa|pa]; [congruence | |]; simpl;
      rewrite ?Qccompare_0_r, ?Qccompare_0_l;
      destruct (Qnum (this b)); reflexivity.
  - reflexivity.
Qed.

(** A positive finite number is not [<= 0] and is not zero. *)
Lemma positive_not_behind (z : Qc) :
  ltb zero (Fin z) = true -> leb (Fin z) zero = false /\ z <> 0.
Proof.
  unfold ltb, leb, zero, of_Z. change (Q2Qc (inject_Z 0)) with (0 : Qc).
  rewrite (Qccompare_0_l z), (Qccompare_0_r z). intros Hz. split.
  - destruct (Qnum (this z)); cbn in *; congruence.
  - intros ->. discriminate Hz.
Qed.

(** ** Finite entries *)

Lemma is_fin_eq (x : num) : is_fin x -> exists q, x = Fin q.
Proof. destruct x; simpl; intros Hx; try contradiction; eauto. Qed.

Lemma fin_add (x y : num) : is_fin x -> is_fin y -> is_fin (add x y).
Proof. now destruct x, y. Qed.

Lemma fin_opp (x : num) : is_fin x -> is_fin (opp x).
Proof. now destruct x. Qed.

Lemma fin_sub (x y : num) : is_fin x -> is_fin y -> is_fin (sub x y).
Proof. now destruct x, y. Qed.

Lemma fin_mul (x y : num) : is_fin x -> is_fin y -> is_fin (mul x y).
Proof. now destruct x, y. Qed.

Lemma fin_div (x y : num) :
  is_fin x -> is_fin y -> y <> zero -> is_fin (div x y).
Proof.
  destruct x as [a| | |], y as [b| | |]; simpl; try contradiction.
  intros _ _ Hy. destruct (decide (b = 0)) as [-> | Hb]; [|exact I].
  exfalso. apply Hy. reflexivity.
Qed.

Lemma fin_of_Z (z : Z) : is_fin (of_Z z).
Proof. exact I. Qed.

Lemma fin_one : is_fin one.
Proof. exact I. Qed.

(** ** The comparison [==] *)

Lemma eqb_eq (x y : num) : eqb x y = true -> x = y.
Proof.
  destruct x, y; cbn; try discriminate; try reflexivity.
  intros Hb. apply bool_decide_eq_true in Hb. now subst.
Qed.

Lemma eqb_refl (x : num) : is_nan x = false -> eqb x x = true.
Proof.
  destruct x; cbn; try reflexivity; try discriminate.
  intros _. now apply bool_decide_eq_true.
Qed.

End NumFacts.

#[global] Hint Resolve NumFacts.fin_add NumFacts.fin_opp NumFacts.fin_sub
  NumFacts.fin_mul NumFacts.fin_of_Z NumFacts.fin_one : fin.

(** ** Camera: resizing *)
Module CameraFacts.
Import NumFacts.
Local Open Scope Qc_scope.

Section WithExternal.
Context `{External}.

Lemma scaled_size_original (s : num) (cam : Camera.t) (v : list num) :
  Camera.scaled_size s (Camera.mk v (Camera.original_vector cam))
  = Camera.scaled_size s cam.
Proof. reflexivity. Qed.

(** [resize(s)] in one step. *)
Lemma resize_scale_eq (s : num) (cam : Camera.t) :
  length (Camera.vector cam) = 20%nat ->
  Camera.resize_scale s cam
  = Camera.mk (Camera.resized_vector (Camera.scaled_size s cam) cam)
              (Camera.original_vector cam).
Proof. intros Hlen. vec20 cam Hlen. reflexivity. Qed.

Lemma resized_vector_length (new_size : vec2) (cam : Camera.t) :
  length (Camera.vector cam) = 20%nat ->
  length (Camera.resized_vector new_size cam) = 20%nat.
Proof. intros Hlen. vec20 cam Hlen. reflexivity. Qed.

Lemma resized_again (n n' : vec2) (cam : Camera.t) (o : list num) :
  length (Camera.vector cam) = 20%nat ->
  Camera.resized_vector n' (Camera.mk (Camera.resized_vector n cam) o)
  = take 6 (Camera.vector cam)
    ++ [round n'.1; round n'.2;
        mul (mul (Camera.f cam).1 (div n.1 (Camera.imgsz cam).1))
            (div n'.1 (round n.1));
        mul (mul (Camera.f cam).2 (div n.2 (Camera.imgsz cam).2))
            (div n'.2 (round n.2));
        mul (mul (Camera.c cam).1 (div n.1 (Camera.imgsz cam).1))
            (div n'.1 (round n.1));
        mul (mul (Camera.c cam).2 (div n.2 (Camera.imgsz cam).2))
            (div n'.2 (round n.2))]
    ++ drop 12 (Camera.vector cam).
Proof. intros Hlen. vec20 cam Hlen. reflexivity. Qed.

Lemma resized_imgsz (n : vec2) (cam : Camera.t) (o : list num) :
  length (Camera.vector cam) = 20%nat ->
  Camera.imgsz (Camera.mk (Camera.resized_vector n cam) o)
  = (round n.1, round n.2).
Proof. intros Hlen. vec20 cam Hlen. reflexivity. Qed.

(** After [resize(s1)], a further [resize(s2)] gives what [resize(s2)]
    alone gives: the scale is taken from the original size. *)
Lemma resize_last_wins (s1 s2 w h iw ih : Qc) (cam : Camera.t) :
  length (Camera.vector cam) = 20%nat ->
  Camera.original_imgsz cam = (Fin w, Fin h) ->
  Camera.imgsz cam = (Fin iw, Fin ih) ->
  iw <> 0 -> ih <> 0 ->
  floor (mul (Fin s1) (Fin w) + half) <> zero ->
  floor (mul (Fin s1) (Fin h) + half) <> zero ->
  Camera.resize_scale (Fin s2) (Camera.resize_scale (Fin s1) cam)
  = Camera.resize_scale (Fin s2) cam.
Proof.
  intros Hlen Ho Hi Hiw Hih Hw Hh.
  rewrite (resize_scale_eq (Fin s1) cam Hlen).
  rewrite !resize_scale_eq by (try apply resized_vector_length; assumption).
  cbn [Camera.original_vector]. f_equal.
  rewrite scaled_size_original.
  rewrite resized_again by assumption.
  unfold Camera.resized_vector, Camera.scaled_size. rewrite Ho, Hi.
  cbn [fst snd]. unfold half in *. cbn [mul add floor] in *.
  set (zw1 := Qfloor (s1 * w + Q2Qc (1 # 2))%Qc) in *.
  set (zh1 := Qfloor (s1 * h + Q2Qc (1 # 2))%Qc) in *.
  assert (Hzw : Q2Qc (inject_Z zw1) <> 0).
  { apply of_Z_nonzero. intros Hz. apply Hw. unfold zero. now rewrite Hz. }
  assert (Hzh : Q2Qc (inject_Z zh1) <> 0).
  { apply of_Z_nonzero. intros Hz. apply Hh. unfold zero. now rewrite Hz. }
  rewrite !round_of_Z.
  unfold of_Z. rewrite !div_fin by assumption.
  rewrite !mul_assoc_fin by (now apply Qcdiv_nonzero).
  do 2 f_equal. repeat f_equal; field; auto.
Qed.



End WithExternal.





(** ** Camera: projection *)

Section WithExternal.
Context `{External}.

(** Without distortion coefficients, [_distort] and [_undistort] return
    their argument. *)
Lemma distort_zero (cam : Camera.t) (xy : list vec2) :
  any (Camera.k cam) = false -> any (Camera.p cam) = false ->
  Camera._distort cam xy = xy.
Proof. intros Hk Hp. unfold Camera._distort. now rewrite Hk, Hp. Qed.

Lemma undistort_zero (cam : Camera.t) (method : Camera.undistort_method)
    (xy : list vec2) :
  any (Camera.k cam) = false -> any (Camera.p cam) = false ->
  Camera._undistort cam method xy = xy.
Proof. intros Hk Hp. unfold Camera._undistort. now rewrite Hk, Hp. Qed.

(** [_distort] works row by row. *)
Lemma distort_map (cam : Camera.t) (xy : list vec2) :
  Camera._distort cam xy = map (Camera._distort_row cam) xy.
Proof.
  unfold Camera._distort.
  destruct (any (Camera.k cam)) eqn:Hk, (any (Camera.p cam)) eqn:Hp;
    cbn [negb andb]; try reflexivity.
  rewrite <- (map_id xy) at 1. apply map_ext. intros [x y].
  unfold Camera._distort_row. now rewrite Hk, Hp.
Qed.

(** [project] works row by row. *)
Lemma project_map (cam : Camera.t) (directions : bool)
    (correction : option correction_args) (xyz : list vec3) :
  Camera.project cam directions correction xyz
  = map (Camera.project_row cam directions correction) xyz.
Proof.
  unfold Camera.project, Camera._camera2image, Camera._world2camera.
  rewrite distort_map, !map_map. reflexivity.
Qed.

(** *** The point on the optical axis *)

Section FacingNorth.
Hypothesis cos_zero : np_cos (np_deg2rad zero) = one.
Hypothesis sin_zero : np_sin (np_deg2rad zero) = zero.

(** The rotation of a camera with view direction zero: image right is
    east, image down is down, the optical axis points north. *)
Lemma R_defaults :
  Camera.R Camera.defaults
  = ((one, zero, zero), (zero, zero, opp one), (zero, one, zero)).
Proof.
  unfold Camera.R.
  change (Camera.viewdir Camera.defaults) with (zero, zero, zero).
  cbn [fst snd]. rewrite cos_zero, sin_zero. compute_eq.
Qed.

(** C9: the camera of size (100, 100) and focal length (100, 100), all
    else at its default (at the origin, facing north, no distortion),
    projects the world point (0, 10, 0) to the image coordinates (50, 50),
    the image centre; NumPy's cosine and sine of the angle zero are taken
    to be 1 and 0. *)
Theorem project_point_on_axis :
  Camera.project_defaults Camera.defaults [(zero, of_Z 10, zero)]
  = [(of_Z 50, of_Z 50)].
Proof.
  unfold Camera.project_defaults, Camera.project, Camera._world2camera,
    Camera._camera2image.
  cbn [map]. unfold Camera._world2camera_row, Camera.to_camera_frame.
  rewrite R_defaults. destruct config_UseMatMul; compute_eq.
Qed.

End FacingNorth.

(** *** The rotation is orthonormal *)

Section Rotation.
Variable cam : Camera.t.
Variables c0 s0 c1 s1 c2 s2 : Qc.
Hypothesis angles : Camera.rotation_angles cam c0 s0 c1 s1 c2 s2.

Lemma R_finite :
  Camera.R cam =
  ((Fin (c0 * c2 + s0 * s1 * s2), Fin (c0 * s1 * s2 - c2 * s0), Fin (- c1 * s2)),
   (Fin (c2 * s0 * s1 - c0 * s2), Fin (s0 * s2 + c0 * c2 * s1), Fin (- c1 * c2)),
   (Fin (c1 * s0), Fin (c0 * c1), Fin s1)).
Proof.
  destruct angles as (Hc0 & Hs0 & Hc1 & Hs1 & Hc2 & Hs2).
  unfold Camera.R. rewrite Hc0, Hs0, Hc1, Hs1, Hc2, Hs2. reflexivity.
Qed.

Lemma fin_to_camera_frame (dxyz : vec3) :
  fin3 dxyz -> fin3 (Camera.to_camera_frame cam dxyz).
Proof.
  intros (Hx & Hy & Hz). unfold Camera.to_camera_frame. rewrite R_finite.
  destruct dxyz as [[x y] z]. cbn [fst snd] in *.
  destruct x, y, z; try contradiction.
  destruct config_UseMatMul; repeat split; exact I.
Qed.

Lemma ray_finite (x y : Qc) :
  exists a b c : Qc,
    vadd3 (Camera.from_camera_frame cam (Fin x, Fin y)) (Camera.R cam).2
    = (Fin a, Fin b, Fin c).
Proof.
  unfold Camera.from_camera_frame. rewrite R_finite.
  destruct config_UseMatMul; cbn; eauto.
Qed.

Hypothesis unit0 : Camera.unit_circle c0 s0.
Hypothesis unit1 : Camera.unit_circle c1 s1.
Hypothesis unit2 : Camera.unit_circle c2 s2.

(** Rotating the ray through the camera coordinates [(x, y)] back into
    the camera frame gives [(x, y, 1)]. *)
Lemma frame_roundtrip (x y : Qc) :
  Camera.to_camera_frame cam
    (vadd3 (Camera.from_camera_frame cam (Fin x, Fin y)) (Camera.R cam).2)
  = (Fin x, Fin y, Fin 1).
Proof.
  unfold Camera.unit_circle in *.
  assert (E0 : s0 * s0 = 1 - c0 * c0) by (rewrite <- unit0; ring).
  assert (E1 : s1 * s1 = 1 - c1 * c1) by (rewrite <- unit1; ring).
  assert (E2 : s2 * s2 = 1 - c2 * c2) by (rewrite <- unit2; ring).
  unfold Camera.to_camera_frame, Camera.from_camera_frame.
  rewrite R_finite.
  destruct config_UseMatMul; cbn;
    repeat f_equal; ring [E0 E1 E2].
Qed.

(** *** The round trip through the world *)

Variables px py pz w h fx fy cx cy : Qc.
Hypothesis xyz_finite : Camera.xyz cam = (Fin px, Fin py, Fin pz).
Hypothesis imgsz_finite : Camera.imgsz cam = (Fin w, Fin h).
Hypothesis f_finite : Camera.f cam = (Fin fx, Fin fy).
Hypothesis c_finite : Camera.c cam = (Fin cx, Fin cy).
Hypothesis fx_nonzero : fx <> 0.
Hypothesis fy_nonzero : fy <> 0.
Hypothesis k_zero : any (Camera.k cam) = false.
Hypothesis p_zero : any (Camera.p cam) = false.

Lemma image2camera_finite (u v : Qc) :
  Camera._image2camera cam [(Fin u, Fin v)]
  = [(Fin ((u - (w * Q2Qc (1 # 2) + cx)) * (1 / fx)),
      Fin ((v - (h * Q2Qc (1 # 2) + cy)) * (1 / fy)))].
Proof.
  unfold Camera._image2camera. rewrite undistort_zero by assumption.
  cbn [map]. rewrite imgsz_finite, f_finite, c_finite.
  unfold vmul2, vsub2, vadd2, map2, one, half, of_Z. cbn [fst snd].
  rewrite !div_fin by assumption. reflexivity.
Qed.

Lemma camera2image_finite (x y : Qc) :
  Camera._camera2image cam [(Fin x, Fin y)]
  = [(Fin (x * fx + (w / 2 + cx)), Fin (y * fy + (h / 2 + cy)))].
Proof.
  unfold Camera._camera2image. rewrite distort_zero by assumption.
  cbn [map]. rewrite imgsz_finite, f_finite, c_finite.
  unfold vmul2, vsub2, vadd2, map2, of_Z. cbn [fst snd].
  rewrite !div_fin by (intros Heq; discriminate (f_equal this Heq)).
  reflexivity.
Qed.

Lemma camera2world_unit_depth (directions : bool) (xy : vec2) :
  Camera._camera2world_row cam directions one xy
  = if directions
    then vadd3 (Camera.from_camera_frame cam xy) (Camera.R cam).2
    else vadd3 (vadd3 (Camera.from_camera_frame cam xy) (Camera.R cam).2)
               (Camera.xyz cam).
Proof. reflexivity. Qed.

Lemma world2camera_of_ray (directions : bool) (x y : Qc) :
  Camera._world2camera_row cam directions None
    (Camera._camera2world_row cam directions one (Fin x, Fin y))
  = ((Fin x, Fin y), Fin 1).
Proof.
  rewrite camera2world_unit_depth. unfold Camera._world2camera_row.
  assert (Hframe :
    Camera.to_camera_frame cam
      (if directions
       then (if directions
             then vadd3 (Camera.from_camera_frame cam (Fin x, Fin y))
                        (Camera.R cam).2
             else vadd3 (vadd3 (Camera.from_camera_frame cam (Fin x, Fin y))
                               (Camera.R cam).2) (Camera.xyz cam))
       else vsub3 (if directions
             then vadd3 (Camera.from_camera_frame cam (Fin x, Fin y))
                        (Camera.R cam).2
             else vadd3 (vadd3 (Camera.from_camera_frame cam (Fin x, Fin y))
                               (Camera.R cam).2) (Camera.xyz cam))
              (Camera.xyz cam))
    = (Fin x, Fin y, Fin 1)).
  { destruct directions; [apply frame_roundtrip|].
    rewrite <- (frame_roundtrip x y). f_equal.
    destruct (ray_finite x y) as (a & b & c & ->). rewrite xyz_finite.
    unfold vsub3, vadd3. cbn. repeat f_equal; ring. }
  cbv zeta. rewrite Hframe. cbn [fst snd].
  rewrite !div_fin by apply one_nonzero.
  change (leb (Fin 1) zero) with false. cbv iota.
  repeat f_equal; field; apply one_nonzero.
Qed.

Lemma project_invproject_row (directions : bool) (u v : Qc) :
  Camera.project cam directions None
    (Camera.invproject cam directions one [(Fin u, Fin v)])
  = [(Fin u, Fin v)].
Proof.
  unfold Camera.invproject. rewrite image2camera_finite.
  unfold Camera._camera2world, Camera.project, Camera._world2camera.
  cbn [map]. rewrite world2camera_of_ray. cbn [fst].
  rewrite camera2image_finite.
  change (Q2Qc (1 # 2)) with (/ 2 : Qc).
  repeat f_equal; field; repeat split; try assumption;
    intros Heq; discriminate (f_equal this Heq).
Qed.

Lemma invproject_cons (directions : bool) (depth : num) (uv : vec2)
    (uvs : list vec2) :
  Camera.invproject cam directions depth (uv :: uvs)
  = Camera.invproject cam directions depth [uv]
    ++ Camera.invproject cam directions depth uvs.
Proof.
  unfold Camera.invproject, Camera._image2camera, Camera._camera2world.
  now rewrite !undistort_zero by assumption.
Qed.

Lemma project_invproject_rows (directions : bool) (uvs : list (Qc * Qc)) :
  Camera.project cam directions None
    (Camera.invproject cam directions one
       (map (fun uv => (Fin uv.1, Fin uv.2)) uvs))
  = map (fun uv => (Fin uv.1, Fin uv.2)) uvs.
Proof.
  induction uvs as [|[u v] uvs IH].
  - unfold Camera.invproject, Camera._image2camera, Camera.project,
      Camera._camera2image.
    rewrite undistort_zero by assumption. cbn [map].
    now rewrite distort_zero by assumption.
  - cbn [map fst snd]. rewrite invproject_cons, project_map, map_app.
    rewrite <- !project_map, IH, project_invproject_row. reflexivity.
Qed.

End Rotation.


End WithExternal.



Lemma project_point_on_axis_witness :
  Camera.project_defaults (H := Sample.external) Camera.defaults
    [(zero, of_Z 10, zero)]
  = [(of_Z 50, of_Z 50)].
Proof.
  apply (project_point_on_axis (H := Sample.external)); compute_eq.
Defined.

(** ** Camera: points behind the camera *)

Section WithExternal.
Context `{External}.

Lemma distort_row_nan (cam : Camera.t) :
  Camera._distort_row cam (NaN, NaN) = (NaN, NaN).
Proof.
  unfold Camera._distort_row.
  destruct (any (Camera.k cam)), (any (Camera.p cam)); reflexivity.
Qed.

(** A point at non-positive depth projects to NaN, whatever the camera. *)
Lemma project_row_behind (cam : Camera.t) (directions : bool)
    (correction : option correction_args) (xyz : vec3) :
  leb (Camera._world2camera_row cam directions correction xyz).2 zero = true ->
  Camera.project_row cam directions correction xyz = (NaN, NaN).
Proof.
  intros Hz. unfold Camera.project_row.
  replace (Camera._world2camera_row cam directions correction xyz).1
    with ((NaN, NaN) : vec2).
  - rewrite distort_row_nan. reflexivity.
  - unfold Camera._world2camera_row in *. cbn [fst snd] in *. now rewrite Hz.
Qed.

Lemma fin_slot (v : list num) (i : nat) :
  Forall is_fin v -> (i < length v)%nat -> is_fin (Camera.slot v i).
Proof.
  intros Hv Hi. unfold Camera.slot.
  destruct (lookup_lt_is_Some_2 v i Hi) as [x Hx].
  rewrite (nth_lookup_Some v i NaN x Hx).
  exact (Forall_lookup_1 _ _ _ _ Hv Hx).
Qed.

Section Finite.
Variable cam : Camera.t.
Hypothesis vector_length : length (Camera.vector cam) = 20%nat.
Hypothesis vector_finite : Forall is_fin (Camera.vector cam).

Lemma fin_vector_slot (i : nat) :
  (i < 20)%nat -> is_fin (Camera.slot (Camera.vector cam) i).
Proof. intros Hi. apply fin_slot; [assumption | now rewrite vector_length]. Qed.

Lemma fin_k (i : nat) : (i < 6)%nat -> is_fin (Camera.slot (Camera.k cam) i).
Proof.
  intros Hi. apply fin_slot.
  - unfold Camera.k. now apply Forall_take, Forall_drop.
  - unfold Camera.k. rewrite length_take, length_drop, vector_length. lia.
Qed.

Lemma fin_p (i : nat) : (i < 2)%nat -> is_fin (Camera.slot (Camera.p cam) i).
Proof.
  intros Hi. apply fin_slot.
  - unfold Camera.p. now apply Forall_take, Forall_drop.
  - unfold Camera.p. rewrite length_take, length_drop, vector_length. lia.
Qed.

Lemma fin_radial_numerator (r2 : num) :
  is_fin r2 -> is_fin (Camera.radial_numerator cam r2).
Proof.
  intros Hr. unfold Camera.radial_numerator. cbv beta zeta.
  pose proof (fin_k 0 ltac:(lia)). pose proof (fin_k 1 ltac:(lia)).
  pose proof (fin_k 2 ltac:(lia)).
  repeat match goal with |- context [if ?b then _ else _] => destruct b end;
    auto 10 with fin.
Qed.

Lemma fin_radial_denominator (r2 : num) :
  is_fin r2 -> is_fin (Camera.radial_denominator cam r2).
Proof.
  intros Hr. unfold Camera.radial_denominator. cbv beta zeta.
  pose proof (fin_k 3 ltac:(lia)). pose proof (fin_k 4 ltac:(lia)).
  pose proof (fin_k 5 ltac:(lia)).
  repeat match goal with |- context [if ?b then _ else _] => destruct b end;
    auto 10 with fin.
Qed.

(** The distortion stays finite where its denominator does not vanish. *)
Lemma fin_distort_row (xy : vec2) :
  fin2 xy -> Camera.regular_at cam xy -> fin2 (Camera._distort_row cam xy).
Proof.
  intros [Hx Hy] Hreg. unfold Camera._distort_row.
  set (r2 := add (mul xy.1 xy.1) (mul xy.2 xy.2)) in *.
  assert (Hr : is_fin r2) by (subst r2; auto with fin).
  assert (Hdr : is_fin (Camera._radial_distortion cam r2)).
  { unfold Camera._radial_distortion.
    destruct (any (drop 3 (Camera.k cam))) eqn:Hany.
    - apply fin_div; auto using fin_radial_numerator, fin_radial_denominator.
    - now apply fin_radial_numerator. }
  assert (Hdt : fin2 (Camera._tangential_distortion cam xy r2)).
  { pose proof (fin_p 0 ltac:(lia)). pose proof (fin_p 1 ltac:(lia)).
    unfold Camera._tangential_distortion.
    split; cbn [fst snd]; auto 10 with fin. }
  destruct Hdt as [Hdt1 Hdt2].
  unfold vscale2, vadd2, map2.
  destruct (any (Camera.k cam)), (any (Camera.p cam)); split; cbn [fst snd];
    auto with fin.
Qed.

Variables c0 s0 c1 s1 c2 s2 : Qc.
Hypothesis angles : Camera.rotation_angles cam c0 s0 c1 s1 c2 s2.

(** In front of a regular camera with finite parameters, a finite point
    has finite image coordinates. *)
Lemma fin_project_row (directions : bool)
    (correction : option correction_args) (xyz : vec3) :
  fin3 xyz -> Camera.correction_finite correction ->
  ltb zero (Camera._world2camera_row cam directions correction xyz).2 = true ->
  Camera.regular_at cam
    (Camera._world2camera_row cam directions correction xyz).1 ->
  fin2 (Camera.project_row cam directions correction xyz).
Proof.
  intros Hxyz Hcorr Hz Hreg. unfold Camera.project_row.
  pose proof (fin_vector_slot 0 ltac:(lia)) as Hp0.
  pose proof (fin_vector_slot 1 ltac:(lia)) as Hp1.
  pose proof (fin_vector_slot 2 ltac:(lia)) as Hp2.
  assert (Hxy :
    fin2 (Camera._world2camera_row cam directions correction xyz).1).
  { clear Hreg. unfold Camera._world2camera_row in *. cbn [fst snd] in *.
    set (dxyz := if directions then xyz else _) in *.
    assert (Hd : fin3 dxyz).
    { subst dxyz. destruct directions; [assumption|].
      destruct Hxyz as (Hx & Hy & Hz').
      assert (Hsub : fin3 (vsub3 xyz (Camera.xyz cam))).
      { unfold vsub3, Camera.xyz. repeat split; cbn [fst snd]; auto with fin. }
      destruct correction as [args|]; [|assumption].
      destruct Hsub as (Hs1 & Hs2 & Hs3).
      split; [exact Hs1 | split; [exact Hs2 |]]. cbn [fst snd].
      apply fin_add; [exact Hs3|].
      match goal with
      | |- is_fin (elevation_corrections _ ?e) =>
          let He := fresh in
          assert (He : is_fin e) by auto with fin;
          destruct (is_fin_eq e He) as [q ->]
      end.
      apply Hcorr. }
    destruct (fin_to_camera_frame cam c0 s0 c1 s1 c2 s2 angles dxyz Hd)
      as (Hx & Hy & Hz').
    destruct (Camera.to_camera_frame cam dxyz) as [[x y] z].
    cbn [fst snd] in *.
    destruct x as [x| | |], y as [y| | |], z as [z| | |]; try contradiction.
    destruct (positive_not_behind z Hz) as [Hpos Hnz].
    rewrite Hpos. split; cbn [fst snd]; apply fin_div; try exact I.
    all: intros Heq; rewrite Heq in Hz; discriminate Hz. }
  destruct (fin_distort_row _ Hxy Hreg) as [Hd1 Hd2].
  pose proof (fin_vector_slot 6 ltac:(lia)).
  pose proof (fin_vector_slot 7 ltac:(lia)).
  pose proof (fin_vector_slot 8 ltac:(lia)).
  pose proof (fin_vector_slot 9 ltac:(lia)).
  pose proof (fin_vector_slot 10 ltac:(lia)).
  pose proof (fin_vector_slot 11 ltac:(lia)).
  assert (Htwo : of_Z 2 <> zero) by (intros Heq; apply of_Z_inj in Heq; lia).
  unfold vadd2, vmul2, map2, Camera.f, Camera.imgsz, Camera.c.
  split; cbn [fst snd]; auto 10 using fin_div with fin.
Qed.

End Finite.


End WithExternal.



End CameraFacts.

(** ** Correspondences: the position check *)
Module ControlFacts.
Import NumFacts.

Lemma same_position_eq (a b : vec3) : same_position a b = true -> a = b.
Proof.
  destruct a as [[a1 a2] a3], b as [[b1 b2] b3]. unfold same_position. cbn.
  intros Hb. apply andb_true_iff in Hb as [Hb H3].
  apply andb_true_iff in Hb as [H1 H2].
  apply eqb_eq in H1, H2, H3. now subst.
Qed.

Lemma same_position_refl (a : vec3) : no_nan3 a -> same_position a a = true.
Proof.
  intros (H1 & H2 & H3). unfold same_position.
  now rewrite !eqb_refl.
Qed.

(** Without NaN in the saved position, the check fails exactly when the
    position differs. *)
Lemma same_position_false (a b : vec3) :
  no_nan3 b -> (same_position a b = false <-> a <> b).
Proof.
  intros Hb. split.
  - intros Hs Heq. subst. rewrite same_position_refl in Hs by assumption.
    discriminate.
  - intros Hne. destruct (same_position a b) eqn:Hs; [|reflexivity].
    now apply same_position_eq in Hs.
Qed.

(** *** Exceptions other than the position check *)

Lemma avoids_bind {A B : Type} (e : exn) (r : result A) (g : A -> result B) :
  avoids e r -> (forall a, avoids e (g a)) -> avoids e (r ≫= g).
Proof.
  intros Hr Hg. destruct r as [a|e']; cbn; [apply Hg|].
  intros [= ->]. now apply Hr.
Qed.

Lemma py_int_avoids (x : num) : avoids moved_error (py_int x).
Proof. destruct x; discriminate. Qed.

Lemma linspace_avoids (stop : num) (n : Z) :
  avoids moved_error (linspace stop n).
Proof. unfold linspace. destruct (n <? 0)%Z; discriminate. Qed.

Lemma np_min_avoids (xs : list num) : avoids moved_error (np_min xs).
Proof. destruct xs; discriminate. Qed.

Lemma np_max_avoids (xs : list num) : avoids moved_error (np_max xs).
Proof. destruct xs; discriminate. Qed.

Lemma np_vstack_avoids {A : Type} (arrays : list (list A)) :
  avoids moved_error (np_vstack arrays).
Proof. destruct arrays; discriminate. Qed.

Lemma np_argmin_avoids (xs : list num) : avoids moved_error (np_argmin xs).
Proof. destruct xs; discriminate. Qed.

Lemma take_rows_avoids {A : Type} (a : list A) (index : list nat) :
  avoids moved_error (take_rows a index).
Proof.
  induction index as [|i index IH]; cbn; [discriminate|].
  destruct (a !! i); [|discriminate].
  apply avoids_bind; [assumption | discriminate].
Qed.

Lemma select_avoids {A : Type} (a : list A) (index : option (list nat)) :
  avoids moved_error (select a index).
Proof. destruct index; [apply take_rows_avoids | discriminate]. Qed.

Lemma mapM_avoids {A B : Type} (e : exn) (g : A -> result B) (l : list A) :
  (forall a, avoids e (g a)) -> avoids e (mapM g l).
Proof.
  intros Hg. induction l as [|a l IH]; cbn; [discriminate|].
  apply avoids_bind; [apply Hg|]. intros b.
  apply avoids_bind; [assumption | discriminate].
Qed.

Lemma edges_avoids (cam : Camera.t) (step : vec2) :
  avoids moved_error (Camera.edges cam step).
Proof.
  unfold Camera.edges.
  apply avoids_bind; [apply py_int_avoids|]. intros nu.
  apply avoids_bind; [apply py_int_avoids|]. intros nv.
  apply avoids_bind; [apply linspace_avoids|]. intros u.
  apply avoids_bind; [apply linspace_avoids|]. intros v.
  destruct (last u); [|discriminate].
  destruct (length v <? 2)%nat; discriminate.
Qed.

Section WithExternal.
Context `{External}.

Lemma points_init (cam0 : Camera.t) (uv : list vec2) (xyz : list vec3)
    (directions : bool) (correction : option correction_args)
    (pts : Points.t) :
  Points.init cam0 uv xyz directions correction = Return pts ->
  pts = Points.mk uv xyz directions correction (Camera.xyz cam0)
                  (Camera.imgsz cam0).
Proof.
  unfold Points.init. destruct (negb _); [discriminate|]. now intros [= <-].
Qed.

(** [Points.predicted()] raises only through the position check. *)
Lemma points_predicted_cases (pts : Points.t) (cam : Camera.t) :
  Points.predicted pts cam None
  = if Points.directions pts && negb (Points.is_static pts cam)
    then Raise moved_error
    else Return (Camera.project cam (Points.directions pts)
                   (Points.correction pts) (Points.xyz pts)).
Proof. unfold Points.predicted. destruct (_ && _); reflexivity. Qed.

(** [Lines.project()] starts with the position check; what follows raises
    other exceptions only. *)
Lemma lines_project_moved (lines : Lines.t) (cam : Camera.t) :
  Lines.directions lines = true -> Lines.is_static lines cam = false ->
  Lines.project lines cam = Raise moved_error.
Proof. intros Hd Hs. unfold Lines.project. now rewrite Hd, Hs. Qed.

Lemma lines_project_static (lines : Lines.t) (cam : Camera.t) :
  Lines.is_static lines cam = true ->
  avoids moved_error (Lines.project lines cam).
Proof.
  intros Hs. unfold Lines.project. rewrite Hs, andb_false_r.
  apply avoids_bind; [apply edges_avoids|]. intros uv_edges.
  apply avoids_bind; [apply np_min_avoids|]. intros xmin.
  apply avoids_bind; [apply np_min_avoids|]. intros ymin.
  apply avoids_bind; [apply np_max_avoids|]. intros xmax.
  apply avoids_bind; [apply np_max_avoids|]. intros ymax.
  cbv zeta. destruct (concat _); discriminate.
Qed.

Lemma lines_predicted_moved (lines : Lines.t) (cam : Camera.t)
    (index : option (list nat)) :
  Lines.directions lines = true -> Lines.is_static lines cam = false ->
  Lines.predicted lines cam index = Raise moved_error.
Proof.
  intros Hd Hs. unfold Lines.predicted.
  now rewrite lines_project_moved.
Qed.

Lemma lines_predicted_static (lines : Lines.t) (cam : Camera.t)
    (index : option (list nat)) :
  Lines.is_static lines cam = true ->
  avoids moved_error (Lines.predicted lines cam index).
Proof.
  intros Hs. unfold Lines.predicted.
  apply avoids_bind; [now apply lines_project_static|]. intros arrays.
  apply avoids_bind; [apply np_vstack_avoids|]. intros puv.
  apply avoids_bind; [apply select_avoids|]. intros uv.
  apply avoids_bind; [|intros; apply take_rows_avoids].
  destruct puv; [discriminate|]. apply mapM_avoids, np_argmin_avoids.
Qed.

Lemma lines_init (cam0 : Camera.t) (uvs : list (list vec2))
    (xyzs : list (list vec3)) (directions : bool)
    (correction : option correction_args) (step : option num)
    (lines : Lines.t) :
  Lines.init cam0 uvs xyzs directions correction step = Return lines ->
  Lines.directions lines = directions
  /\ Lines.cam_xyz lines = Camera.xyz cam0.
Proof.
  unfold Lines.init.
  match goal with |- context [mbind _ ?r] => destruct r as [uvi|e] end;
    [|discriminate].
  cbn. now intros [= <-].
Qed.

(** C7 (as amended): for a correspondence constructed with
    [directions=True] from a camera whose position holds no NaN,
    [predicted()] raises the position error if and only if the camera's
    [xyz] differs from its value at construction. While the position is
    unchanged, [Points.predicted()] returns the projection of its points
    and raises nothing, and [Lines.predicted()] does not raise the position
    error (it can still raise another one). *)
Theorem predicted_raises_iff_moved (cam0 cam : Camera.t) :
  no_nan3 (Camera.xyz cam0) ->
  (forall uv xyz correction pts,
      Points.init cam0 uv xyz true correction = Return pts ->
      ((exists e, Points.predicted pts cam None = Raise e)
       <-> Camera.xyz cam <> Camera.xyz cam0)
      /\ (Camera.xyz cam <> Camera.xyz cam0 ->
          Points.predicted pts cam None = Raise moved_error)
      /\ (Camera.xyz cam = Camera.xyz cam0 ->
          Points.predicted pts cam None
          = Return (Camera.project cam true correction xyz)))
  /\ (forall uvs xyzs correction step lines,
      Lines.init cam0 uvs xyzs true correction step = Return lines ->
      (Lines.predicted lines cam None = Raise moved_error
       <-> Camera.xyz cam <> Camera.xyz cam0)
      /\ (Camera.xyz cam = Camera.xyz cam0 ->
          avoids moved_error (Lines.predicted lines cam None))).
Proof.
  intros Hnan. split.
  - intros uv xyz correction pts Hinit.
    apply points_init in Hinit. subst pts.
    rewrite points_predicted_cases. unfold Points.is_static.
    cbn [Points.directions Points.cam_xyz Points.correction Points.xyz andb].
    pose proof (same_position_false (Camera.xyz cam) (Camera.xyz cam0) Hnan)
      as Hiff.
    destruct (same_position (Camera.xyz cam) (Camera.xyz cam0)) eqn:Hs;
      cbn [negb].
    + apply same_position_eq in Hs. split; [split|split].
      * intros [e He]. discriminate He.
      * intros Hne. contradiction.
      * intros Hne. contradiction.
      * reflexivity.
    + assert (Hne : Camera.xyz cam <> Camera.xyz cam0)
        by now apply Hiff.
      split; [split|split].
      * intros _. exact Hne.
      * intros _. eauto.
      * reflexivity.
      * intros Heq. contradiction.
  - intros uvs xyzs correction step lines Hinit.
    apply lines_init in Hinit as [Hd Hxyz].
    pose proof (same_position_false (Camera.xyz cam) (Camera.xyz cam0) Hnan)
      as Hiff.
    assert (Hstatic : Lines.is_static lines cam
                      = same_position (Camera.xyz cam) (Camera.xyz cam0))
      by (unfold Lines.is_static; now rewrite Hxyz).
    destruct (same_position (Camera.xyz cam) (Camera.xyz cam0)) eqn:Hs.
    + pose proof (lines_predicted_static lines cam None Hstatic) as Hav.
      apply same_position_eq in Hs. split; [split|].
      * intros Hr. contradiction.
      * intros Hne. contradiction.
      * intros _. exact Hav.
    + assert (Hne : Camera.xyz cam <> Camera.xyz cam0) by now apply Hiff.
      split; [split|].
      * intros _. exact Hne.
      * intros _. now apply lines_predicted_moved.
      * intros Heq. contradiction.
Qed.

End WithExternal.

(** Image lines without any world line, on a camera that has not moved
    since construction: [Lines.predicted()] raises, from [np.row_stack]. *)
Lemma lines_predicted_unmoved_raises :
  Lines.init (H := Sample.external) Camera.defaults
    [[(of_Z 50, of_Z 50)]] [] true None None
  = Return Sample.lines_empty
  /\ Camera.xyz Camera.defaults = Lines.cam_xyz Sample.lines_empty
  /\ Lines.predicted Sample.lines_empty Camera.defaults None
     = Raise (ValueError "need at least one array to concatenate")
  /\ ~ (forall cam : Camera.t,
          Camera.xyz cam = Lines.cam_xyz Sample.lines_empty ->
          exists uv, Lines.predicted Sample.lines_empty cam None = Return uv).
Proof.
  assert (Hraise :
    Lines.predicted Sample.lines_empty Camera.defaults None
    = Raise (ValueError "need at least one array to concatenate"))
    by (vm_compute; reflexivity).
  repeat split; try reflexivity; try exact Hraise.
  intros Hall. destruct (Hall Camera.defaults eq_refl) as [uv Huv].
  rewrite Hraise in Huv. discriminate Huv.
Qed.

Lemma predicted_raises_iff_moved_witness :
  Points.predicted Sample.points_north Camera.defaults None
  = Return (Camera.project (H := Sample.external) Camera.defaults true None
              [(zero, of_Z 10, zero)])
  /\ Points.predicted Sample.points_north Sample.camera_east None
     = Raise moved_error.
Proof.
  split.
  - apply (proj1 (predicted_raises_iff_moved (H := Sample.external)
                    Camera.defaults Camera.defaults
                    (conj eq_refl (conj eq_refl eq_refl)))
             [(of_Z 50, of_Z 50)] [(zero, of_Z 10, zero)] None
             Sample.points_north eq_refl).
    reflexivity.
  - apply (proj1 (predicted_raises_iff_moved (H := Sample.external)
                    Camera.defaults Sample.camera_east
                    (conj eq_refl (conj eq_refl eq_refl)))
             [(of_Z 50, of_Z 50)] [(zero, of_Z 10, zero)] None
             Sample.points_north eq_refl).
    vm_compute. intros Heq. discriminate Heq.
Defined.

End ControlFacts.

(** ** RANSAC *)
Module RansacFacts.
Import NumFacts Ransac.

Lemma ltb_trans (x y z : num) :
  ltb x y = true -> ltb y z = true -> ltb x z = true.
Proof.
  destruct x as [a| | |], y as [b| | |], z as [c| | |]; cbn;
    try discriminate; try reflexivity.
  destruct (Qccompare a b) eqn:Hab; try discriminate.
  destruct (Qccompare b c) eqn:Hbc; try discriminate.
  intros _ _. pose proof (Qclt_trans a b c Hab Hbc) as Hac.
  unfold Qclt, Qlt in Hac. unfold Qccompare, Qcompare.
  apply Z.compare_lt_iff in Hac. now rewrite Hac.
Qed.

Section Algorithm.
Context {P : Type}.
Variable shuffle : nat -> list nat -> list nat.
Variable m : model P.
Variables (sample_size : nat) (max_error : num) (min_inliers iterations : nat).

Abbreviation body := (body shuffle m sample_size max_error min_inliers).
Abbreviation loop :=
  (loop shuffle m sample_size max_error min_inliers iterations).
Abbreviation ransac :=
  (ransac shuffle m sample_size max_error min_inliers iterations).
Abbreviation after := (after shuffle m sample_size max_error min_inliers).
Abbreviation accepts := (accepts shuffle m sample_size max_error min_inliers).
Abbreviation candidate := (candidate m max_error min_inliers).

Lemma body_params (st st' : state) :
  body st = Return st' ->
  params st' = match accepts st with
               | Some best => Some best.1.1
               | None => params st
               end.
Proof.
  unfold Ransac.body, Ransac.accepts.
  destruct (ransac_sample _ _ _ _) as [sample|e]; [|discriminate].
  cbn. intros [= <-].
  destruct (candidate st sample.1 sample.2) as [|[[[bp be] bi]|]]; reflexivity.
Qed.

Lemma body_draws (st st' : state) :
  body st = Return st' -> draws st' = S (draws st).
Proof.
  unfold Ransac.body.
  destruct (ransac_sample _ _ _ _) as [sample|e]; [|discriminate].
  cbn. intros [= <-].
  destruct (candidate st sample.1 sample.2) as [|[[[bp be] bi]|]]; reflexivity.
Qed.

(** A pass leaves the counter alone or adds one to it. *)
Lemma body_counter (st st' : state) :
  body st = Return st' -> i st' = i st \/ i st' = S (i st).
Proof.
  unfold Ransac.body.
  destruct (ransac_sample _ _ _ _) as [sample|e]; [|discriminate].
  cbn. intros [= <-].
  destruct (candidate st sample.1 sample.2) as [|[[[bp be] bi]|]]; auto.
Qed.

Lemma after_S (n : nat) (st : state) :
  after (S n) st = st' ← after n st; body st'.
Proof.
  revert st. induction n as [|n IH]; intros st.
  - cbn. destruct (body st); reflexivity.
  - change (after (S (S n)) st) with (body st ≫= after (S n)).
    change (after (S n) st) with (body st ≫= after n).
    destruct (body st) as [st1|e]; [|reflexivity].
    unfold mbind at 1 3; unfold result_bind at 1 3. apply IH.
Qed.

Lemma loop_unfold (fuel : nat) (st : state) :
  loop fuel st
  = if (i st <? iterations)%nat then
      match fuel with
      | O => None
      | S fuel' =>
          match body st with
          | Return st' => loop fuel' st'
          | Raise e => Some (Raise e)
          end
      end
    else Some (Return st).
Proof. destruct fuel; reflexivity. Qed.

(** A loop that ends normally has run some number [n] of passes. *)
Lemma loop_after (fuel : nat) (st st' : state) :
  loop fuel st = Some (Return st') ->
  exists n, (n <= fuel)%nat /\ after n st = Return st'
            /\ (iterations <= i st')%nat.
Proof.
  revert st. induction fuel as [|fuel IH]; intros st; rewrite loop_unfold.
  - destruct (i st <? iterations)%nat eqn:Hi; [discriminate|].
    intros [= <-]. exists 0%nat. apply Nat.ltb_ge in Hi. auto.
  - destruct (i st <? iterations)%nat eqn:Hi.
    + destruct (body st) as [st1|e] eqn:Hb; [|discriminate].
      intros Hl. destruct (IH _ Hl) as (n & Hn & Ha & Hdone).
      exists (S n). split; [lia|]. split; [|assumption].
      cbn. now rewrite Hb.
    + intros [= <-]. exists 0%nat. apply Nat.ltb_ge in Hi.
      split; [lia|]. auto.
Qed.

(** A loop that ends with an exception never accepted a candidate. *)
Lemma body_raise_sample (st : state) (e : exn) :
  body st = Raise e ->
  ransac_sample shuffle (draws st) sample_size (data_size m) = Raise e.
Proof.
  unfold Ransac.body. destruct (ransac_sample _ _ _ _); [discriminate|].
  now intros [= <-].
Qed.

Lemma sample_independent (n n' : nat) (e : exn) :
  ransac_sample shuffle n sample_size (data_size m) = Raise e ->
  ransac_sample shuffle n' sample_size (data_size m) = Raise e.
Proof.
  unfold ransac_sample. destruct (data_size m <=? sample_size)%nat; [auto|discriminate].
Qed.

(** The parameters held after [n] passes: those of the last accepting
    pass, none when no pass accepted. *)
Lemma after_params (n : nat) (st0 st : state) :
  after n st0 = Return st ->
  (params st = params st0
   /\ forall k stk, (k < n)%nat -> after k st0 = Return stk -> accepts stk = None)
  \/ (exists k stk best,
        (k < n)%nat /\ after k st0 = Return stk /\ accepts stk = Some best
        /\ params st = Some best.1.1
        /\ forall k' stk', (k < k' < n)%nat -> after k' st0 = Return stk' ->
                           accepts stk' = None).
Proof.
  revert st. induction n as [|n IH]; intros st.
  - cbn. intros [= <-]. left. split; [reflexivity|]. intros; lia.
  - rewrite after_S. destruct (after n st0) as [stn|e] eqn:Hn; [|discriminate].
    cbn. intros Hb. pose proof (body_params _ _ Hb) as Hp.
    destruct (accepts stn) as [best|] eqn:Hacc.
    + right. exists n, stn, best. repeat split; auto. intros; lia.
    + destruct (IH stn eq_refl) as [[Heq Hnone] | (k & stk & best & Hk & Hak & Hbest & Hpar & Hlater)].
      * left. split; [congruence|]. intros k stk Hk Hak.
        destruct (decide (k = n)) as [-> | Hne].
        -- rewrite Hn in Hak. injection Hak as <-. assumption.
        -- apply (Hnone k); [lia | assumption].
      * right. exists k, stk, best. repeat split; auto; [congruence|].
        intros k' stk' Hk' Hak'.
        destruct (decide (k' = n)) as [-> | Hne].
        -- rewrite Hn in Hak'. injection Hak' as <-. assumption.
        -- apply (Hlater k'); [lia | assumption].
Qed.

Lemma loop_raise (fuel : nat) (st : state) (e : exn) :
  loop fuel st = Some (Raise e) ->
  ransac_sample shuffle 0 sample_size (data_size m) = Raise e.
Proof.
  revert st. induction fuel as [|fuel IH]; intros st; rewrite loop_unfold;
    destruct (i st <? iterations)%nat; try discriminate.
  destruct (body st) as [st1|e'] eqn:Hb.
  - apply IH.
  - intros [= <-]. apply body_raise_sample in Hb.
    now apply (sample_independent (draws st)).
Qed.

Lemma after_0_accepts (e : exn) (st : state) :
  ransac_sample shuffle 0 sample_size (data_size m) = Raise e ->
  accepts st = None.
Proof.
  intros He. unfold Ransac.accepts.
  now rewrite (sample_independent 0 (draws st) e He).
Qed.


(** An accepted candidate improves on the error held so far, which it
    replaces. *)
Lemma accepts_improves (st : state) (b : P * num * list nat) :
  accepts st = Some b -> ltb b.1.2 (err st) = true.
Proof.
  unfold Ransac.accepts.
  destruct (ransac_sample _ _ _ _) as [sample|]; [|discriminate].
  unfold Ransac.candidate.
  destruct (fit m sample.1); [|discriminate].
  destruct (min_inliers <? _)%nat; [|discriminate].
  destruct (fit m _); [|discriminate].
  destruct (ltb _ (err st)) eqn:Hlt; [|discriminate].
  intros [= <-]. exact Hlt.
Qed.

Lemma body_err (st st' : state) :
  body st = Return st' ->
  err st' = match accepts st with
            | Some best => best.1.2
            | None => err st
            end.
Proof.
  unfold Ransac.body, Ransac.accepts.
  destruct (ransac_sample _ _ _ _) as [sample|e]; [|discriminate].
  cbn. intros [= <-].
  destruct (candidate st sample.1 sample.2) as [|[[[bp be] bi]|]]; reflexivity.
Qed.

(** The error held after [n] passes is at most that of every candidate
    accepted so far. *)
Lemma after_err (n : nat) (st0 st : state) :
  after n st0 = Return st ->
  forall k stk b,
    (k < n)%nat -> after k st0 = Return stk -> accepts stk = Some b ->
    err st = b.1.2 \/ ltb (err st) b.1.2 = true.
Proof.
  revert st. induction n as [|n IH]; intros st.
  - intros _ k stk b Hk. lia.
  - rewrite after_S. destruct (after n st0) as [stn|e] eqn:Hn; [|discriminate].
    cbn. intros Hb k stk b Hk Hak Hacc.
    pose proof (body_err _ _ Hb) as He.
    destruct (decide (k = n)) as [-> | Hne].
    + rewrite Hn in Hak. injection Hak as <-. rewrite Hacc in He. now left.
    + assert (Hold : err stn = b.1.2 \/ ltb (err stn) b.1.2 = true)
        by (apply (IH stn eq_refl k stk b); [lia | assumption | assumption]).
      destruct (accepts stn) as [bn|] eqn:Haccn.
      * right. rewrite He. apply accepts_improves in Haccn.
        destruct Hold as [<- | Hlt]; [assumption|].
        now apply (ltb_trans _ (err stn)).
      * now rewrite He.
Qed.


(** With a model whose [fit] always yields parameters, every pass counts
    and the loop ends after [iterations] passes. *)
Lemma loop_terminates (fuel : nat) (st : state) :
  (forall index, fit m index <> None) ->
  (iterations - i st <= fuel)%nat ->
  loop fuel st <> None.
Proof.
  intros Hfit. revert st. induction fuel as [|fuel IH]; intros st Hfuel;
    rewrite loop_unfold; destruct (i st <? iterations)%nat eqn:Hi;
    try discriminate.
  - apply Nat.ltb_lt in Hi. lia.
  - destruct (body st) as [st1|e] eqn:Hb; [|discriminate].
    apply IH. apply Nat.ltb_lt in Hi.
    assert (Hinc : i st1 = S (i st)); [|lia].
    revert Hb. unfold Ransac.body.
    destruct (ransac_sample _ _ _ _) as [sample|]; [|discriminate].
    cbn. intros [= <-]. unfold Ransac.candidate.
    destruct (fit m sample.1) as [mp|] eqn:Hf1; [|now apply Hfit in Hf1].
    destruct (min_inliers <? _)%nat; [|reflexivity].
    match goal with
    | |- context [fit m (?a ++ ?b)] =>
        destruct (fit m (a ++ b)) as [bp|] eqn:Hf2; [|now apply Hfit in Hf2]
    end.
    destruct (ltb _ _); reflexivity.
Qed.

Lemma ransac_terminates :
  (forall index, fit m index <> None) -> ransac iterations <> None.
Proof.
  intros Hfit. unfold Ransac.ransac.
  pose proof (loop_terminates iterations initial Hfit) as Hl.
  destruct (loop iterations initial) as [[st|e]|]; try discriminate.
  exfalso. apply Hl; [cbn; lia | reflexivity].
Qed.

(** With a model whose [fit] never yields parameters, no pass counts. *)
Lemma loop_diverges (fuel : nat) (st : state) :
  (forall index, fit m index = None) ->
  (sample_size < data_size m)%nat ->
  (i st < iterations)%nat ->
  loop fuel st = None.
Proof.
  intros Hfit Hsize. revert st. induction fuel as [|fuel IH]; intros st Hi;
    rewrite loop_unfold; pose proof Hi as Hi'; apply Nat.ltb_lt in Hi';
    rewrite Hi'; [reflexivity|].
  unfold Ransac.body, ransac_sample.
  assert (Hle : (data_size m <=? sample_size)%nat = false)
    by (apply Nat.leb_gt; lia).
  rewrite Hle. cbn. unfold Ransac.candidate. rewrite Hfit. apply IH. exact Hi.
Qed.

(** What [ransac] raises or returns. With a model whose [fit] always
    yields parameters, a call ends within [iterations] passes through its
    loop. A call that ends has made some number [n] of passes. If none of
    them accepted a candidate, the call raises an error and returns
    nothing. If some pass accepted one, the call returns the parameters of
    the last accepted candidate, whose mean error is below that of every
    other accepted candidate, together with the inliers recomputed from
    those parameters over the whole data set. *)
Lemma ransac_outcome :
  ((forall index, fit m index <> None) ->
   exists r, ransac iterations = Some r)
  /\ forall (fuel : nat) (r : result (P * list nat)),
  ransac fuel = Some r ->
  exists n,
    (n <= fuel)%nat
    /\ (forall st, loop fuel initial = Some (Return st) ->
                   after n initial = Return st /\ (iterations <= i st)%nat)
    /\ ((forall k stk, (k < n)%nat -> after k initial = Return stk ->
                       accepts stk = None) ->
        exists e, r = Raise e)
    /\ (forall k stk b,
          (k < n)%nat -> after k initial = Return stk ->
          accepts stk = Some b ->
          exists kb stb best,
            (kb < n)%nat /\ after kb initial = Return stb
            /\ accepts stb = Some best
            /\ r = Return (best.1.1, final_inliers m max_error best.1.1)
            /\ forall k' st' b',
                 (k' < n)%nat -> k' <> kb ->
                 after k' initial = Return st' -> accepts st' = Some b' ->
                 ltb best.1.2 b'.1.2 = true).
Proof.
  split.
  { intros Hfit. pose proof (ransac_terminates Hfit) as Hend.
    destruct (ransac iterations) as [r|]; [eauto | contradiction]. }
  intros fuel r.
  unfold Ransac.ransac.
  destruct (loop fuel initial) as [[st|e]|] eqn:Hl; [| |discriminate].
  - intros [= <-]. destruct (loop_after _ _ _ Hl) as (n & Hn & Ha & Hdone).
    exists n. split; [assumption|]. split; [|split].
    + intros st' [= <-]. split; assumption.
    + intros Hnone.
      destruct (after_params n initial st Ha)
        as [[Heq _] | (k & stk & best & Hk & Hak & Hbest & _)].
      * unfold finish. rewrite Heq. cbn. eauto.
      * rewrite (Hnone k stk Hk Hak) in Hbest. discriminate Hbest.
    + intros k stk b Hk Hak Hacc.
      destruct (after_params n initial st Ha)
        as [[_ Hnone] | (kb & stb & best & Hkb & Hakb & Hbest & Hpar & Hlater)].
      * rewrite (Hnone k stk Hk Hak) in Hacc. discriminate Hacc.
      * exists kb, stb, best. split; [assumption|]. split; [assumption|].
        split; [assumption|]. split; [unfold finish; now rewrite Hpar|].
        intros k' st' b' Hk' Hne Hak' Hacc'.
        destruct (decide (k' < kb)%nat) as [Hlt | Hge].
        -- pose proof (accepts_improves _ _ Hbest) as Himp.
           destruct (after_err kb initial stb Hakb k' st' b' Hlt Hak' Hacc')
             as [<- | Hlt']; [assumption|].
           now apply (ltb_trans _ (err stb)).
        -- rewrite (Hlater k' st') in Hacc'; [discriminate Hacc' | lia |].
           assumption.
  - intros [= <-]. exists 0%nat. split; [lia|]. split; [|split].
    + intros st. discriminate.
    + intros _. eauto.
    + intros k stk b Hk. lia.
Qed.

End Algorithm.

(** C2: [ransac] does not end on a model whose [fit] returns [None]
    whatever the sample: with two data points, [sample_size = 1],
    [max_error = 1], [min_inliers = 0] and [iterations = 1], every pass
    takes the [continue] that skips [i += 1], so that no number of passes
    exhausts the budget of one iteration. *)
Theorem ransac_never_fits_diverges (shuffle : nat -> list nat -> list nat)
    (fuel : nat) :
  Ransac.ransac shuffle Sample.never_fits 1 one 0 1 fuel = None.
Proof.
  unfold Ransac.ransac. rewrite loop_diverges; [reflexivity | reflexivity | |].
  - cbn. lia.
  - cbn. lia.
Qed.

(** C3: on the model whose [fit] returns [None] whatever the sample, with
    [sample_size = 1], [max_error = 1], [min_inliers = 0] and
    [iterations = 1], no pass of [ransac] accepts a candidate, and yet no
    number of passes makes the call raise an error: the error that follows
    the loop is never reached. *)
Theorem ransac_never_fits_no_error (shuffle : nat -> list nat -> list nat)
    (fuel : nat) :
  (forall st : Ransac.state,
      Ransac.accepts shuffle Sample.never_fits 1 one 0 st = None)
  /\ forall e,
       Ransac.ransac shuffle Sample.never_fits 1 one 0 1 fuel
       <> Some (Raise e).
Proof.
  split.
  - intros st. reflexivity.
  - intros e. unfold Ransac.ransac.
    rewrite loop_diverges; [discriminate | reflexivity | |].
    + cbn. lia.
    + cbn. lia.
Qed.

(** The model that counts its sample, with two iterations: the first
    pass is accepted, the second is not. *)
Lemma ransac_outcome_counts_sample :
  (exists r,
     Ransac.ransac Sample.identity_shuffle Sample.counts_sample 1 one 0 2 2
     = Some r)
  /\ exists n,
    (n <= 2)%nat
    /\ (forall k stk b,
          (k < n)%nat ->
          Ransac.after Sample.identity_shuffle Sample.counts_sample 1 one 0
            k Ransac.initial = Return stk ->
          Ransac.accepts Sample.identity_shuffle Sample.counts_sample 1 one 0
            stk = Some b ->
          exists best : nat * num * list nat,
            Return (4%nat, [0; 1; 2; 3]%nat)
            = Return (best.1.1,
                      final_inliers Sample.counts_sample one best.1.1)).
Proof.
  split.
  - apply (proj1 (ransac_outcome Sample.identity_shuffle
                    Sample.counts_sample 1 one 0 2)).
    intros index. discriminate.
  - destruct (proj2 (ransac_outcome Sample.identity_shuffle
                       Sample.counts_sample 1 one 0 2) 2
                (Return (4%nat, [0; 1; 2; 3]%nat)) eq_refl)
      as (n & Hn & _ & _ & Hbest).
    exists n. split; [exact Hn|]. intros k stk b Hk Hak Hacc.
    destruct (Hbest k stk b Hk Hak Hacc)
      as (kb & stb & best & _ & _ & _ & Hr & _).
    exists best. exact Hr.
Defined.

End RansacFacts.

(** ** Bundle adjustment: the sparsity pattern *)
Module SparsityFacts.
Import Cameras.

Lemma entry_set_block (r0 r1 c0 c1 : nat) (M : list (list Z)) (r col : nat) :
  entry (set_block r0 r1 c0 c1 M) r col
  = match M !! r ≫= (λ row : list Z, row !! col) with
    | Some x =>
        if (r0 <=? r)%nat && (r <? r1)%nat && ((c0 <=? col)%nat && (col <? c1)%nat)
        then 1%Z else x
    | None => 0%Z
    end.
Proof.
  unfold entry, set_block. rewrite list_lookup_imap.
  destruct (M !! r) as [row|]; [|reflexivity].
  cbn [fmap option_fmap option_map mbind option_bind].
  destruct ((r0 <=? r)%nat && (r <? r1)%nat); cbn [andb].
  - rewrite list_lookup_imap. destruct (row !! col); reflexivity.
  - destruct (row !! col); reflexivity.
Qed.

(** An assignment changes an entry only inside its block, and then to 1. *)
Lemma set_block_cases (r0 r1 c0 c1 : nat) (M : list (list Z)) (r col : nat) :
  entry (set_block r0 r1 c0 c1 M) r col = entry M r col
  \/ (entry (set_block r0 r1 c0 c1 M) r col = 1%Z
      /\ (r0 <= r < r1)%nat /\ (c0 <= col < c1)%nat).
Proof.
  rewrite entry_set_block. unfold entry.
  destruct (M !! r ≫= (λ row : list Z, row !! col)) as [x|]; [|now left].
  destruct (r0 <=? r)%nat eqn:H1, (r <? r1)%nat eqn:H2,
           (c0 <=? col)%nat eqn:H3, (col <? c1)%nat eqn:H4; cbn; auto.
  right. apply Nat.leb_le in H1, H3. apply Nat.ltb_lt in H2, H4.
  split; [reflexivity | lia].
Qed.

Lemma cumsum_lookup (a : nat) (xs : list nat) (i : nat) :
  (i <= length xs)%nat ->
  cumsum_from a xs !! i = Some (a + sum_list (take i xs)).
Proof.
  revert a i. induction xs as [|x xs IH]; intros a i Hi.
  - cbn in Hi. assert (i = 0%nat) as -> by lia. cbn. f_equal. lia.
  - destruct i as [|i]; cbn.
    + f_equal. lia.
    + rewrite IH by (cbn in Hi; lia). f_equal. lia.
Qed.

Lemma cumsum_length (a : nat) (xs : list nat) :
  length (cumsum_from a xs) = S (length xs).
Proof. revert a. induction xs as [|x xs IH]; intros a; cbn; [|rewrite IH]; reflexivity. Qed.

Lemma cumsum_lookup_inv (a : nat) (xs : list nat) (i e : nat) :
  cumsum_from a xs !! i = Some e ->
  (i <= length xs)%nat /\ e = a + sum_list (take i xs).
Proof.
  intros He. assert (Hi : (i <= length xs)%nat).
  { apply lookup_lt_Some in He. rewrite cumsum_length in He. lia. }
  split; [assumption|]. rewrite cumsum_lookup in He by assumption. congruence.
Qed.

Lemma sum_take_mono (xs : list nat) (i i' : nat) :
  (i <= i')%nat -> sum_list (take i xs) <= sum_list (take i' xs).
Proof.
  revert i i'. induction xs as [|x xs IH]; intros i i' Hi.
  - now rewrite !take_nil.
  - destruct i as [|i], i' as [|i']; cbn; try lia.
    specialize (IH i i' ltac:(lia)). lia.
Qed.

(** Two half-open ranges of a cumulative sum that share a point are the
    same range. *)
Lemma cumsum_disjoint (a : nat) (xs : list nat) (i i' r0 r1 r0' r1' r : nat) :
  cumsum_from a xs !! i = Some r0 -> cumsum_from a xs !! (i + 1) = Some r1 ->
  cumsum_from a xs !! i' = Some r0' -> cumsum_from a xs !! (i' + 1) = Some r1' ->
  (r0 <= r < r1)%nat -> (r0' <= r < r1')%nat -> i = i'.
Proof.
  intros H0 H1 H0' H1' Hr Hr'.
  apply cumsum_lookup_inv in H0 as [_ ->], H1 as [_ ->], H0' as [_ ->],
    H1' as [_ ->].
  destruct (Nat.lt_trichotomy i i') as [Hlt | [Heq | Hgt]]; [|assumption|].
  - pose proof (sum_take_mono xs (i + 1) i' ltac:(lia)). lia.
  - pose proof (sum_take_mono xs (i' + 1) i ltac:(lia)). lia.
Qed.

Lemma index_of_lookup (x : nat) (l : list nat) (j : nat) :
  index_of x l = Some j -> l !! j = Some x.
Proof.
  revert j. induction l as [|y l IH]; intros j; cbn; [discriminate|].
  destruct (decide (x = y)) as [-> | Hne].
  - now intros [= <-].
  - destruct (index_of x l) as [j'|]; [|discriminate].
    cbn. intros [= <-]. cbn. now apply IH.
Qed.

Lemma index_of_elem (x : nat) (l : list nat) :
  x ∈ l -> is_Some (index_of x l).
Proof.
  induction l as [|y l IH]; [intros Hx; inversion Hx|].
  intros Hx. cbn. destruct (decide (x = y)); [eauto|].
  apply elem_of_cons in Hx as [Hx | Hx]; [contradiction|].
  destruct (IH Hx) as [j ->]. cbn. eauto.
Qed.

Section Marks.
Variables (cams : list nat) (cam_ends ctrl_ends : list nat).

Lemma at_index_Return {A : Type} (a : list A) (i : nat) (x : A) :
  at_index a i = Return x -> a !! i = Some x.
Proof. unfold at_index. destruct (a !! i); [now intros [= <-] | discriminate]. Qed.

Lemma mark_cameras_cases (i : nat) (cc : list nat) (M M' : list (list Z)) :
  mark_cameras cams cam_ends ctrl_ends i cc M = Return M' ->
  forall r col,
    entry M' r col = entry M r col
    \/ (entry M' r col = 1%Z /\ marked cams cam_ends ctrl_ends i cc r col).
Proof.
  revert M. induction cc as [|cam cc IH]; intros M; cbn.
  - intros [= <-] r col. now left.
  - destruct (index_of cam cams) as [j|] eqn:Hj; cbn.
    + destruct (at_index ctrl_ends i) as [r0|] eqn:Hr0; [|discriminate]. cbn.
      destruct (at_index ctrl_ends (i + 1)) as [r1|] eqn:Hr1; [|discriminate]. cbn.
      destruct (at_index cam_ends j) as [c0|] eqn:Hc0; [|discriminate]. cbn.
      destruct (at_index cam_ends (j + 1)) as [c1|] eqn:Hc1; [|discriminate]. cbn.
      intros HM' r col.
      apply at_index_Return in Hr0, Hr1, Hc0, Hc1.
      assert (Hhere : marked cams cam_ends ctrl_ends i (cam :: cc) r col \/ True) by now right.
      destruct (IH _ HM' r col) as [Heq | [H1 (cam' & j' & Hm)]].
      * rewrite Heq.
        destruct (set_block_cases r0 r1 c0 c1 M r col) as [Hs | (Hs & Hr & Hc)];
          [now left|].
        right. split; [assumption|].
        exists cam, j, r0, r1, c0, c1. repeat split; try assumption; try lia.
        apply elem_of_cons. now left.
      * right. split; [assumption|].
        destruct Hm as (r0' & r1' & c0' & c1' & Hin & Hrest).
        exists cam', j', r0', r1', c0', c1'. split; [|assumption].
        apply elem_of_cons. now right.
    + intros HM' r col.
      destruct (IH _ HM' r col) as [Heq | [H1 (cam' & j' & r0' & r1' & c0' & c1' & Hin & Hrest)]];
        [now left|].
      right. split; [assumption|].
      exists cam', j', r0', r1', c0', c1'. split; [|assumption].
      apply elem_of_cons. now right.
Qed.

Lemma mark_controls_cases (i : nat) (ctls : list control) (M M' : list (list Z)) :
  mark_controls cams cam_ends ctrl_ends i ctls M = Return M' ->
  forall r col,
    entry M' r col = entry M r col
    \/ (entry M' r col = 1%Z
        /\ exists k ctl, ctls !! k = Some ctl
                         /\ marked cams cam_ends ctrl_ends (i + k) (ctrl_cams ctl) r col).
Proof.
  revert i M. induction ctls as [|ctl ctls IH]; intros i M; cbn.
  - intros [= <-] r col. now left.
  - destruct (mark_cameras cams cam_ends ctrl_ends i (ctrl_cams ctl) M)
      as [M1|] eqn:HM1; [|discriminate]. cbn.
    intros HM' r col.
    destruct (IH _ _ HM' r col) as [Heq | [H1 (k & ctl' & Hk & Hm)]].
    + rewrite Heq.
      destruct (mark_cameras_cases _ _ _ _ HM1 r col) as [Heq1 | [H1 Hm]];
        [now left|].
      right. split; [assumption|]. exists 0%nat, ctl. split; [reflexivity|].
      now rewrite Nat.add_0_r.
    + right. split; [assumption|]. exists (S k), ctl'. split; [assumption|].
      now replace (i + S k)%nat with (i + 1 + k)%nat by lia.
Qed.

End Marks.

Lemma entry_zeros (m n r col : nat) :
  entry (replicate m (replicate n 0%Z)) r col = 0%Z.
Proof.
  unfold entry. destruct (replicate m (replicate n 0%Z) !! r) as [row|] eqn:Hr;
    [|reflexivity].
  apply lookup_replicate in Hr as [-> _]. cbn.
  destruct (replicate n 0%Z !! col) as [x|] eqn:Hc; [|reflexivity].
  now apply lookup_replicate in Hc as [-> _].
Qed.

Lemma entry_zeros_inside (m n r col : nat) :
  (r < m)%nat -> (col < n)%nat ->
  replicate m (replicate n 0%Z) !! r ≫= (λ row : list Z, row !! col) = Some 0%Z.
Proof.
  intros Hr Hc. rewrite lookup_replicate_2 by assumption. cbn.
  now rewrite lookup_replicate_2.
Qed.

Section Pattern.
Variables (cams : list nat) (cam_masks : list (list bool))
          (group_mask : list bool) (controls : list control).

Abbreviation width := (count_nonzero group_mask).
Abbreviation col_ends :=
  (cumsum_from (count_nonzero group_mask) (map count_nonzero cam_masks)).
Abbreviation row_ends :=
  (cumsum_from 0 (map (fun ctl => 2 * ctrl_size ctl) controls)).
Abbreviation rows :=
  (sum_list (map (fun ctl => 2 * ctrl_size ctl) controls)).

Lemma build_sparsity_shared (M : list (list Z)) (r col : nat) :
  build_sparsity_of cams cam_masks group_mask controls = Return M ->
  (r < rows)%nat -> (col < width)%nat -> entry M r col = 1%Z.
Proof.
  unfold build_sparsity_of, _initialize_sparse_jacobian.
  rewrite length_replicate.
  intros HM Hr Hc.
  destruct (mark_controls_cases _ _ _ _ _ _ _ HM r col) as [-> | [H1 _]];
    [|assumption].
  rewrite entry_set_block, entry_zeros_inside by lia.
  assert (H0 : (0 <=? r)%nat = true) by now apply Nat.leb_le; lia.
  assert (H1 : (r <? rows)%nat = true) by now apply Nat.ltb_lt.
  assert (H2 : (0 <=? col)%nat = true) by (apply Nat.leb_le; lia).
  assert (H3 : (col <? width)%nat = true) by now apply Nat.ltb_lt.
  now rewrite H0, H1, H2, H3.
Qed.

Lemma build_sparsity_private (M : list (list Z))
    (i j c r0 r1 c0 c1 r col : nat) (ctl : control) :
  build_sparsity_of cams cam_masks group_mask controls = Return M ->
  NoDup cams ->
  controls !! i = Some ctl -> cams !! j = Some c ->
  (forall x, x ∈ ctrl_cams ctl -> x = c) ->
  row_ends !! i = Some r0 -> row_ends !! (i + 1) = Some r1 ->
  col_ends !! j = Some c0 -> col_ends !! (j + 1) = Some c1 ->
  (r0 <= r < r1)%nat ->
  entry M r col <> 0%Z ->
  (col < width)%nat \/ (c0 <= col < c1)%nat.
Proof.
  unfold build_sparsity_of, _initialize_sparse_jacobian.
  rewrite length_replicate.
  intros HM Hnodup Hctl Hcam Honly Hr0 Hr1 Hc0 Hc1 Hr Hentry.
  destruct (mark_controls_cases _ _ _ _ _ _ _ HM r col)
    as [Heq | [_ (k & ctl' & Hk & cam' & j' & r0' & r1' & c0' & c1' & Hin & Hidx
                  & Hr0' & Hr1' & Hc0' & Hc1' & Hr' & Hc')]].
  - left. rewrite Heq in Hentry.
    destruct (set_block_cases 0 rows 0 width
                (replicate rows (replicate (width + sum_list (map count_nonzero cam_masks)) 0%Z))
                r col) as [Hs | (_ & _ & Hc)]; [|lia].
    rewrite Hs, entry_zeros in Hentry. contradiction.
  - right. cbn in Hr0', Hr1'.
    assert (k = i) as ->
      by exact (cumsum_disjoint _ _ _ _ _ _ _ _ _ Hr0' Hr1' Hr0 Hr1 Hr' Hr).
    assert (ctl' = ctl) as -> by congruence.
    apply Honly in Hin as ->. apply index_of_lookup in Hidx.
    assert (j' = j) as -> by exact (NoDup_lookup _ _ _ _ Hnodup Hidx Hcam).
    assert (c0' = c0) as -> by congruence.
    assert (c1' = c1) as -> by congruence.
    exact Hc'.
Qed.

End Pattern.

(** The check of [test_cameras] on the cameras lets distinct objects
    through only. *)
Lemma size_list_to_set_le (l : list nat) :
  size (list_to_set l : gset nat) <= length l
  /\ (size (list_to_set l : gset nat) = length l -> NoDup l).
Proof.
  induction l as [|x l [IHle IHeq]]; cbn [list_to_set length].
  - split; [rewrite size_empty; lia | intros _; constructor].
  - destruct (decide (x ∈ l)) as [Hin | Hnin].
    + assert (Hsame : ({[x]} ∪ list_to_set l : gset nat) = list_to_set l).
      { apply set_eq. intros y. rewrite elem_of_union, elem_of_singleton,
          elem_of_list_to_set. split; [intros [-> | Hy]; assumption | auto]. }
      rewrite Hsame. split; [lia | intros Heq; lia].
    + rewrite size_union by (apply disjoint_singleton_l;
                             now rewrite elem_of_list_to_set).
      rewrite size_singleton. split; [lia|].
      intros Heq. constructor; [assumption | apply IHeq; lia].
Qed.

Lemma cameras_present_nodup (cams : list nat) (controls : list control) :
  cameras_missing cams controls = false -> NoDup cams.
Proof.
  unfold cameras_missing. intros Hm. apply Nat.ltb_ge in Hm.
  destruct (size_list_to_set_le cams) as [Hle Heq]. apply Heq.
  pose proof (subseteq_size
                ((list_to_set cams : gset nat)
                   ∩ list_to_set (concat (map ctrl_cams controls)))
                (list_to_set cams) (intersection_subseteq_l _ _)).
  lia.
Qed.

Lemma bind_Return {A B : Type} (r : result A) (g : A -> result B) (b : B) :
  r ≫= g = Return b -> exists a, r = Return a /\ g a = Return b.
Proof. destruct r as [a|e]; [eauto | discriminate]. Qed.

Lemma init_cams_nodup (h : heap) (cams : list nat) (controls : list control)
    (cam_params : list params_dict) (group_params : params_dict)
    (weights : option (list num)) (self : t) :
  init h cams controls cam_params group_params weights = Return self ->
  Cameras.cams self = cams /\ NoDup cams.
Proof.
  unfold init. intros Hinit.
  apply bind_Return in Hinit as (u & Htest & Hinit).
  apply bind_Return in Hinit as (masks & _ & Hinit).
  apply bind_Return in Hinit as (gmask & _ & Hinit).
  apply bind_Return in Hinit as (vals & _ & Hinit).
  apply bind_Return in Hinit as (M & _ & Hinit).
  injection Hinit as <-. split; [reflexivity|].
  revert Htest. unfold test_cameras.
  destruct (prune_controls cams controls) as [|ctl ctls]; [discriminate|].
  destruct (_ && sizes_differ h cams); [discriminate|].
  destruct (cameras_missing cams (ctl :: ctls)) eqn:Hm; [discriminate|].
  intros _. exact (cameras_present_nodup _ _ Hm).
Qed.

(** What the constructor leaves in [sparsity] is what [build_sparsity]
    returns on the object. *)
Lemma init_sparsity (h : heap) (cams : list nat) (controls : list control)
    (cam_params : list params_dict) (group_params : params_dict)
    (weights : option (list num)) (self : t) :
  init h cams controls cam_params group_params weights = Return self ->
  exists M, sparsity self = Some M /\ build_sparsity self = Return M.
Proof.
  unfold init. intros Hinit.
  apply bind_Return in Hinit as (u & _ & Hinit).
  apply bind_Return in Hinit as (masks & _ & Hinit).
  apply bind_Return in Hinit as (gmask & _ & Hinit).
  apply bind_Return in Hinit as (vals & _ & Hinit).
  apply bind_Return in Hinit as (M & HM & Hinit).
  injection Hinit as <-. exists M. split; [reflexivity | exact HM].
Qed.

(** C8: in the sparsity matrix that [build_sparsity] returns for a
    [Cameras] object, every column of the shared (group) block is nonzero
    in every residual row; and in the residual rows of a correspondence
    that references only camera [j], a nonzero entry lies in the shared
    block or in the column block of camera [j]. *)
Theorem build_sparsity_pattern (h : heap) (cams : list nat)
    (controls : list control) (cam_params : list params_dict)
    (group_params : params_dict) (weights : option (list num)) (self : t) :
  init h cams controls cam_params group_params weights = Return self ->
  exists M,
    sparsity self = Some M /\ build_sparsity self = Return M
    /\ (forall r col,
          (r < n_rows self)%nat -> (col < n_group self)%nat ->
          entry M r col = 1%Z)
    /\ (forall i ctl j c r0 r1 c0 c1 r col,
          Cameras.controls self !! i = Some ctl ->
          Cameras.cams self !! j = Some c ->
          (forall x, x ∈ ctrl_cams ctl -> x = c) ->
          ctrl_ends self !! i = Some r0 ->
          ctrl_ends self !! (i + 1) = Some r1 ->
          cam_ends self !! j = Some c0 ->
          cam_ends self !! (j + 1) = Some c1 ->
          (r0 <= r < r1)%nat ->
          entry M r col <> 0%Z ->
          (col < n_group self)%nat \/ (c0 <= col < c1)%nat).
Proof.
  intros Hinit.
  destruct (init_sparsity _ _ _ _ _ _ _ Hinit) as (M & Hsp & HM).
  destruct (init_cams_nodup _ _ _ _ _ _ _ Hinit) as [Hcams Hnodup].
  rewrite <- Hcams in Hnodup.
  exists M. split; [assumption|]. split; [assumption|]. split.
  - intros r col Hr Hc.
    exact (build_sparsity_shared _ _ _ _ M r col HM Hr Hc).
  - intros i ctl j c r0 r1 c0 c1 r col Hctl Hcam Honly Hr0 Hr1 Hc0 Hc1 Hr He.
    exact (build_sparsity_private _ _ _ _ M i j c r0 r1 c0 c1 r col ctl
             HM Hnodup Hctl Hcam Honly Hr0 Hr1 Hc0 Hc1 Hr He).
Qed.

Lemma build_sparsity_pattern_witness :
  exists M,
    sparsity Sample.adjuster_pair = Some M
    /\ build_sparsity Sample.adjuster_pair = Return M
    /\ (forall r col,
          (r < 6)%nat -> (col < 2)%nat -> entry M r col = 1%Z)
    /\ (forall r col,
          (2 <= r < 6)%nat -> entry M r col <> 0%Z ->
          (col < 2)%nat \/ (5 <= col < 8)%nat).
Proof.
  destruct (build_sparsity_pattern Sample.store [0; 1]%nat
              [Sample.control_on 0 1; Sample.control_on 1 2]
              [[(A_viewdir, SelTrue)]; [(A_viewdir, SelTrue)]]
              [(A_f, SelTrue)] None Sample.adjuster_pair eq_refl)
    as (M & Hsp & HM & Hshared & Hprivate).
  exists M. split; [exact Hsp|]. split; [exact HM|]. split.
  - exact Hshared.
  - intros r col Hr He.
    apply (Hprivate 1%nat (Sample.control_on 1 2) 1%nat 1%nat
             2%nat 6%nat 5%nat 8%nat r col); try reflexivity; try assumption.
    intros x Hx. apply elem_of_cons in Hx as [Hx | Hx]; [exact Hx | inversion Hx].
Defined.

End SparsityFacts.

(** ** Bundle adjustment: what [fit] leaves behind *)
Module FitFacts.
Import Cameras SparsityFacts.

Lemma same_outside_refl (ids : list nat) (h : heap) : same_outside ids h h.
Proof. intros id. auto. Qed.

Lemma same_outside_trans (ids : list nat) (h1 h2 h3 : heap) :
  same_outside ids h1 h2 -> same_outside ids h2 h3 -> same_outside ids h1 h3.
Proof.
  intros H12 H23 id. destruct (H12 id) as [Ho Hv], (H23 id) as [Ho' Hv'].
  split; [congruence|]. intros Hid. rewrite Hv', Hv by assumption. reflexivity.
Qed.

Lemma same_outside_weaken (ids ids' : list nat) (h h' : heap) :
  ids ⊆ ids' -> same_outside ids h h' -> same_outside ids' h h'.
Proof.
  intros Hsub Hs id. destruct (Hs id) as [Ho Hv]. split; [assumption|].
  intros Hid. apply Hv. intros Hin. apply Hid, Hsub, Hin.
Qed.

Lemma set_vector_outside (ids : list nat) (id : nat) (v : list num) (h : heap) :
  id ∈ ids -> same_outside ids h (set_vector id v h).
Proof.
  intros Hin id'. unfold set_vector.
  destruct (decide (id' = id)) as [-> | Hne]; cbn; split; auto.
  intros Hnot. contradiction.
Qed.

Lemma set_vector_same (id : nat) (v : list num) (h : heap) :
  Camera.vector (set_vector id v h id) = v.
Proof. unfold set_vector. now rewrite decide_True. Qed.

Lemma apply_from_outside (self : t) (vals gvals : list num)
    (breaks : list nat) (i : nat) (ids : list nat) (h : heap) :
  same_outside ids h (apply_from self vals gvals breaks i ids h).1.
Proof.
  revert i h. induction ids as [|id ids IH]; intros i h; cbn.
  - apply same_outside_refl.
  - match goal with
    | |- context [match ?s with Return _ => _ | Raise _ => _ end] =>
        destruct s as [v|e]
    end; cbn; [|apply same_outside_refl].
    assert (H1 : same_outside (id :: ids) h (set_vector id v h))
      by (apply set_vector_outside, elem_of_cons; now left).
    destruct (mask_assign _ (group_mask self) gvals) as [v'|e]; cbn;
      [|assumption].
    eapply same_outside_trans; [exact H1|].
    eapply same_outside_trans.
    + apply (set_vector_outside (id :: ids) id v'), elem_of_cons. now left.
    + eapply same_outside_weaken; [|apply IH]. apply list_subseteq_cons.
      reflexivity.
Qed.

Lemma set_cameras_outside (self : t) (vals : list num) (h : heap) :
  same_outside (cams self) h (set_cameras self vals h).1.
Proof. apply apply_from_outside. Qed.

(** After [restore], a listed camera that occurs once holds the vector
    listed with it; an unlisted one is as before. *)
Lemma restore_outside (ids : list nat) (vs : list (list num)) (h : heap) :
  same_outside ids h (restore ids vs h).
Proof.
  unfold restore. revert vs h. induction ids as [|id ids IH]; intros vs h.
  - apply same_outside_refl.
  - destruct vs as [|v vs]; [apply same_outside_refl|]. cbn.
    eapply same_outside_trans.
    + apply (set_vector_outside (id :: ids) id v), elem_of_cons. now left.
    + eapply same_outside_weaken; [|apply IH]. apply list_subseteq_cons.
      reflexivity.
Qed.

Lemma restore_lookup (ids : list nat) (vs : list (list num)) (h : heap)
    (j id : nat) (v : list num) :
  NoDup ids -> ids !! j = Some id -> vs !! j = Some v ->
  Camera.vector (restore ids vs h id) = v.
Proof.
  unfold restore. revert vs h j.
  induction ids as [|id0 ids IH]; intros vs h j Hnd Hid Hv; [discriminate|].
  destruct vs as [|v0 vs]; [discriminate|].
  apply NoDup_cons in Hnd as [Hnotin Hnd]. cbn.
  destruct j as [|j]; cbn in Hid, Hv.
  - injection Hid as ->. injection Hv as ->.
    destruct (restore_outside ids vs (set_vector id v h) id) as [_ Hsame].
    unfold restore in Hsame. rewrite Hsame by assumption.
    apply set_vector_same.
  - now apply (IH vs _ j).
Qed.

(** Putting back the vectors read from [h0] undoes any change to the
    vectors of the listed cameras. *)
Lemma restore_saved (ids : list nat) (h0 h1 : heap) :
  same_outside ids h0 h1 ->
  forall id, restore ids (map (fun id => Camera.vector (h0 id)) ids) h1 id = h0 id.
Proof.
  intros Hout id.
  assert (Hgen : forall ids' h,
             (forall id, id ∈ ids' ->
                Camera.vector (restore ids' (map (fun id => Camera.vector (h0 id)) ids') h id)
                = Camera.vector (h0 id))).
  { clear. unfold restore. induction ids' as [|id0 ids' IH]; intros h id Hin.
    - inversion Hin.
    - cbn. destruct (decide (id ∈ ids')) as [Hin' | Hnin].
      + now apply IH.
      + apply elem_of_cons in Hin as [-> | Hin]; [|contradiction].
        destruct (restore_outside ids' (map (fun id => Camera.vector (h0 id)) ids')
                    (set_vector id0 (Camera.vector (h0 id0)) h) id0) as [_ Hsame].
        unfold restore in Hsame. rewrite Hsame by assumption.
        apply set_vector_same. }
  set (vs := map _ ids).
  destruct (restore_outside ids vs h1 id) as [Ho Hv].
  destruct (Hout id) as [Ho1 Hv1].
  destruct (decide (id ∈ ids)) as [Hin | Hnin].
  - specialize (Hgen ids h1 id Hin). fold vs in Hgen.
    destruct (restore ids vs h1 id) as [v o], (h0 id) as [v0 o0].
    cbn in *. congruence.
  - rewrite Hv, Hv1 by assumption. reflexivity.
Qed.

(** [predicted] with parameters leaves the store as it found it,
    whenever it returns. *)
Lemma predicted_restores (self : t) (x : list num) (index : option (list nat))
    (h h' : heap) (rows : list vec2) :
  predicted self (Some x) index h = (h', Return rows) ->
  forall id, h' id = h id.
Proof.
  unfold predicted.
  pose proof (set_cameras_outside self x h) as Hout.
  destruct (set_cameras self x h) as [h1 [u|e]]; [|discriminate]. cbn in Hout.
  match goal with
  | |- context [match ?r with Return _ => _ | Raise _ => _ end] =>
      destruct r as [rows'|e]
  end; [|discriminate].
  intros [= <- <-]. now apply restore_saved.
Qed.

Lemma predicted_outside (self : t) (params : option (list num))
    (index : option (list nat)) (h : heap) :
  same_outside (cams self) h (predicted self params index h).1.
Proof.
  unfold predicted. destruct params as [x|]; [|apply same_outside_refl].
  pose proof (set_cameras_outside self x h) as Hout.
  destruct (set_cameras self x h) as [h1 [u|e]]; cbn in *; [|assumption].
  match goal with
  | |- context [match ?r with Return _ => _ | Raise _ => _ end] =>
      destruct r as [rows'|e]
  end; cbn; [|assumption].
  eapply same_outside_trans; [exact Hout | apply restore_outside].
Qed.

Lemma residuals_restores (self : t) (x : list num) (index : option (list nat))
    (h h' : heap) (d : list vec2) :
  residuals self (Some x) index h = (h', Return d) ->
  forall id, h' id = h id.
Proof.
  unfold residuals.
  destruct (predicted self (Some x) index h) as [h1 [puv|e]] eqn:Hp;
    [|discriminate].
  intros [= <- _]. exact (predicted_restores _ _ _ _ _ _ Hp).
Qed.

Lemma residuals_outside (self : t) (params : option (list num))
    (index : option (list nat)) (h : heap) :
  same_outside (cams self) h (residuals self params index h).1.
Proof.
  unfold residuals. pose proof (predicted_outside self params index h) as Hout.
  destruct (predicted self params index h) as [h1 [puv|e]]; exact Hout.
Qed.

(** However the solver proceeds, a run that ends leaves every camera as
    it was. *)
Lemma run_restores (self : t) (index : option (list nat)) (sv : solver)
    (h h' : heap) (res : MinimizerResult) :
  run self index sv h = (h', Return res) -> forall id, h' id = h id.
Proof.
  revert h. induction sv as [x next IH | res0]; intros h; cbn.
  - destruct (residuals self (Some x) index h) as [h1 [d|e]] eqn:Hr;
      [|discriminate].
    intros Hrun id. rewrite (IH d h1 Hrun id).
    exact (residuals_restores _ _ _ _ _ _ Hr id).
  - intros [= <- _]. reflexivity.
Qed.

Lemma run_outside (self : t) (index : option (list nat)) (sv : solver)
    (h : heap) :
  same_outside (cams self) h (run self index sv h).1.
Proof.
  revert h. induction sv as [x next IH | res0]; intros h; cbn.
  - pose proof (residuals_outside self (Some x) index h) as Hout.
    destruct (residuals self (Some x) index h) as [h1 [d|e]]; cbn in *;
      [|assumption].
    eapply same_outside_trans; [exact Hout | apply IH].
  - apply same_outside_refl.
Qed.


Lemma fit_return_failure (full : bool) (res : MinimizerResult) :
  success res = false ->
  fit_return full res = if full then FitResult res else FitNone.
Proof. intros Hs. unfold fit_return. rewrite Hs. reflexivity. Qed.

Lemma update_params_fields (self self' : t) (h : heap) :
  update_params self h = Return self' ->
  cams self' = cams self /\ vectors self' = vectors self.
Proof.
  unfold update_params. intros Hu.
  apply bind_Return in Hu as (masks & _ & Hu).
  apply bind_Return in Hu as (gmask & _ & Hu).
  apply bind_Return in Hu as (vals & _ & Hu).
  injection Hu as <-. auto.
Qed.

Section Fit.
Variable lmfit_minimize : t -> option (list nat) -> solver.

Lemma fit_plain_restores (self : t) (index : option (list nat)) (full : bool)
    (h h' : heap) (ret : fitted) :
  fit_plain lmfit_minimize self index full h = (h', Return ret) ->
  (forall id, h' id = h id) /\ exists res, ret = fit_return full res.
Proof.
  unfold fit_plain.
  destruct (run self index (lmfit_minimize self index) h) as [h1 [res|e]] eqn:Hr;
    [|discriminate].
  intros [= <- <-]. split; [exact (run_restores _ _ _ _ _ _ Hr) | eauto].
Qed.

Lemma fit_plain_outside (self : t) (index : option (list nat)) (full : bool)
    (h : heap) :
  same_outside (cams self) h (fit_plain lmfit_minimize self index full h).1.
Proof.
  unfold fit_plain.
  pose proof (run_outside self index (lmfit_minimize self index) h) as Hout.
  destruct (run self index (lmfit_minimize self index) h) as [h1 [res|e]];
    exact Hout.
Qed.

Lemma stage_outside (self : t)
    (scp : option (list (list params_dict))) (sgp : option (list params_dict))
    (index : option (list nat)) (n : nat) (h : heap) :
  same_outside (cams self) h (stage lmfit_minimize self scp sgp index n h).1.
Proof.
  unfold stage.
  match goal with
  | |- context [match ?made with Return _ => _ | Raise _ => _ end] =>
      destruct made as [model|e] eqn:Hmade
  end; [|apply same_outside_refl].
  assert (Hcams : cams model = cams self).
  { apply bind_Return in Hmade as (cp & _ & Hmade).
    apply bind_Return in Hmade as (gp & _ & Hmade).
    now apply init_cams_nodup in Hmade as [-> _]. }
  rewrite <- Hcams.
  pose proof (fit_plain_outside model index false h) as Hout.
  destruct (fit_plain lmfit_minimize model index false h) as [h1 [[|x|res]|e]];
    cbn in *; try assumption.
  eapply same_outside_trans; [exact Hout | apply set_cameras_outside].
Qed.

Lemma stages_outside (self : t)
    (scp : option (list (list params_dict))) (sgp : option (list params_dict))
    (index : option (list nat)) (ns : list nat) (h : heap) :
  same_outside (cams self) h (stages lmfit_minimize self scp sgp index ns h).1.
Proof.
  revert h. induction ns as [|n ns IH]; intros h; cbn.
  - apply same_outside_refl.
  - pose proof (stage_outside self scp sgp index n h) as Hout.
    destruct (stage lmfit_minimize self scp sgp index n h) as [h1 [u|e]];
      cbn in *; [|assumption].
    eapply same_outside_trans; [exact Hout | apply IH].
Qed.

(** What a call of [fit] that returns leaves behind. *)
Lemma fit_outcome (self self' : t) (index : option (list nat))
    (scp : option (list (list params_dict))) (sgp : option (list params_dict))
    (full : bool) (h h' : heap) (ret : fitted) :
  fit lmfit_minimize self index scp sgp full h = (h', self', Return ret) ->
  (exists self1 h1 h2 res,
     run self1 index (lmfit_minimize self1 index) h1 = (h2, Return res)
     /\ cams self1 = cams self
     /\ ret = fit_return full res)
  /\ (stage_count scp sgp = 0%nat -> forall id, h' id = h id)
  /\ (forall id, id ∉ cams self -> h' id = h id)
  /\ (stage_count scp sgp <> 0%nat -> NoDup (cams self) -> at_saved self h').
Proof.
  unfold fit. destruct (stage_count scp sgp) as [|k] eqn:Hcount.
  - destruct (run self index (lmfit_minimize self index) h)
      as [h2 [res|e]] eqn:Hr; [|discriminate].
    intros [= <- <- <-].
    pose proof (run_restores _ _ _ _ _ _ Hr) as Hsame.
    split; [exists self, h, h2, res; auto|].
    split; [auto|]. split; [auto|]. intros Hne. contradiction.
  - pose proof (stages_outside self scp sgp index (seq 0 (S k)) h) as Hout1.
    destruct (stages lmfit_minimize self scp sgp index (seq 0 (S k)) h)
      as [h1 [u|e]]; [|discriminate]. cbn in Hout1.
    destruct (update_params self h1) as [self1|e] eqn:Hu1; [|discriminate].
    apply update_params_fields in Hu1 as [Hc1 Hv1].
    pose proof (run_outside self1 index (lmfit_minimize self1 index) h1)
      as Hout2.
    destruct (run self1 index (lmfit_minimize self1 index) h1)
      as [h2 [res|e]] eqn:Hr; [|discriminate].
    cbn in Hout2. rewrite Hc1 in Hout2.
    destruct (update_params self1 (reset_cameras self1 h2)) as [self2|e];
      [|discriminate].
    intros [= <- <- <-]. unfold reset_cameras. rewrite Hc1, Hv1.
    pose proof (restore_outside (cams self) (vectors self) h2) as Hout3.
    pose proof (same_outside_trans _ _ _ _
                  (same_outside_trans _ _ _ _ Hout1 Hout2) Hout3) as Hout.
    split; [exists self1, h1, h2, res; auto|]. split; [discriminate|]. split.
    + intros id Hid. now apply Hout.
    + intros _ Hnd j id v Hj Hv. now apply (restore_lookup _ _ _ j).
Qed.

(** Cameras that held their saved vectors before and hold them again
    afterwards have the vectors they had. *)
Lemma at_saved_agree (self : t) (h h' : heap) :
  length (vectors self) = length (cams self) ->
  at_saved self h -> at_saved self h' ->
  forall id, id ∈ cams self -> Camera.vector (h' id) = Camera.vector (h id).
Proof.
  intros Hlen Hs Hs' id Hin.
  apply list_elem_of_lookup in Hin as [j Hj].
  destruct (lookup_lt_is_Some_2 (vectors self) j) as [v Hv].
  { rewrite Hlen. now apply lookup_lt_Some in Hj. }
  now rewrite (Hs j id v Hj Hv), (Hs' j id v Hj Hv).
Qed.


End Fit.



End FitFacts.

(** * Further properties *)

(** ** Camera: visibility, OpenCV matrix, idealizing, undoing a resize *)
Module CameraMore.
Import NumFacts CameraFacts.
Local Open Scope Qc_scope.

Lemma num_mul_comm (x y : num) : mul x y = mul y x.
Proof.
  destruct x as [a| | |], y as [b| | |]; cbn; try reflexivity.
  f_equal. ring.
Qed.

Lemma num_add_comm (x y : num) : add x y = add y x.
Proof.
  destruct x as [a| | |], y as [b| | |]; cbn; try reflexivity.
  f_equal. ring.
Qed.

Lemma dot3_comm (a b : vec3) : dot3 a b = dot3 b a.
Proof.
  unfold dot3.
  now rewrite (num_mul_comm a.1.1), (num_mul_comm a.1.2), (num_mul_comm a.2).
Qed.

(** A number is positive, or non-positive, or NaN. *)
Lemma sign_cases (z : num) :
  ltb zero z = true \/ leb z zero = true \/ z = NaN.
Proof.
  destruct z as [a| | |]; cbn; auto.
  unfold zero, of_Z. change (Q2Qc (inject_Z 0)) with (0 : Qc).
  rewrite (Qccompare_0_l a), (Qccompare_0_r a).
  destruct (Qnum (this a)); cbn; auto.
Qed.

Lemma positive_not_nonpositive (z : num) :
  ltb zero z = true -> leb z zero = false.
Proof.
  destruct z as [a| | |]; cbn; try discriminate; try reflexivity.
  intros Hz. now destruct (positive_not_behind a Hz).
Qed.

Lemma add_zero_r (x : num) : add x zero = x.
Proof.
  destruct x as [a| | |]; cbn; try reflexivity.
  f_equal. change (Q2Qc (inject_Z 0)) with (0 : Qc). ring.
Qed.

Lemma mul_zero_fin (q : Qc) : mul zero (Fin q) = zero.
Proof.
  cbn. unfold zero, of_Z. f_equal.
  change (Q2Qc (inject_Z 0)) with (0 : Qc). ring.
Qed.

Lemma mul_nan_l (x : num) : mul NaN x = NaN.
Proof. now destruct x. Qed.

Lemma add_nan_l (x : num) : add NaN x = NaN.
Proof. now destruct x. Qed.

Lemma div_nan_r (x : num) : div x NaN = NaN.
Proof. now destruct x. Qed.

Lemma leb_nan_l (x : num) : leb NaN x = false.
Proof. reflexivity. Qed.

Section WithExternal.
Context `{External}.

(** The depth of [_world2camera] without correction is the dot product
    that [infront] tests. *)
Lemma depth_dot (cam : Camera.t) (directions : bool) (row : vec3) :
  (Camera._world2camera_row cam directions None row).2
  = dot3 (if directions then row else vsub3 row (Camera.xyz cam))
         (Camera.R cam).2.
Proof.
  unfold Camera._world2camera_row, Camera.to_camera_frame. cbn [snd].
  destruct config_UseMatMul; cbn [snd]; [apply dot3_comm | reflexivity].
Qed.

(** [infront] tests the depth that [project] returns with
    [return_depth=True] (no correction), so that a point it reports in
    front is not one that [project] blanks as behind the camera. *)
Theorem infront_is_positive_depth (cam : Camera.t) (directions : bool)
    (xyz : list vec3) :
  Camera.infront cam directions xyz
  = map (ltb zero) (Camera.project_with_depth cam directions None xyz).2
  /\ forall i row,
       xyz !! i = Some row ->
       Camera.infront cam directions xyz !! i = Some true ->
       leb (Camera._world2camera_row cam directions None row).2 zero = false.
Proof.
  split.
  - unfold Camera.infront, Camera.project_with_depth,
      Camera._world2camera_depth. cbn [snd]. rewrite map_map.
    apply map_ext. intros row. cbv beta. unfold Camera.infront_row.
    now rewrite (depth_dot cam directions row).
  - intros i row Hrow Hin. unfold Camera.infront in Hin.
    rewrite list_lookup_fmap, Hrow in Hin. injection Hin as Hin.
    apply positive_not_nonpositive. rewrite depth_dot. exact Hin.
Qed.

Lemma project_row_nan (cam : Camera.t) (directions : bool)
    (correction : option correction_args) (row : vec3) :
  (Camera._world2camera_row cam directions correction row).1 = (NaN, NaN) ->
  Camera.project_row cam directions correction row = (NaN, NaN).
Proof.
  intros Hxy. unfold Camera.project_row. rewrite Hxy, distort_row_nan.
  unfold vadd2, vmul2, map2. cbn [fst snd]. now rewrite !mul_nan_l, !add_nan_l.
Qed.

(** A point that [inview] reports in view is one that [infront] reports
    in front of the camera: behind the camera nothing is in view. *)
Theorem inview_is_infront (cam : Camera.t) (directions : bool)
    (xyz : list vec3) (i : nat) :
  Camera.inview cam directions xyz !! i = Some true ->
  Camera.infront cam directions xyz !! i = Some true.
Proof.
  unfold Camera.inview, Camera.inframe, Camera.infront.
  rewrite project_map, !list_lookup_fmap.
  destruct (xyz !! i) as [row|]; [|discriminate].
  cbn [fmap option_fmap option_map]. intros Hin. injection Hin as Hin.
  f_equal. unfold Camera.infront_row. rewrite <- depth_dot.
  destruct (sign_cases (Camera._world2camera_row cam directions None row).2)
    as [Hpos | [Hneg | Hnan]]; [exact Hpos | exfalso | exfalso].
  - rewrite (project_row_behind _ _ _ _ Hneg) in Hin. discriminate Hin.
  - rewrite project_row_nan in Hin; [discriminate Hin|].
    revert Hnan. unfold Camera._world2camera_row. cbn [fst snd].
    intros ->. now rewrite leb_nan_l, !div_nan_r.
Qed.

(** For a camera without distortion, [_camera2image] is the product of
    [cameraMatrix] with the homogeneous camera coordinates [(x, y, 1)]. *)
Theorem cameraMatrix_projects (cam : Camera.t) (xy : vec2) :
  any (Camera.k cam) = false -> any (Camera.p cam) = false ->
  fin2 xy ->
  let K := Camera.cameraMatrix cam in
  let hom : vec3 := (xy.1, xy.2, one) in
  Camera._camera2image cam [xy] = [(dot3 K.1.1 hom, dot3 K.1.2 hom)]
  /\ dot3 K.2 hom = one.
Proof.
  intros Hk Hp [Hx Hy]. cbv zeta. destruct xy as [x y]. cbn [fst snd] in *.
  destruct (is_fin_eq x Hx) as [qx ->], (is_fin_eq y Hy) as [qy ->].
  unfold Camera._camera2image. rewrite distort_zero by assumption.
  unfold Camera.cameraMatrix, dot3, vadd2, vmul2, map2. cbn [map fst snd].
  rewrite !mul_zero_fin, !add_zero_r, !mul_one_r, (num_add_comm zero),
    !add_zero_r.
  split.
  - now rewrite (num_mul_comm (Fin qx)), (num_mul_comm (Fin qy)),
      (num_add_comm (Camera.c cam).1), (num_add_comm (Camera.c cam).2).
  - reflexivity.
Qed.

End WithExternal.

(** Rounding half up leaves a whole number where it is. *)
Lemma floor_whole_half (z : Z) :
  floor (add (mul one (of_Z z)) half) = of_Z z.
Proof.
  unfold one, half, of_Z. cbn [mul add floor]. unfold of_Z. do 2 f_equal.
  set (x := this (Q2Qc (inject_Z 1) * Q2Qc (inject_Z z) + Q2Qc (1 # 2))%Qc).
  assert (Hx : (x == inject_Z z + (1 # 2))%Q).
  { subst x. cbn [this Qcplus Qcmult Q2Qc].
    rewrite !Qred_correct. ring. }
  rewrite (Qfloor_comp _ _ Hx).
  pose proof (Qfloor_le (inject_Z z + (1 # 2))) as Hle.
  pose proof (Qlt_floor (inject_Z z + (1 # 2))) as Hlt.
  remember (Qfloor (inject_Z z + (1 # 2))) as n eqn:Hn. clear Hn.
  unfold Qle, Qlt, Qplus, inject_Z in Hle, Hlt. cbn in Hle, Hlt.
  f_equal. lia.
Qed.



(** [idealize()] on a camera with its 20 parameters: [k], [p] and [c] are
    zero afterwards and everything else is as before, distortion and
    undistortion have become the identity, and a second call changes
    nothing. *)
Theorem idealize_removes_distortion `{External} (cam : Camera.t) :
  length (Camera.vector cam) = 20%nat ->
  exists cam',
    Camera.idealize cam = (cam', Return ())
    /\ Camera.k cam' = replicate 6 zero
    /\ Camera.p cam' = replicate 2 zero
    /\ Camera.c cam' = (zero, zero)
    /\ Camera.xyz cam' = Camera.xyz cam
    /\ Camera.viewdir cam' = Camera.viewdir cam
    /\ Camera.imgsz cam' = Camera.imgsz cam
    /\ Camera.f cam' = Camera.f cam
    /\ Camera.original_vector cam' = Camera.original_vector cam
    /\ (forall xy, Camera._distort cam' xy = xy)
    /\ (forall method xy, Camera._undistort cam' method xy = xy)
    /\ Camera.idealize cam' = (cam', Return ()).
Proof.
  intros Hlen. vec20 cam Hlen.
  eexists. split; [reflexivity|].
  repeat (split; [reflexivity|]). reflexivity.
Qed.

Lemma idealize_removes_distortion_witness :
  exists cam',
    Camera.idealize Sample.camera_singular = (cam', Return ())
    /\ Camera.k cam' = replicate 6 zero
    /\ forall xy, Camera._distort cam' xy = xy.
Proof.
  destruct (idealize_removes_distortion (H := Sample.external)
              Sample.camera_singular eq_refl)
    as (cam' & Hcall & Hk & _ & _ & _ & _ & _ & _ & _ & Hd & _).
  exists cam'. split; [exact Hcall|]. split; [exact Hk | exact Hd].
Defined.

Lemma cameraMatrix_projects_witness :
  Camera._camera2image Sample.camera_offset [(of_Z 1, of_Z 2)]
  = [(dot3 (Camera.cameraMatrix Sample.camera_offset).1.1
           (of_Z 1, of_Z 2, one),
      dot3 (Camera.cameraMatrix Sample.camera_offset).1.2
           (of_Z 1, of_Z 2, one))].
Proof.
  apply (cameraMatrix_projects Sample.camera_offset
           (of_Z 1, of_Z 2) eq_refl eq_refl (conj I I)).
Defined.

(** A point ten units along the optical axis of the default camera is
    in view, hence in front: its depth is positive. *)
Lemma inview_is_infront_witness :
  Camera.infront (H := Sample.external) Camera.defaults false
    [(zero, of_Z 10, zero)] !! 0%nat = Some true.
Proof.
  apply (inview_is_infront (H := Sample.external) Camera.defaults false
           [(zero, of_Z 10, zero)] 0%nat).
  vm_compute. reflexivity.
Defined.

Lemma infront_is_positive_depth_witness :
  Camera.infront (H := Sample.external) Camera.defaults false
    [(zero, of_Z 10, zero); (zero, of_Z (-10), zero)] = [true; false]
  /\ leb (Camera._world2camera_row (H := Sample.external) Camera.defaults
            false None (zero, of_Z 10, zero)).2 zero = false.
Proof.
  split.
  - rewrite (proj1 (infront_is_positive_depth (H := Sample.external)
                      Camera.defaults false
                      [(zero, of_Z 10, zero); (zero, of_Z (-10), zero)])).
    vm_compute. reflexivity.
  - apply (proj2 (infront_is_positive_depth (H := Sample.external)
                    Camera.defaults false
                    [(zero, of_Z 10, zero); (zero, of_Z (-10), zero)])
             0%nat (zero, of_Z 10, zero) eq_refl).
    vm_compute. reflexivity.
Defined.

End CameraMore.

(** ** Camera: the Oulu iteration *)
Module OuluFacts.
Import NumFacts CameraFacts CameraMore.
Local Open Scope Qc_scope.

Lemma zip_with_diag {A : Type} (g : A -> A -> A) (l : list A) :
  Forall (fun a => g a a = a) l -> zip_with g l l = l.
Proof.
  induction 1 as [|a l Ha Hl IH]; cbn; [reflexivity|]. now rewrite Ha, IH.
Qed.

Lemma Qc_sub_of_add (a t x : Qc) : a + t = x -> x + - t = a.
Proof. intros <-. ring. Qed.

Lemma Qc_scale_back (a d : Qc) : a * d = a -> d <> 0 -> a * (1 / d) = a.
Proof. intros Ha Hd. rewrite <- Ha at 1. field. exact Hd. Qed.

(** An entry that is not truthy is the number zero. *)
Lemma not_truthy (x : num) : truthy x = false -> x = zero.
Proof.
  destruct x as [a| | |]; cbn; try discriminate.
  intros Ha. apply negb_false_iff, bool_decide_eq_true in Ha. subst a.
  reflexivity.
Qed.

Section Finite.
Variable cam : Camera.t.
Hypothesis vector_length : length (Camera.vector cam) = 20%nat.
Hypothesis vector_finite : Forall is_fin (Camera.vector cam).

Lemma fin_radial_distortion (r2 : num) :
  is_fin r2 ->
  (any (drop 3 (Camera.k cam)) = true ->
   Camera.radial_denominator cam r2 <> zero) ->
  is_fin (Camera._radial_distortion cam r2).
Proof.
  intros Hr Hreg. unfold Camera._radial_distortion.
  destruct (any (drop 3 (Camera.k cam))) eqn:Hany.
  - apply fin_div; auto using fin_radial_numerator, fin_radial_denominator.
  - now apply fin_radial_numerator.
Qed.

Lemma fin_tangential_distortion (xy : vec2) (r2 : num) :
  fin2 xy -> is_fin r2 -> fin2 (Camera._tangential_distortion cam xy r2).
Proof.
  intros [Hx Hy] Hr.
  pose proof (fin_p cam vector_length vector_finite 0 ltac:(lia)).
  pose proof (fin_p cam vector_length vector_finite 1 ltac:(lia)).
  unfold Camera._tangential_distortion.
  split; cbn [fst snd]; auto 10 with fin.
Qed.

(** Without tangential coefficients the tangential distortion of a
    finite point is zero. *)
Lemma tangential_zero (x y r : Qc) :
  any (Camera.p cam) = false ->
  Camera._tangential_distortion cam (Fin x, Fin y) (Fin r) = (zero, zero).
Proof.
  intros Hp. unfold Camera._tangential_distortion.
  assert (Hp0 : Camera.slot (Camera.p cam) 0 = zero
                /\ Camera.slot (Camera.p cam) 1 = zero).
  { revert Hp. clear vector_finite. vec20 cam vector_length.
    cbn. intros Hp. apply orb_false_iff in Hp as [H0 H1].
    apply orb_false_iff in H1 as [H1 _].
    split; now apply not_truthy. }
  destruct Hp0 as [-> ->]. cbv zeta. cbn [fst snd].
  unfold zero, of_Z. cbn [mul add].
  change (Q2Qc (inject_Z 0)) with 0.
  now rewrite !Qcmult_0_r, !Qcmult_0_l, !Qcplus_0_r.
Qed.

(** A finite point that the distortion leaves in place is left in place
    by one pass of the Oulu iteration. *)
Lemma oulu_row_fixed (row : vec2) :
  fin2 row ->
  Camera.regular_at cam row ->
  Camera._radial_distortion cam
    (add (mul row.1 row.1) (mul row.2 row.2)) <> zero ->
  Camera._distort_row cam row = row ->
  (any (Camera.k cam) = false -> any (Camera.p cam) = true ->
   vsub2 row (Camera._tangential_distortion cam row
                (add (mul row.1 row.1) (mul row.2 row.2))) = row)
  /\ (any (Camera.k cam) = true ->
      vscale2 (div one (Camera._radial_distortion cam
                          (add (mul row.1 row.1) (mul row.2 row.2))))
              (vsub2 row (Camera._tangential_distortion cam row
                            (add (mul row.1 row.1) (mul row.2 row.2))))
      = row).
Proof.
  intros [Hx Hy] Hreg Hdr Hfix. destruct row as [x y]. cbn [fst snd] in *.
  destruct (is_fin_eq x Hx) as [qx ->], (is_fin_eq y Hy) as [qy ->].
  set (r2 := add (mul (Fin qx) (Fin qx)) (mul (Fin qy) (Fin qy))) in *.
  assert (Hr : is_fin r2) by exact I.
  destruct (is_fin_eq r2 Hr) as [qr Hqr].
  pose proof (fin_radial_distortion r2 Hr Hreg) as Hd.
  destruct (is_fin_eq _ Hd) as [d Hdq].
  destruct (fin_tangential_distortion (Fin qx, Fin qy) r2 (conj I I) Hr)
    as [Ht1 Ht2].
  destruct (Camera._tangential_distortion cam (Fin qx, Fin qy) r2)
    as [tx ty] eqn:Hdt.
  cbn [fst snd] in Ht1, Ht2.
  destruct (is_fin_eq tx Ht1) as [qtx ->], (is_fin_eq ty Ht2) as [qty ->].
  assert (Hd0 : d <> 0).
  { intros ->. apply Hdr. rewrite Hdq. reflexivity. }
  unfold Camera._distort_row in Hfix. cbn [fst snd] in Hfix.
  fold r2 in Hfix. rewrite Hdt, Hdq in Hfix. rewrite Hdq.
  split.
  - intros Hk Hp. rewrite Hk, Hp in Hfix. cbn in Hfix.
    injection Hfix as Hfx Hfy. unfold vsub2, map2. cbn.
    now rewrite (Qc_sub_of_add _ _ _ Hfx), (Qc_sub_of_add _ _ _ Hfy).
  - intros Hk. rewrite Hk in Hfix.
    unfold one, of_Z. rewrite div_fin by assumption.
    change (Q2Qc (inject_Z 1)) with 1.
    destruct (any (Camera.p cam)) eqn:Hp.
    + cbn in Hfix. injection Hfix as Hfx Hfy. unfold vscale2, vsub2, map2.
      cbn. rewrite (Qc_sub_of_add _ _ _ Hfx), (Qc_sub_of_add _ _ _ Hfy).
      f_equal; f_equal; field; exact Hd0.
    + cbn in Hfix. injection Hfix as Hfx Hfy.
      rewrite Hqr, (tangential_zero qx qy qr Hp) in Hdt.
      injection Hdt as <- <-.
      unfold vscale2, vsub2, map2. cbn.
      change (Q2Qc (inject_Z 0)) with 0.
      replace (qx + - 0) with qx by ring.
      replace (qy + - 0) with qy by ring.
      now rewrite (Qc_scale_back _ _ Hfx Hd0), (Qc_scale_back _ _ Hfy Hd0).
Qed.

Lemma oulu_pass_fixed (xy : list vec2) :
  any (Camera.k cam) || any (Camera.p cam) = true ->
  Forall (Camera.undistorted_at cam) xy ->
  Camera.oulu_pass cam xy xy = Some xy.
Proof.
  intros Hkp Hxy. unfold Camera.oulu_pass.
  destruct (any (Camera.k cam)) eqn:Hk, (any (Camera.p cam)) eqn:Hp;
    cbn [negb andb]; try discriminate Hkp.
  - f_equal. apply zip_with_diag. eapply Forall_impl; [exact Hxy|].
    intros row (Hfin & Hreg & Hdr & Hfix).
    now apply (oulu_row_fixed row Hfin Hreg Hdr Hfix).
  - f_equal. apply zip_with_diag. eapply Forall_impl; [exact Hxy|].
    intros row (Hfin & Hreg & Hdr & Hfix).
    now apply (oulu_row_fixed row Hfin Hreg Hdr Hfix).
  - f_equal. apply zip_with_diag. eapply Forall_impl; [exact Hxy|].
    intros row (Hfin & Hreg & Hdr & Hfix).
    now apply (oulu_row_fixed row Hfin Hreg Hdr Hfix).
Qed.

(** With finite coefficients, the radial distortion is 1 and the
    tangential distortion 0 on the optical axis. *)
Lemma mul_fin_zero (x : num) : is_fin x -> mul x zero = zero.
Proof.
  intros Hx. destruct (is_fin_eq x Hx) as [q ->].
  now rewrite num_mul_comm, mul_zero_fin.
Qed.

Lemma radial_numerator_axis : Camera.radial_numerator cam zero = one.
Proof.
  unfold Camera.radial_numerator. cbv zeta.
  pose proof (fin_k cam vector_length vector_finite 0 ltac:(lia)).
  pose proof (fin_k cam vector_length vector_finite 1 ltac:(lia)).
  pose proof (fin_k cam vector_length vector_finite 2 ltac:(lia)).
  repeat match goal with |- context [if ?b then _ else _] => destruct b end;
    rewrite ?mul_fin_zero, ?add_zero_r by (auto with fin); reflexivity.
Qed.

Lemma radial_denominator_axis : Camera.radial_denominator cam zero = one.
Proof.
  unfold Camera.radial_denominator. cbv zeta.
  pose proof (fin_k cam vector_length vector_finite 3 ltac:(lia)).
  pose proof (fin_k cam vector_length vector_finite 4 ltac:(lia)).
  pose proof (fin_k cam vector_length vector_finite 5 ltac:(lia)).
  repeat match goal with |- context [if ?b then _ else _] => destruct b end;
    rewrite ?mul_fin_zero, ?add_zero_r by (auto with fin); reflexivity.
Qed.

Lemma radial_distortion_axis : Camera._radial_distortion cam zero = one.
Proof.
  unfold Camera._radial_distortion.
  rewrite radial_numerator_axis, radial_denominator_axis.
  destruct (any _); [|reflexivity]. apply (div_self 1). lia.
Qed.

Lemma tangential_distortion_axis :
  Camera._tangential_distortion cam (zero, zero) zero = (zero, zero).
Proof.
  unfold Camera._tangential_distortion. cbv zeta. cbn [fst snd].
  pose proof (fin_p cam vector_length vector_finite 0 ltac:(lia)) as H0.
  pose proof (fin_p cam vector_length vector_finite 1 ltac:(lia)) as H1.
  destruct (is_fin_eq _ H0) as [p0 ->], (is_fin_eq _ H1) as [p1 ->].
  unfold zero, of_Z. cbn [mul add].
  change (Q2Qc (inject_Z 0)) with 0.
  f_equal; f_equal; ring.
Qed.

Lemma axis_undistorted : Camera.undistorted_at cam (zero, zero).
Proof.
  assert (Hr2 : add (mul zero zero) (mul zero zero) = zero) by reflexivity.
  unfold Camera.undistorted_at, Camera.regular_at. cbn [fst snd].
  rewrite Hr2. split; [split; exact I|]. split; [|split].
  - intros _. rewrite radial_denominator_axis. discriminate.
  - rewrite radial_distortion_axis. discriminate.
  - unfold Camera._distort_row. cbn [fst snd]. rewrite Hr2.
    rewrite radial_distortion_axis, tangential_distortion_axis.
    now destruct (any (Camera.k cam)), (any (Camera.p cam)).
Qed.

End Finite.



End OuluFacts.

(** ** Correspondences: selections, resizing, matches *)
Module ControlMore.
Import NumFacts CameraFacts CameraMore.
Local Open Scope Qc_scope.

(** Selecting rows commutes with a row-wise map. *)
Lemma take_rows_map {A B : Type} (g : A -> B) (l : list A)
    (index : list nat) :
  take_rows (map g l) index = rows ← take_rows l index; Return (map g rows).
Proof.
  induction index as [|i index IH]; cbn; [reflexivity|].
  rewrite list_lookup_fmap. destruct (l !! i) as [x|]; cbn; [|reflexivity].
  rewrite IH. now destruct (take_rows l index).
Qed.

Lemma fin_div_self (a : Qc) : a <> 0 -> Fin (a / a) = one.
Proof.
  intros Ha. unfold one, of_Z. apply (f_equal Fin).
  change (Q2Qc (inject_Z 1)) with 1. field. exact Ha.
Qed.

Lemma fin_ratio_one (a b : Qc) : b <> 0 -> Fin (a / b) = one -> a = b.
Proof.
  intros Hb Hab.
  assert (Hab' : a / b = 1)
    by exact (f_equal (fun x => match x with Fin q => q | _ => 0 end) Hab).
  rewrite <- (Qcmult_1_l b), <- Hab'. field. exact Hb.
Qed.

Section WithExternal.
Context `{External}.

(** [Points.predicted(index)] is [Points.predicted()] restricted to the
    rows [index]: the same rows when both return, and the same exception
    otherwise. *)
Theorem points_predicted_selection (pts : Points.t) (cam : Camera.t)
    (index : list nat) :
  Points.predicted pts cam (Some index)
  = all ← Points.predicted pts cam None; take_rows all index.
Proof.
  unfold Points.predicted.
  destruct (Points.directions pts && negb (Points.is_static pts cam));
    [reflexivity|].
  cbn [select mbind result_bind]. rewrite project_map, take_rows_map.
  destruct (take_rows (Points.xyz pts) index) as [rows|e]; cbn;
    [|reflexivity].
  now rewrite project_map.
Qed.

(** [Points.resize()] (without a size) on sizes that are finite and
    nonzero: the image coordinates are scaled by the ratio of the camera's
    image size to the saved one, the saved size becomes the camera's, and
    a second call changes nothing. *)
Theorem points_rescale_idempotent (pts : Points.t) (cam : Camera.t)
    (w h pw ph : Qc) :
  Camera.imgsz cam = (Fin w, Fin h) -> w <> 0 -> h <> 0 ->
  Points.imgsz pts = (Fin pw, Fin ph) -> pw <> 0 -> ph <> 0 ->
  Points.uv (Points.rescale pts cam)
  = map (fun row => vmul2 row (Fin (w / pw), Fin (h / ph))) (Points.uv pts)
  /\ Points.imgsz (Points.rescale pts cam) = Camera.imgsz cam
  /\ Points.rescale (Points.rescale pts cam) cam = Points.rescale pts cam
  /\ Points.resize (Points.rescale pts cam) cam None false
     = Some (Points.rescale pts cam, cam).
Proof.
  intros Hc Hw Hh Hp Hpw Hph.
  assert (Hsame : forall pts' : Points.t,
             Points.imgsz pts' = Camera.imgsz cam ->
             Points.rescale pts' cam = pts').
  { intros pts' Hi. unfold Points.rescale. rewrite Hi, Hc.
    unfold vdiv2, map2. cbn [fst snd]. rewrite !div_fin by assumption.
    rewrite !fin_div_self by assumption. unfold neqb.
    now rewrite !eqb_refl. }
  assert (Hfirst :
    Points.uv (Points.rescale pts cam)
    = map (fun row => vmul2 row (Fin (w / pw), Fin (h / ph))) (Points.uv pts)
    /\ Points.imgsz (Points.rescale pts cam) = Camera.imgsz cam).
  { unfold Points.rescale. rewrite Hc, Hp.
    unfold vdiv2, map2. cbn [fst snd]. rewrite !div_fin by assumption.
    destruct (neqb (Fin (w / pw)) one || neqb (Fin (h / ph)) one) eqn:Hne.
    - cbn. auto.
    - apply orb_false_iff in Hne as [H1 H2].
      apply negb_false_iff, eqb_eq in H1, H2. rewrite H1, H2. split.
      + rewrite <- (map_id (Points.uv pts)) at 1. apply map_ext.
        intros [u v]. unfold vmul2, map2. cbn [fst snd].
        now rewrite !mul_one_r.
      + rewrite Hp.
        now rewrite (fin_ratio_one w pw Hpw H1), (fin_ratio_one h ph Hph H2). }
  destruct Hfirst as [Huv Hi]. split; [exact Huv|]. split; [exact Hi|].
  split.
  - now apply Hsame.
  - unfold Points.resize. now rewrite Hsame.
Qed.

(** The projection functions read the camera's [vector] only. *)
Lemma project_vector (c1 c2 : Camera.t) (directions : bool)
    (correction : option correction_args) (xyz : list vec3) :
  Camera.vector c1 = Camera.vector c2 ->
  Camera.project c1 directions correction xyz
  = Camera.project c2 directions correction xyz.
Proof.
  destruct c1 as [v1 o1], c2 as [v2 o2]. cbn. intros ->. reflexivity.
Qed.

Lemma xyz_vector (c1 c2 : Camera.t) :
  Camera.vector c1 = Camera.vector c2 -> Camera.xyz c1 = Camera.xyz c2.
Proof. unfold Camera.xyz. now intros ->. Qed.

Lemma fin_rows (rows : list vec2) :
  Forall fin2 rows ->
  exists qs : list (Qc * Qc), rows = map (fun uv => (Fin uv.1, Fin uv.2)) qs.
Proof.
  induction 1 as [|[u v] rows [Hu Hv] Hrows (qs & ->)].
  - now exists [].
  - cbn in Hu, Hv.
    destruct (is_fin_eq u Hu) as [qu ->], (is_fin_eq v Hv) as [qv ->].
    now exists ((qu, qv) :: qs).
Qed.


(** [Matches(cams, uvs)] is accepted exactly for two distinct camera
    objects and two coordinate arrays with the same number of rows; with
    fewer than two cameras it is the indexing of [cams], not the length
    test, that raises. *)
Theorem matches_init_accepts (h : Cameras.heap) (cams : list nat)
    (uvs : list (list vec2)) (weights : option (list num)) :
  ((exists m, Matches.init h cams uvs weights = Return m)
   <-> exists a b ua ub,
         cams = [a; b] /\ a <> b /\ uvs = [ua; ub]
         /\ length ua = length ub)
  /\ (forall m, Matches.init h cams uvs weights = Return m ->
      Matches.cams m = cams /\ Matches.uvs m = uvs
      /\ Matches.imgszs m = map (fun id => Camera.imgsz (h id)) cams)
  /\ ((length cams < 2)%nat ->
      Matches.init h cams uvs weights
      = Raise (IndexError "list index out of range")).
Proof.
  unfold Matches.init, Matches._test_matches, Matches.item.
  split; [split|split].
  - intros [m Hm].
    destruct cams as [|a [|b cams]]; try discriminate Hm. cbn in Hm.
    destruct (bool_decide (a = b)) eqn:Hab; [discriminate Hm|].
    apply bool_decide_eq_false in Hab.
    destruct cams as [|c cams]; [|discriminate Hm].
    destruct uvs as [|ua [|ub [|uc uvs]]]; try discriminate Hm. cbn in Hm.
    destruct (length ua =? length ub)%nat eqn:Hlen; [|discriminate Hm].
    apply Nat.eqb_eq in Hlen. now exists a, b, ua, ub.
  - intros (a & b & ua & ub & -> & Hab & -> & Hlen). cbn.
    rewrite bool_decide_eq_false_2 by assumption.
    apply Nat.eqb_eq in Hlen. rewrite Hlen. cbn. eauto.
  - intros m Hm.
    destruct cams as [|a [|b cams]]; try discriminate Hm. cbn in Hm.
    destruct (bool_decide (a = b)); [discriminate Hm|].
    destruct (negb _ || negb _); [discriminate Hm|].
    destruct uvs as [|ua [|ub uvs]]; try discriminate Hm. cbn in Hm.
    destruct (negb _); [discriminate Hm|]. cbn in Hm.
    injection Hm as <-. auto.
  - intros Hlen. destruct cams as [|a [|b cams]]; cbn in *;
      [reflexivity | reflexivity | lia].
Qed.

End WithExternal.

Lemma points_rescale_idempotent_witness :
  Points.rescale
    (Points.rescale (H := Sample.external) Sample.points_north
       Sample.camera_large)
    Sample.camera_large
  = Points.rescale Sample.points_north Sample.camera_large.
Proof.
  apply (points_rescale_idempotent (H := Sample.external)
           Sample.points_north Sample.camera_large
           (Q2Qc (inject_Z 200)) (Q2Qc (inject_Z 200))
           (Q2Qc (inject_Z 100)) (Q2Qc (inject_Z 100)));
    try reflexivity; compute_neq.
Defined.


(** Two default cameras with one point each are accepted; a single
    camera raises the [IndexError]. *)
Lemma matches_init_accepts_witness :
  Matches.init Sample.store [0; 1]%nat
    [[(of_Z 10, of_Z 20)]; [(of_Z 30, of_Z 40)]] None
  = Return Sample.matches_twins
  /\ Matches.init Sample.store [0]%nat [[(of_Z 10, of_Z 20)]] None
     = Raise (IndexError "list index out of range").
Proof.
  split.
  - destruct (proj2 (proj1 (matches_init_accepts Sample.store [0; 1]%nat
                              [[(of_Z 10, of_Z 20)]; [(of_Z 30, of_Z 40)]]
                              None))) as [m Hm].
    + exists 0%nat, 1%nat, [(of_Z 10, of_Z 20)], [(of_Z 30, of_Z 40)].
      repeat split. discriminate.
    + rewrite Hm. f_equal.
      destruct (proj1 (proj2 (matches_init_accepts Sample.store [0; 1]%nat
                                [[(of_Z 10, of_Z 20)]; [(of_Z 30, of_Z 40)]]
                                None)) m Hm) as (Hc & Hu & Hs).
      cbn in Hm. injection Hm as <-. reflexivity.
  - apply (proj2 (proj2 (matches_init_accepts Sample.store [0]%nat
                           [[(of_Z 10, of_Z 20)]] None))).
    cbn. lia.
Defined.

End ControlMore.

(** ** Bundle adjustment: selections, weights and the saved vectors *)
Module CamerasMore.
Import NumFacts Cameras SparsityFacts FitFacts.

Section Weights.
Local Open Scope Qc_scope.

Lemma foldl_add_fin (a : Qc) (qs : list Qc) :
  foldl add (Fin a) (map Fin qs) = Fin (foldl Qcplus a qs).
Proof.
  revert a. induction qs as [|q qs IH]; intros a; cbn; [reflexivity|].
  apply IH.
Qed.

Lemma foldl_Qcplus_scale (k a : Qc) (qs : list Qc) :
  foldl Qcplus (a * k) (map (fun x => x * k) qs) = foldl Qcplus a qs * k.
Proof.
  revert a. induction qs as [|q qs IH]; intros a; cbn; [reflexivity|].
  rewrite <- IH. f_equal. ring.
Qed.



End Weights.

(** *** The parameter masks *)

Lemma mark_lookup (pos : list nat) (mask : list bool) :
  (forall i, i ∈ pos -> (i < length mask)%nat) ->
  length (foldl (fun acc i => <[i := true]> acc) mask pos) = length mask
  /\ forall i,
       foldl (fun acc i => <[i := true]> acc) mask pos !! i = Some true
       <-> mask !! i = Some true \/ i ∈ pos.
Proof.
  revert mask. induction pos as [|p pos IH]; intros mask Hin; cbn.
  - split; [reflexivity|]. intros i. split; [now left|].
    intros [Hi|Hi]; [assumption|inversion Hi].
  - assert (Hp : (p < length mask)%nat) by (apply Hin, elem_of_cons; now left).
    destruct (IH (<[p := true]> mask)) as [Hlen Hlook].
    { intros i Hi. rewrite length_insert. apply Hin, elem_of_cons. now right. }
    rewrite length_insert in Hlen. split; [assumption|].
    intros i. rewrite Hlook, elem_of_cons.
    destruct (decide (i = p)) as [-> | Hne].
    + rewrite list_lookup_insert_eq by assumption. tauto.
    + rewrite list_lookup_insert_ne by congruence. tauto.
Qed.

Lemma mark_Return (mask : list bool) (pos : list nat) (mask' : list bool) :
  mark mask pos = Return mask' ->
  (forall i, i ∈ pos -> (i < length mask)%nat)
  /\ length mask' = length mask
  /\ forall i, mask' !! i = Some true <-> mask !! i = Some true \/ i ∈ pos.
Proof.
  unfold mark. destruct (forallb _ pos) eqn:Hall; [|discriminate].
  intros [= <-].
  assert (Hin : forall i, i ∈ pos -> (i < length mask)%nat).
  { intros i Hi. rewrite forallb_forall in Hall.
    apply Nat.ltb_lt, Hall, list_elem_of_In, Hi. }
  split; [assumption|]. now apply mark_lookup.
Qed.

Lemma mark_total (mask : list bool) (pos : list nat) :
  (forall i, i ∈ pos -> (i < length mask)%nat) ->
  exists mask', mark mask pos = Return mask'.
Proof.
  intros Hin. unfold mark.
  assert (Hall : forallb (fun i => i <? length mask) pos = true).
  { apply forallb_forall. intros i Hi. apply Nat.ltb_lt, Hin, list_elem_of_In, Hi. }
  rewrite Hall. eauto.
Qed.

(** An index is selected by a dictionary when one of its entries lists
    it among its positions. *)
Lemma parse_params_from_Return (params : params_dict) (mask0 mask : list bool) :
  parse_params_from mask0 params = Return mask ->
  length mask = length mask0
  /\ (forall a sel pos i,
        (a, sel) ∈ params -> positions a sel = Some pos -> i ∈ pos ->
        (i < length mask0)%nat)
  /\ forall i,
       mask !! i = Some true
       <-> mask0 !! i = Some true
           \/ exists a sel pos,
                (a, sel) ∈ params /\ positions a sel = Some pos /\ i ∈ pos.
Proof.
  revert mask0. induction params as [|[a sel] params IH]; intros mask0; cbn.
  - intros [= <-]. split; [reflexivity|]. split.
    + intros a sel pos i Hin. inversion Hin.
    + intros i. split; [now left|].
      intros [Hi | (a & sel & pos & Hin & _)]; [assumption|inversion Hin].
  - destruct (positions a sel) as [pos|] eqn:Hpos.
    + destruct (mark mask0 pos) as [mask1|e] eqn:Hmark; [|discriminate].
      cbn. intros Hrest.
      apply mark_Return in Hmark as (Hin1 & Hlen1 & Hlook1).
      apply IH in Hrest as (Hlen & Hin & Hlook).
      split; [congruence|]. split.
      * intros a' sel' pos' i Hel Hpos' Hi.
        apply elem_of_cons in Hel as [[= -> ->] | Hel].
        -- rewrite Hpos in Hpos'. injection Hpos' as <-. now apply Hin1.
        -- rewrite <- Hlen1. exact (Hin a' sel' pos' i Hel Hpos' Hi).
      * intros i. rewrite Hlook, Hlook1. split.
        -- intros [[Hi | Hi] | (a' & sel' & pos' & Hel & Hpos' & Hi)].
           ++ now left.
           ++ right. exists a, sel, pos. split; [apply elem_of_cons; now left|].
              auto.
           ++ right. exists a', sel', pos'.
              split; [apply elem_of_cons; now right|]. auto.
        -- intros [Hi | (a' & sel' & pos' & Hel & Hpos' & Hi)]; [now left; left|].
           apply elem_of_cons in Hel as [[= -> ->] | Hel].
           ++ rewrite Hpos in Hpos'. injection Hpos' as <-. left. now right.
           ++ right. exists a', sel', pos'. auto.
    + cbn. intros Hrest. apply IH in Hrest as (Hlen & Hin & Hlook).
      split; [assumption|]. split.
      * intros a' sel' pos' i Hel Hpos' Hi.
        apply elem_of_cons in Hel as [[= -> ->] | Hel]; [congruence|].
        exact (Hin a' sel' pos' i Hel Hpos' Hi).
      * intros i. rewrite Hlook. split.
        -- intros [Hi | (a' & sel' & pos' & Hel & Hpos' & Hi)]; [now left|].
           right. exists a', sel', pos'.
           split; [apply elem_of_cons; now right|]. auto.
        -- intros [Hi | (a' & sel' & pos' & Hel & Hpos' & Hi)]; [now left|].
           apply elem_of_cons in Hel as [[= -> ->] | Hel]; [congruence|].
           right. exists a', sel', pos'. auto.
Qed.

Lemma parse_params_from_total (params : params_dict) (mask0 : list bool) :
  (forall a sel pos i,
     (a, sel) ∈ params -> positions a sel = Some pos -> i ∈ pos ->
     (i < length mask0)%nat) ->
  exists mask, parse_params_from mask0 params = Return mask.
Proof.
  revert mask0. induction params as [|[a sel] params IH]; intros mask0 Hin; cbn.
  - eauto.
  - destruct (positions a sel) as [pos|] eqn:Hpos.
    + destruct (mark_total mask0 pos) as [mask1 Hmark].
      { intros i Hi. apply (Hin a sel pos i); auto. apply elem_of_cons. now left. }
      rewrite Hmark. cbn. apply IH. intros a' sel' pos' i Hel Hpos' Hi.
      apply mark_Return in Hmark as (_ & -> & _).
      apply (Hin a' sel' pos' i); auto. apply elem_of_cons. now right.
    + cbn. apply IH. intros a' sel' pos' i Hel Hpos' Hi.
      apply (Hin a' sel' pos' i); auto. apply elem_of_cons. now right.
Qed.

Lemma lookup_replicate_false (n i : nat) :
  replicate n false !! i = Some true -> False.
Proof. intros Hi. apply lookup_replicate in Hi as [Hi _]. discriminate. Qed.

(** [parse_params] returns a mask of length 20 whose true entries are
    exactly the positions the dictionary selects: for each attribute, the
    start of the attribute's range plus the given index or indices, the
    whole range for [True], the first element for [False], nothing for
    [None] or an empty list. An index is not checked against the length of
    its attribute: it may select an element of a later attribute. The
    call raises exactly when a selected position lies beyond the end of
    the vector. *)
Theorem parse_params_selects (params : params_dict) :
  let selected (i : nat) :=
    exists a sel pos,
      (a, sel) ∈ params /\ positions a sel = Some pos /\ i ∈ pos in
  (forall mask,
     parse_params params = Return mask ->
     length mask = 20%nat /\ forall i, mask !! i = Some true <-> selected i)
  /\ ((exists mask, parse_params params = Return mask)
      <-> forall i, selected i -> (i < 20)%nat).
Proof.
  intros selected. unfold parse_params. split.
  - intros mask Hp. apply parse_params_from_Return in Hp as (Hlen & _ & Hlook).
    rewrite length_replicate in Hlen. split; [assumption|].
    intros i. rewrite Hlook. split; [|now right].
    intros [Hi | Hi]; [|assumption]. now apply lookup_replicate_false in Hi.
  - split.
    + intros [mask Hp] i (a & sel & pos & Hel & Hpos & Hi).
      apply parse_params_from_Return in Hp as (_ & Hin & _).
      rewrite length_replicate in Hin. exact (Hin a sel pos i Hel Hpos Hi).
    + intros Hall. apply parse_params_from_total.
      intros a sel pos i Hel Hpos Hi. rewrite length_replicate.
      apply Hall. exists a, sel, pos. auto.
Qed.

(** [parse_params(dict(viewdir=[0, 5]))] succeeds and selects positions 3
    and 8, the latter being the first focal length;
    [parse_params(dict(p=2))] raises. *)
Lemma parse_params_selects_witness :
  (exists mask,
     parse_params [(A_viewdir, SelList [0; 5]%nat)] = Return mask
     /\ length mask = 20%nat
     /\ mask !! 8%nat = Some true)
  /\ ~ exists mask, parse_params [(A_p, SelInt 2)] = Return mask.
Proof.
  split.
  - eexists. split; [reflexivity|].
    destruct (proj1 (parse_params_selects [(A_viewdir, SelList [0; 5]%nat)])
                _ eq_refl) as [Hlen Hlook].
    split; [exact Hlen|]. apply Hlook.
    exists A_viewdir, (SelList [0; 5]%nat), [3; 8]%nat.
    split; [apply elem_of_cons; now left|]. split; [reflexivity|].
    apply elem_of_cons. right. apply elem_of_cons. now left.
  - intros Hex.
    pose proof (proj1 (proj2 (parse_params_selects [(A_p, SelInt 2)])) Hex)
      as Hall.
    assert (Hsel : (20 < 20)%nat); [|lia].
    apply Hall. exists A_p, (SelInt 2), [20]%nat.
    split; [apply elem_of_cons; now left|]. split; [reflexivity|].
    apply elem_of_cons. now left.
Defined.

(** *** What the constructor establishes *)

Lemma init_fields (h : heap) (cams : list nat) (controls : list control)
    (cam_params : list params_dict) (group_params : params_dict)
    (weights : option (list num)) (self : t) :
  init h cams controls cam_params group_params weights = Return self ->
  Cameras.cams self = cams
  /\ vectors self = map (fun id => Camera.vector (h id)) cams
  /\ Cameras.controls self = prune_controls cams controls
  /\ test_cameras h cams (prune_controls cams controls) cam_params group_params
     = Return ()
  /\ mapM (fun pb : params_dict * nat => parse_params pb.1)
          (zip cam_params cams) = Return (cam_masks self)
  /\ parse_params group_params = Return (group_mask self)
  /\ build_values h cams (cam_masks self) (group_mask self)
     = Return (params self)
  /\ exists M, sparsity self = Some M
               /\ build_sparsity_of cams (cam_masks self) (group_mask self)
                    (prune_controls cams controls) = Return M.
Proof.
  unfold init. intros Hinit.
  apply bind_Return in Hinit as ([] & Htest & Hinit).
  apply bind_Return in Hinit as (masks & Hmasks & Hinit).
  apply bind_Return in Hinit as (gmask & Hgmask & Hinit).
  apply bind_Return in Hinit as (vals & Hvals & Hinit).
  apply bind_Return in Hinit as (M & HM & Hinit).
  injection Hinit as <-. cbn. repeat (split; [first [reflexivity|assumption]|]).
  exists M. split; [reflexivity | assumption].
Qed.

Lemma cameras_present_referenced (cams : list nat) (controls : list control)
    (id : nat) :
  cameras_missing cams controls = false -> id ∈ cams ->
  exists ctl, ctl ∈ controls /\ id ∈ ctrl_cams ctl.
Proof.
  unfold cameras_missing. intros Hm Hid. apply Nat.ltb_ge in Hm.
  destruct (size_list_to_set_le cams) as [Hle _].
  set (A := (list_to_set cams : gset nat)) in *.
  set (B := (list_to_set (concat (map ctrl_cams controls)) : gset nat)) in *.
  assert (Heq : A ∩ B = A).
  { apply set_subseteq_size_eq; [apply intersection_subseteq_l | lia]. }
  assert (HidB : id ∈ B).
  { assert (HidA : id ∈ A) by now apply elem_of_list_to_set.
    rewrite <- Heq in HidA. now apply elem_of_intersection in HidA as [_ ?]. }
  apply elem_of_list_to_set, list_elem_of_In, in_concat in HidB
    as (l & Hl & Hin).
  apply in_map_iff in Hl as (ctl & <- & Hctl).
  exists ctl. split; now apply list_elem_of_In.
Qed.

Lemma test_cameras_raises_ValueError (h : heap) (cams : list nat)
    (controls : list control) (cam_params : list params_dict)
    (group_params : params_dict) (e : exn) :
  test_cameras h cams controls cam_params group_params = Raise e ->
  exists msg, e = ValueError msg.
Proof.
  unfold test_cameras. destruct controls as [|ctl ctls].
  - intros [= <-]. eauto.
  - repeat match goal with
           | |- context [if ?c then _ else _] => destruct c
           end; intros [= <-]; eauto.
Qed.

(** An adjuster that [Cameras(...)] constructs has distinct cameras, and
    keeps the given controls that reference at least one of them, in
    their order and at least one in number; every camera is referenced by
    a control that was kept; and the vector saved for a camera is the one
    it has at construction. A camera given twice is rejected with a
    [ValueError]. *)
Theorem init_guarantees (h : heap) (cams : list nat) (controls : list control)
    (cam_params : list params_dict) (group_params : params_dict)
    (weights : option (list num)) :
  (forall self,
     init h cams controls cam_params group_params weights = Return self ->
     Cameras.cams self = cams
     /\ NoDup cams
     /\ Cameras.controls self <> []
     /\ (forall ctl,
           ctl ∈ Cameras.controls self
           <-> ctl ∈ controls /\ exists id, id ∈ ctrl_cams ctl /\ id ∈ cams)
     /\ (forall id, id ∈ cams ->
           exists ctl, ctl ∈ Cameras.controls self /\ id ∈ ctrl_cams ctl)
     /\ length (vectors self) = length cams
     /\ at_saved self h)
  /\ (~ NoDup cams ->
      exists msg,
        init h cams controls cam_params group_params weights
        = Raise (ValueError msg)).
Proof.
  split.
  - intros self Hinit.
    destruct (init_cams_nodup _ _ _ _ _ _ _ Hinit) as [_ Hnodup].
    apply init_fields in Hinit
      as (Hcams & Hvec & Hctl & Htest & _).
    split; [assumption|]. split; [assumption|].
    rewrite Hctl, Hvec, length_map.
    assert (Hmiss : prune_controls cams controls <> []
                    /\ cameras_missing cams (prune_controls cams controls)
                       = false).
    { revert Htest. unfold test_cameras.
      destruct (prune_controls cams controls) as [|ctl ctls]; [discriminate|].
      destruct (_ && sizes_differ h cams); [discriminate|].
      destruct (cameras_missing cams (ctl :: ctls)); [discriminate|].
      intros _. split; [discriminate | reflexivity]. }
    destruct Hmiss as [Hne Hmiss].
    split; [assumption|]. split; [|split; [|split]].
    + intros ctl. unfold prune_controls. rewrite list_elem_of_filter.
      rewrite existsb_exists. split.
      * intros [(id & Hid & Hin) Hctl']. split; [assumption|].
        exists id. split; [now apply list_elem_of_In|].
        now apply bool_decide_eq_true in Hin.
      * intros [Hctl' (id & Hid & Hin)]. split; [|assumption].
        exists id. split; [now apply list_elem_of_In|].
        now apply bool_decide_eq_true.
    + intros id Hid. exact (cameras_present_referenced _ _ id Hmiss Hid).
    + reflexivity.
    + intros j id v Hj Hv. rewrite Hcams in Hj. rewrite Hvec in Hv.
      rewrite list_lookup_fmap, Hj in Hv. now injection Hv as <-.
  - intros Hdup. unfold init.
    destruct (test_cameras h cams (prune_controls cams controls) cam_params
                group_params) as [[]|e] eqn:Htest.
    + exfalso. apply Hdup. revert Htest. unfold test_cameras.
      destruct (prune_controls cams controls) as [|ctl ctls]; [discriminate|].
      destruct (_ && sizes_differ h cams); [discriminate|].
      destruct (cameras_missing cams (ctl :: ctls)) eqn:Hm; [discriminate|].
      intros _. exact (cameras_present_nodup _ _ Hm).
    + apply test_cameras_raises_ValueError in Htest as [msg ->].
      exists msg. reflexivity.
Qed.

(** The adjuster of the examples is the one the constructor builds on
    one camera and one control; the same camera given twice is
    rejected. *)
Lemma init_guarantees_witness :
  (Cameras.controls Sample.adjuster <> []
   /\ at_saved Sample.adjuster Sample.store)
  /\ exists msg,
       init Sample.store [0; 0]%nat [Sample.control_north]
         [[(A_viewdir, SelTrue)]] [] None
       = Raise (ValueError msg).
Proof.
  split.
  - destruct (proj1 (init_guarantees Sample.store [0]%nat
                       [Sample.control_north] [[(A_viewdir, SelTrue)]] []
                       None) Sample.adjuster eq_refl)
      as (_ & _ & Hne & _ & _ & _ & Hsaved).
    split; assumption.
  - apply (proj2 (init_guarantees Sample.store [0; 0]%nat
                    [Sample.control_north] [[(A_viewdir, SelTrue)]] [] None)).
    intros Hnd. apply NoDup_cons in Hnd as [Hnotin _]. apply Hnotin.
    apply elem_of_cons. now left.
Defined.

(** *** Moving the cameras and putting them back *)





(** *** What [fit] leaves behind when it succeeds *)

Section FitSuccess.
Variable lmfit_minimize : t -> option (list nat) -> solver.


End FitSuccess.


(** *** The whole sparsity pattern *)

Lemma set_block_shape (r0 r1 c0 c1 m n : nat) (M : list (list Z)) :
  has_shape m n M -> has_shape m n (set_block r0 r1 c0 c1 M).
Proof.
  intros [Hlen Hrows]. unfold set_block. split; [now rewrite length_imap|].
  apply Forall_lookup. intros i row Hi. rewrite list_lookup_imap in Hi.
  destruct (M !! i) as [row0|] eqn:HM; [|discriminate].
  cbn [fmap option_fmap option_map] in Hi.
  pose proof (Forall_lookup_1 _ _ _ _ Hrows HM) as Hrow0. cbn in Hrow0.
  injection Hi as <-.
  destruct ((r0 <=? i)%nat && (i <? r1)%nat); [rewrite length_imap|];
    exact Hrow0.
Qed.

Lemma shape_cell (m n : nat) (M : list (list Z)) (r col : nat) :
  has_shape m n M -> (r < m)%nat -> (col < n)%nat ->
  exists x, M !! r ≫= (λ row : list Z, row !! col) = Some x.
Proof.
  intros [Hlen Hrows] Hr Hc.
  destruct (lookup_lt_is_Some_2 M r) as [row Hrow]; [lia|].
  pose proof (Forall_lookup_1 _ _ _ _ Hrows Hrow) as Hl. cbn in Hl.
  destruct (lookup_lt_is_Some_2 row col) as [x Hx]; [lia|].
  exists x. rewrite Hrow. exact Hx.
Qed.

Lemma set_block_sets (r0 r1 c0 c1 m n : nat) (M : list (list Z)) (r col : nat) :
  has_shape m n M -> (r < m)%nat -> (col < n)%nat ->
  (r0 <= r < r1)%nat -> (c0 <= col < c1)%nat ->
  entry (set_block r0 r1 c0 c1 M) r col = 1%Z.
Proof.
  intros Hs Hr Hc Hrr Hcc. rewrite entry_set_block.
  destruct (shape_cell m n M r col Hs Hr Hc) as [x ->].
  assert (H1 : (r0 <=? r)%nat = true) by (apply Nat.leb_le; lia).
  assert (H2 : (r <? r1)%nat = true) by (apply Nat.ltb_lt; lia).
  assert (H3 : (c0 <=? col)%nat = true) by (apply Nat.leb_le; lia).
  assert (H4 : (col <? c1)%nat = true) by (apply Nat.ltb_lt; lia).
  now rewrite H1, H2, H3, H4.
Qed.

Lemma set_block_keeps (r0 r1 c0 c1 : nat) (M : list (list Z)) (r col : nat) :
  entry M r col = 1%Z -> entry (set_block r0 r1 c0 c1 M) r col = 1%Z.
Proof.
  rewrite entry_set_block. unfold entry.
  destruct (M !! r ≫= (λ row : list Z, row !! col)) as [x|]; cbn.
  - intros ->. now destruct (_ && _).
  - discriminate.
Qed.

Lemma sum_take_le (xs : list nat) (i : nat) :
  sum_list (take i xs) <= sum_list xs.
Proof.
  revert i. induction xs as [|x xs IH]; intros i.
  - now rewrite take_nil.
  - destruct i as [|i]; cbn; [lia|]. specialize (IH i). lia.
Qed.

Lemma sum_list_double (xs : list nat) :
  sum_list (map (fun x => 2 * x) xs) = 2 * sum_list xs.
Proof. induction xs as [|x xs IH]; cbn; [reflexivity|]. cbn in IH. lia. Qed.

Section Blocks.
Variables (cams : list nat) (cam_ends ctrl_ends : list nat).

Lemma mark_cameras_marks (m n i : nat) (cc : list nat) (M M' : list (list Z)) :
  mark_cameras cams cam_ends ctrl_ends i cc M = Return M' ->
  has_shape m n M ->
  has_shape m n M'
  /\ (forall r col, entry M r col = 1%Z -> entry M' r col = 1%Z)
  /\ (forall r col,
        (r < m)%nat -> (col < n)%nat ->
        marked cams cam_ends ctrl_ends i cc r col -> entry M' r col = 1%Z).
Proof.
  revert M. induction cc as [|cam cc IH]; intros M; cbn.
  - intros [= <-] Hs. split; [assumption|]. split; [auto|].
    intros r col _ _ (cam & j & r0 & r1 & c0 & c1 & Hin & _). inversion Hin.
  - destruct (index_of cam cams) as [j|] eqn:Hj; cbn.
    + destruct (at_index ctrl_ends i) as [r0|] eqn:Hr0; [|discriminate]. cbn.
      destruct (at_index ctrl_ends (i + 1)) as [r1|] eqn:Hr1; [|discriminate].
      cbn.
      destruct (at_index cam_ends j) as [c0|] eqn:Hc0; [|discriminate]. cbn.
      destruct (at_index cam_ends (j + 1)) as [c1|] eqn:Hc1; [|discriminate].
      cbn. intros HM' Hs.
      apply at_index_Return in Hr0, Hr1, Hc0, Hc1.
      pose proof (set_block_shape r0 r1 c0 c1 m n M Hs) as Hs1.
      destruct (IH _ HM' Hs1) as (Hs' & Hkeep & Hmark).
      split; [assumption|]. split.
      * intros r col He. now apply Hkeep, set_block_keeps.
      * intros r col Hr Hc
          (cam' & j' & r0' & r1' & c0' & c1' & Hin & Hj' & Hr0' & Hr1' & Hc0'
           & Hc1' & Hrr & Hcc).
        apply elem_of_cons in Hin as [-> | Hin].
        -- apply Hkeep. rewrite Hj in Hj'. injection Hj' as <-.
           assert (r0' = r0) as -> by congruence.
           assert (r1' = r1) as -> by congruence.
           assert (c0' = c0) as -> by congruence.
           assert (c1' = c1) as -> by congruence.
           now apply (set_block_sets r0 r1 c0 c1 m n).
        -- apply Hmark; try assumption.
           exists cam', j', r0', r1', c0', c1'. auto 10.
    + intros HM' Hs. destruct (IH _ HM' Hs) as (Hs' & Hkeep & Hmark).
      split; [assumption|]. split; [assumption|].
      intros r col Hr Hc
        (cam' & j' & r0' & r1' & c0' & c1' & Hin & Hj' & Hrest).
      apply elem_of_cons in Hin as [-> | Hin]; [congruence|].
      apply Hmark; try assumption.
      exists cam', j', r0', r1', c0', c1'. auto.
Qed.

Lemma mark_controls_marks (m n i : nat) (ctls : list control)
    (M M' : list (list Z)) :
  mark_controls cams cam_ends ctrl_ends i ctls M = Return M' ->
  has_shape m n M ->
  has_shape m n M'
  /\ (forall r col, entry M r col = 1%Z -> entry M' r col = 1%Z)
  /\ (forall k ctl r col,
        (r < m)%nat -> (col < n)%nat -> ctls !! k = Some ctl ->
        marked cams cam_ends ctrl_ends (i + k) (ctrl_cams ctl) r col ->
        entry M' r col = 1%Z).
Proof.
  revert i M. induction ctls as [|ctl ctls IH]; intros i M; cbn.
  - intros [= <-] Hs. split; [assumption|]. split; [auto|].
    intros k ctl r col _ _ Hk. discriminate.
  - destruct (mark_cameras cams cam_ends ctrl_ends i (ctrl_cams ctl) M)
      as [M1|] eqn:HM1; [|discriminate]. cbn.
    intros HM' Hs.
    destruct (mark_cameras_marks m n _ _ _ _ HM1 Hs) as (Hs1 & Hkeep1 & Hmark1).
    destruct (IH _ _ HM' Hs1) as (Hs' & Hkeep & Hmark).
    split; [assumption|]. split; [auto|].
    intros k ctl' r col Hr Hc Hk Hm. destruct k as [|k]; cbn in Hk.
    + injection Hk as <-. rewrite Nat.add_0_r in Hm. auto.
    + apply (Hmark k ctl'); try assumption.
      now replace (i + 1 + k)%nat with (i + S k)%nat by lia.
Qed.

End Blocks.

Lemma zeros_shape (m n : nat) : has_shape m n (replicate m (replicate n 0%Z)).
Proof.
  split; [apply length_replicate|]. apply Forall_forall. intros row Hrow.
  apply elem_of_replicate in Hrow as [-> _]. apply length_replicate.
Qed.

Lemma marked_inside (cams : list nat) (ng : nat) (ws hs : list nat)
    (i : nat) (cc : list nat) (r col : nat) :
  marked cams (cumsum_from ng ws) (cumsum_from 0 hs) i cc r col ->
  (r < sum_list hs)%nat /\ (col < ng + sum_list ws)%nat.
Proof.
  intros (cam & j & r0 & r1 & c0 & c1 & _ & _ & _ & Hr1 & _ & Hc1 & Hr & Hc).
  apply cumsum_lookup_inv in Hr1 as [_ ->], Hc1 as [_ ->].
  pose proof (sum_take_le hs (i + 1)). pose proof (sum_take_le ws (j + 1)).
  lia.
Qed.

Lemma gather_length (v : list num) (mask : list bool) :
  length mask = length v -> length (gather v mask) = count_nonzero mask.
Proof.
  unfold count_nonzero. revert mask.
  induction v as [|x v IH]; intros [|b mask] Hlen; try discriminate;
    [reflexivity|].
  injection Hlen as Hlen. destruct b; cbn [gather].
  - rewrite filter_cons_True by reflexivity. cbn [length]. now rewrite IH.
  - rewrite filter_cons_False by discriminate. now apply IH.
Qed.

Lemma masked_length (v : list num) (mask : list bool) (g : list num) :
  masked v mask = Return g -> length g = count_nonzero mask.
Proof.
  unfold masked. destruct (length mask =? length v) eqn:Hlen; [|discriminate].
  cbn. intros [= <-]. apply gather_length. now apply Nat.eqb_eq.
Qed.

Lemma mapM_length {A B : Type} (g : A -> result B) (l : list A) (l' : list B) :
  mapM g l = Return l' -> length l' = length l.
Proof.
  revert l'. induction l as [|a l IH]; intros l'; cbn.
  - now intros [= <-].
  - destruct (g a) as [b|]; [|discriminate]. cbn.
    destruct (mapM g l) as [bs|]; [|discriminate]. cbn.
    intros [= <-]. cbn. now rewrite (IH bs).
Qed.

Lemma mapM_masked_length (h : heap) (l : list (nat * list bool))
    (vals : list (list num)) :
  mapM (fun cm : nat * list bool => masked (Camera.vector (h cm.1)) cm.2) l
  = Return vals ->
  length (concat vals) = sum_list (map count_nonzero (map snd l)).
Proof.
  revert vals. induction l as [|[id mask] l IH]; intros vals; cbn.
  - now intros [= <-].
  - destruct (masked (Camera.vector (h id)) mask) as [g|] eqn:Hg;
      [|discriminate]. cbn.
    destruct (mapM _ l) as [gs|]; [|discriminate]. cbn.
    intros [= <-]. cbn. rewrite length_app, (IH gs eq_refl).
    now rewrite (masked_length _ _ _ Hg).
Qed.

Lemma mapM_parse_length (l : list (params_dict * nat))
    (masks : list (list bool)) :
  mapM (fun pb : params_dict * nat => parse_params pb.1) l = Return masks ->
  Forall (fun mask => length mask = 20%nat) masks.
Proof.
  revert masks. induction l as [|[pd id] l IH]; intros masks; cbn [mapM fst].
  - intros [= <-]. constructor.
  - destruct (parse_params pd) as [mask|] eqn:Hmask; [|discriminate].
    destruct (mapM _ l) as [ms|]; [|discriminate].
    intros [= <-]. constructor; [|now apply IH].
    unfold parse_params in Hmask.
    apply parse_params_from_Return in Hmask as [Hlen _].
    now rewrite length_replicate in Hlen.
Qed.

(** The parameter vector of an adjuster holds the selected group
    entries, then the selected entries of each camera. *)
Lemma init_lengths (h : heap) (cams : list nat) (controls : list control)
    (cam_params : list params_dict) (group_params : params_dict)
    (weights : option (list num)) (self : t) :
  init h cams controls cam_params group_params weights = Return self ->
  length (params self)
  = (n_group self + sum_list (map count_nonzero (cam_masks self)))%nat
  /\ length (group_mask self) = 20%nat
  /\ Forall (fun mask => length mask = 20%nat) (cam_masks self).
Proof.
  intros Hinit. apply init_fields in Hinit
    as (_ & _ & _ & _ & Hmasks & Hgmask & Hvals & _).
  split; [|split].
  - revert Hvals. unfold build_values, n_group.
    destruct (at_index cams 0) as [first|]; [|discriminate]. cbn.
    destruct (masked _ (group_mask self)) as [gv|] eqn:Hgv; [|discriminate].
    cbn. destruct (mapM _ (zip cams (cam_masks self))) as [cv|] eqn:Hcv;
      [|discriminate].
    cbn. intros [= <-]. rewrite length_app, (masked_length _ _ _ Hgv).
    rewrite (mapM_masked_length _ _ _ Hcv). f_equal.
    change (map snd (zip cams (cam_masks self)))
      with ((zip cams (cam_masks self)).*2).
    rewrite snd_zip; [reflexivity|].
    apply mapM_length in Hmasks. rewrite Hmasks, length_zip. lia.
  - unfold parse_params in Hgmask.
    apply parse_params_from_Return in Hgmask as [Hlen _].
    now rewrite length_replicate in Hlen.
  - exact (mapM_parse_length _ _ Hmasks).
Qed.

(** The sparsity matrix that the constructor stores has two rows per
    data point and one column per parameter (the shared parameters, then
    those of each camera), holds only zeros and ones, and has a one
    exactly in the shared columns of every row and in the blocks paired
    by a control and a camera it references: the control's rows and that
    camera's columns. Every parameter mask has 20 entries. *)
Theorem sparsity_pattern_exact (h : heap) (cams : list nat)
    (controls : list control) (cam_params : list params_dict)
    (group_params : params_dict) (weights : option (list num)) (self : t) :
  init h cams controls cam_params group_params weights = Return self ->
  exists M,
    sparsity self = Some M
    /\ has_shape (2 * data_size self) (length (params self)) M
    /\ length (params self)
       = (n_group self + sum_list (map count_nonzero (cam_masks self)))%nat
    /\ length (group_mask self) = 20%nat
    /\ Forall (fun mask => length mask = 20%nat) (cam_masks self)
    /\ forall r col,
         (entry M r col = 0%Z \/ entry M r col = 1%Z)
         /\ (entry M r col = 1%Z
             <-> ((r < 2 * data_size self)%nat /\ (col < n_group self)%nat)
                 \/ exists i ctl,
                      Cameras.controls self !! i = Some ctl
                      /\ marked (Cameras.cams self) (cam_ends self)
                           (ctrl_ends self) i (ctrl_cams ctl) r col).
Proof.
  intros Hinit.
  destruct (init_lengths _ _ _ _ _ _ _ Hinit) as (Hcols & Hglen & Hclen).
  apply init_fields in Hinit
    as (Hcams & _ & Hctl & _ & _ & _ & _ & M & Hsp & HM).
  exists M. split; [assumption|].
  rewrite Hcols. unfold data_size, n_group, cam_ends, ctrl_ends.
  rewrite Hcams, Hctl. clear Hcams Hctl Hsp Hcols.
  set (ctls := prune_controls cams controls) in *.
  set (hs := map (fun ctl => 2 * ctrl_size ctl) ctls).
  set (ws := map count_nonzero (cam_masks self)).
  set (ng := count_nonzero (group_mask self)).
  assert (Hrows : (2 * sum_list (map ctrl_size ctls) = sum_list hs)%nat).
  { unfold hs. rewrite <- sum_list_double, map_map. reflexivity. }
  rewrite Hrows.
  revert HM. unfold build_sparsity_of, _initialize_sparse_jacobian.
  rewrite length_replicate. fold hs ws ng. intros HM.
  pose proof (set_block_shape 0 (sum_list hs) 0 ng _ _ _
                (zeros_shape (sum_list hs) (ng + sum_list ws))) as Hs0.
  destruct (mark_controls_marks _ _ _ _ _ 0 _ _ _ HM Hs0)
    as (Hs & Hkeep & Hmark).
  split; [assumption|]. split; [reflexivity|].
  split; [assumption|]. split; [assumption|].
  intros r col.
  pose proof (mark_controls_cases _ _ _ _ _ _ _ HM r col) as Hcases.
  pose proof (set_block_cases 0 (sum_list hs) 0 ng
                (replicate (sum_list hs) (replicate (ng + sum_list ws) 0%Z))
                r col) as Hcases0.
  rewrite entry_zeros in Hcases0.
  split.
  - destruct Hcases as [-> | [-> _]]; [|now right].
    destruct Hcases0 as [-> | [-> _]]; [now left | now right].
  - split.
    + intros He. destruct Hcases as [Heq | [_ (k & ctl & Hk & Hm)]].
      * left. rewrite Heq in He.
        destruct Hcases0 as [H0 | (_ & Hr & Hc)]; [|lia].
        rewrite H0 in He. discriminate.
      * right. exists k, ctl. split; assumption.
    + intros [[Hr Hc] | (i & ctl & Hi & Hm)].
      * apply Hkeep.
        apply (set_block_sets 0 (sum_list hs) 0 ng (sum_list hs)
                 (ng + sum_list ws)); try lia.
        apply zeros_shape.
      * destruct (marked_inside _ _ _ _ _ _ _ _ Hm) as [Hr Hc].
        now apply (Hmark i ctl).
Qed.

(** The matrix of the two-camera example: six rows, eight columns, and
    the entry of the first control's row in the second camera's block is
    zero while the one in the first camera's block is one. *)
Lemma sparsity_pattern_exact_witness :
  exists M,
    sparsity Sample.adjuster_pair = Some M
    /\ has_shape 6 8 M
    /\ entry M 0 2 = 1%Z
    /\ entry M 0 5 <> 1%Z.
Proof.
  destruct (sparsity_pattern_exact Sample.store [0; 1]%nat
              [Sample.control_on 0 1; Sample.control_on 1 2]
              [[(A_viewdir, SelTrue)]; [(A_viewdir, SelTrue)]]
              [(A_f, SelTrue)] None Sample.adjuster_pair eq_refl)
    as (M & Hsp & Hshape & _ & _ & _ & Hentries).
  exists M. split; [exact Hsp|]. split; [exact Hshape|]. split.
  - apply (proj2 (Hentries 0%nat 2%nat)). right.
    exists 0%nat, (Sample.control_on 0 1). split; [reflexivity|].
    exists 0%nat, 0%nat, 0%nat, 2%nat, 2%nat, 5%nat.
    split; [apply elem_of_cons; now left|].
    repeat (split; [reflexivity|]). split; lia.
  - injection Hsp as <-. discriminate.
Defined.

(** *** Where [set_cameras] writes the parameter values *)

Lemma count_nonzero_cons (b : bool) (mask : list bool) :
  count_nonzero (b :: mask)
  = ((if b then 1 else 0) + count_nonzero mask)%nat.
Proof.
  unfold count_nonzero. destruct b.
  - now rewrite filter_cons_True by reflexivity.
  - now rewrite filter_cons_False by discriminate.
Qed.

Lemma rank_lt (mask : list bool) (p : nat) :
  mask !! p = Some true ->
  (count_nonzero (take p mask) < count_nonzero mask)%nat.
Proof.
  revert p. induction mask as [|b mask IH]; intros p Hp; [discriminate|].
  destruct p as [|p]; cbn [take].
  - cbn in Hp. injection Hp as ->. rewrite count_nonzero_cons.
    unfold count_nonzero at 1. cbn. lia.
  - cbn in Hp. rewrite !count_nonzero_cons. specialize (IH p Hp). lia.
Qed.

Lemma scatter_length (v : list num) (mask : list bool) (vals : list num) :
  length (scatter v mask vals) = length v.
Proof.
  revert mask vals. induction v as [|x v IH]; intros [|b mask] vals;
    try reflexivity.
  cbn [scatter]. destruct b; [destruct vals as [|y vals]|]; cbn [length];
    now rewrite IH.
Qed.

Lemma scatter_lookup (v : list num) (mask : list bool) (vals : list num)
    (p : nat) :
  length mask = length v -> (count_nonzero mask <= length vals)%nat ->
  scatter v mask vals !! p
  = if default false (mask !! p)
    then vals !! count_nonzero (take p mask)
    else v !! p.
Proof.
  revert mask vals p. induction v as [|x v IH]; intros [|b mask] vals p Hl Hn;
    try discriminate.
  - now destruct p.
  - injection Hl as Hl. rewrite count_nonzero_cons in Hn. cbn [scatter].
    destruct b.
    + destruct vals as [|y vals]; [cbn in Hn; lia|]. cbn [length] in Hn.
      destruct p as [|p]; [reflexivity|]. cbn [lookup list_lookup take].
      rewrite count_nonzero_cons. cbn [Nat.add]. rewrite IH by lia.
      reflexivity.
    + destruct p as [|p]; [reflexivity|]. cbn [lookup list_lookup take].
      rewrite count_nonzero_cons. cbn [Nat.add]. now rewrite IH by lia.
Qed.

Lemma mask_assign_exact (v : list num) (mask : list bool) (vals : list num) :
  length mask = length v -> length vals = count_nonzero mask ->
  mask_assign v mask vals = Return (scatter v mask vals).
Proof.
  intros Hm Hv. unfold mask_assign.
  apply Nat.eqb_eq in Hm, Hv. now rewrite Hm, Hv.
Qed.

Lemma sum_take_S (ws : list nat) (j w : nat) :
  ws !! j = Some w ->
  sum_list (take (S j) ws) = (sum_list (take j ws) + w)%nat.
Proof.
  revert j. induction ws as [|w0 ws IH]; intros j Hj; [discriminate|].
  destruct j as [|j]; cbn in *.
  - injection Hj as ->. rewrite take_0. cbn. lia.
  - rewrite (IH j Hj). lia.
Qed.

Lemma mapM_lookup {A B : Type} (g : A -> result B) (l : list A) (l' : list B)
    (j : nat) (a : A) :
  mapM g l = Return l' -> l !! j = Some a -> exists b, g a = Return b.
Proof.
  revert l' j. induction l as [|a0 l IH]; intros l' j; cbn [mapM];
    [discriminate|].
  destruct (g a0) as [b0|] eqn:Hb0; [|discriminate].
  destruct (mapM g l) as [bs|]; [|discriminate].
  intros _ Hj. destruct j as [|j]; cbn in Hj.
  - injection Hj as <-. eauto.
  - exact (IH bs j eq_refl Hj).
Qed.

Section NeededBlocks.
Variables (cams : list nat) (cam_ends ctrl_ends : list nat).

(** [build_sparsity] returns only if every camera that a control
    references has a column block. *)
Lemma mark_cameras_needs_block (i : nat) (cc : list nat) (M M' : list (list Z))
    (cam j : nat) :
  mark_cameras cams cam_ends ctrl_ends i cc M = Return M' ->
  cam ∈ cc -> index_of cam cams = Some j ->
  is_Some (cam_ends !! (j + 1)%nat).
Proof.
  revert M. induction cc as [|cam0 cc IH]; intros M; cbn [mark_cameras].
  - intros _ Hin. inversion Hin.
  - intros HM Hin Hj. apply bind_Return in HM as (M1 & HM1 & HM).
    apply elem_of_cons in Hin as [-> | Hin]; [|exact (IH _ HM Hin Hj)].
    rewrite Hj in HM1.
    apply bind_Return in HM1 as (r0 & _ & HM1).
    apply bind_Return in HM1 as (r1 & _ & HM1).
    apply bind_Return in HM1 as (c0 & _ & HM1).
    apply bind_Return in HM1 as (c1 & Hc1 & _).
    apply at_index_Return in Hc1. eauto.
Qed.

Lemma mark_controls_needs_block (i : nat) (ctls : list control)
    (M M' : list (list Z)) (ctl : control) (cam j : nat) :
  mark_controls cams cam_ends ctrl_ends i ctls M = Return M' ->
  ctl ∈ ctls -> cam ∈ ctrl_cams ctl -> index_of cam cams = Some j ->
  is_Some (cam_ends !! (j + 1)%nat).
Proof.
  revert i M. induction ctls as [|ctl0 ctls IH]; intros i M;
    cbn [mark_controls].
  - intros _ Hin. inversion Hin.
  - intros HM Hin Hcam Hj. apply bind_Return in HM as (M1 & HM1 & HM).
    apply elem_of_cons in Hin as [-> | Hin].
    + exact (mark_cameras_needs_block _ _ _ _ _ _ HM1 Hcam Hj).
    + exact (IH _ _ HM Hin Hcam Hj).
Qed.

End NeededBlocks.

Lemma index_of_nodup (cams : list nat) (j id : nat) :
  NoDup cams -> cams !! j = Some id -> index_of id cams = Some j.
Proof.
  intros Hnd Hj.
  destruct (index_of_elem id cams) as [j' Hj'].
  { apply list_elem_of_lookup. eauto. }
  rewrite Hj'. f_equal. apply index_of_lookup in Hj'.
  exact (NoDup_lookup _ _ _ _ Hnd Hj' Hj).
Qed.

(** The constructor accepts as many parameter dictionaries as cameras, or
    more: every camera has a mask. *)
Lemma init_masks_length (h : heap) (cams : list nat) (controls : list control)
    (cam_params : list params_dict) (group_params : params_dict)
    (weights : option (list num)) (self : t) :
  init h cams controls cam_params group_params weights = Return self ->
  length (cam_masks self) = length cams.
Proof.
  intros Hinit.
  destruct (init_cams_nodup _ _ _ _ _ _ _ Hinit) as [_ Hnodup].
  pose proof Hinit as Hf. apply init_fields in Hf
    as (_ & _ & _ & Htest & Hmasks & _ & _ & M & _ & HM).
  apply mapM_length in Hmasks. rewrite length_zip in Hmasks.
  assert (Hge : (length cams <= length (cam_masks self))%nat); [|lia].
  destruct (decide (length cams <= length (cam_masks self))%nat)
    as [Hle | Hgt]; [assumption|]. exfalso.
  destruct (lookup_lt_is_Some_2 cams (length (cam_masks self))) as [id Hid];
    [lia|].
  assert (Hmiss : cameras_missing cams (prune_controls cams controls) = false).
  { revert Htest. unfold test_cameras.
    destruct (prune_controls cams controls) as [|ctl ctls]; [discriminate|].
    destruct (_ && sizes_differ h cams); [discriminate|].
    now destruct (cameras_missing cams (ctl :: ctls)). }
  destruct (cameras_present_referenced _ _ id Hmiss) as (ctl & Hctl & Hcam).
  { apply list_elem_of_lookup. eauto. }
  revert HM. unfold build_sparsity_of, _initialize_sparse_jacobian. intros HM.
  destruct (mark_controls_needs_block _ _ _ _ _ _ _ ctl id _ HM Hctl Hcam
              (index_of_nodup _ _ _ Hnodup Hid)) as [c1 Hc1].
  apply cumsum_lookup_inv in Hc1 as [Hc1 _]. rewrite length_map in Hc1. lia.
Qed.

Section Apply.
Variables (self : t) (x : list num).
Hypothesis Hx :
  length x
  = (n_group self + sum_list (map count_nonzero (cam_masks self)))%nat.
Hypothesis Hgroup : length (group_mask self) = 20%nat.

(** The slice of the parameter values that belongs to camera [j]. *)
Lemma camera_slice (j b0 : nat) (cmask : list bool) :
  cam_masks self !! j = Some cmask -> cam_ends self !! j = Some b0 ->
  cam_ends self !! (j + 1)%nat = Some (b0 + count_nonzero cmask)%nat
  /\ length (take (count_nonzero cmask) (drop b0 x)) = count_nonzero cmask
  /\ forall r, (r < count_nonzero cmask)%nat ->
       take (count_nonzero cmask) (drop b0 x) !! r = x !! (b0 + r)%nat.
Proof.
  intros Hmask Hb0. unfold cam_ends in *.
  apply cumsum_lookup_inv in Hb0 as [_ ->].
  assert (Hw : map count_nonzero (cam_masks self) !! j
               = Some (count_nonzero cmask))
    by now rewrite list_lookup_fmap, Hmask.
  pose proof (lookup_lt_Some _ _ _ Hw) as Hj.
  pose proof (sum_take_S _ _ _ Hw) as Hsum.
  pose proof (sum_take_le (map count_nonzero (cam_masks self)) (S j)) as Hle.
  split; [|split].
  - rewrite cumsum_lookup by lia. f_equal.
    replace (j + 1)%nat with (S j) by lia. lia.
  - rewrite length_take, length_drop. lia.
  - intros r Hr. now rewrite lookup_take_lt, lookup_drop by assumption.
Qed.

Lemma apply_from_writes (ids : list nat) (i : nat) (h : heap) :
  NoDup ids ->
  (forall k id, ids !! k = Some id ->
     length (Camera.vector (h id)) = 20%nat
     /\ exists cmask, cam_masks self !! (i + k)%nat = Some cmask
                      /\ length cmask = 20%nat) ->
  exists h',
    apply_from self x (take (n_group self) x) (cam_ends self) i ids h
    = (h', Return ())
    /\ (forall id, id ∉ ids -> h' id = h id)
    /\ forall k id cmask b0,
         ids !! k = Some id -> cam_masks self !! (i + k)%nat = Some cmask ->
         cam_ends self !! (i + k)%nat = Some b0 ->
         Camera.original_vector (h' id) = Camera.original_vector (h id)
         /\ Camera.vector (h' id)
            = scatter (scatter (Camera.vector (h id)) cmask
                         (take (count_nonzero cmask) (drop b0 x)))
                (group_mask self) (take (n_group self) x).
Proof.
  revert i h. induction ids as [|id ids IH]; intros i h Hnd Hall.
  - exists h. split; [reflexivity|]. split; [reflexivity|].
    intros k id cmask b0 Hk. discriminate.
  - apply NoDup_cons in Hnd as [Hnotin Hnd].
    destruct (Hall 0%nat id eq_refl) as (Hv & cmask & Hcmask & Hclen).
    rewrite Nat.add_0_r in Hcmask.
    destruct (lookup_lt_is_Some_2 (cam_ends self) i) as [b0 Hb0].
    { unfold cam_ends. rewrite cumsum_length, length_map.
      apply lookup_lt_Some in Hcmask. lia. }
    destruct (camera_slice i b0 cmask Hcmask Hb0) as (Hb1 & Hslen & Hslice).
    cbn [apply_from]. unfold at_index. rewrite Hb0, Hb1, Hcmask.
    cbn [mbind result_bind].
    replace (b0 + count_nonzero cmask - b0)%nat with (count_nonzero cmask)
      by lia.
    rewrite mask_assign_exact by (congruence || assumption).
    cbn [mbind result_bind]. rewrite set_vector_same.
    set (v1 := scatter (Camera.vector (h id)) cmask
                 (take (count_nonzero cmask) (drop b0 x))).
    rewrite mask_assign_exact.
    2: { unfold v1. rewrite scatter_length. congruence. }
    2: { rewrite length_take. unfold n_group in *. lia. }
    set (v2 := scatter v1 (group_mask self) (take (n_group self) x)).
    set (h2 := set_vector id v2 (set_vector id v1 h)).
    assert (Hother : forall id', id' <> id -> h2 id' = h id').
    { intros id' Hne. unfold h2, set_vector.
      now rewrite !decide_False by assumption. }
    destruct (IH (i + 1)%nat h2 Hnd) as (h' & Happly & Hout & Hin).
    { intros k id' Hk.
      assert (Hne : id' <> id).
      { intros ->. apply Hnotin, list_elem_of_lookup. eauto. }
      rewrite (Hother id' Hne).
      destruct (Hall (S k) id' Hk) as (Hv' & cmask' & Hcmask' & Hclen').
      split; [assumption|]. exists cmask'.
      now replace (i + 1 + k)%nat with (i + S k)%nat by lia. }
    exists h'. split; [exact Happly|]. split.
    + intros id' Hid'. rewrite Hout.
      * apply Hother. intros ->. apply Hid', elem_of_cons. now left.
      * intros Hin'. apply Hid', elem_of_cons. now right.
    + intros k id' cmask' b0' Hk Hcmask' Hb0'. destruct k as [|k].
      * cbn in Hk. injection Hk as <-. rewrite Nat.add_0_r in Hcmask', Hb0'.
        assert (cmask' = cmask) as -> by congruence.
        assert (b0' = b0) as -> by congruence.
        rewrite (Hout id Hnotin). unfold h2, set_vector.
        rewrite !decide_True by reflexivity. cbn. auto.
      * cbn in Hk.
        assert (Hne : id' <> id).
        { intros ->. apply Hnotin, list_elem_of_lookup. eauto. }
        replace (i + S k)%nat with (i + 1 + k)%nat in Hcmask', Hb0' by lia.
        destruct (Hin k id' cmask' b0' Hk Hcmask' Hb0') as [Ho Hvec].
        now rewrite Ho, Hvec, (Hother id' Hne).
Qed.

End Apply.



End CamerasMore.

(** ** RANSAC: the samples *)
Module RansacMore.
Import Ransac.

(** [ransac_sample] raises when the sample would not leave a data point
    over. Otherwise, as [np.random.shuffle] permutes its argument, it
    splits the indices [0 .. data_size - 1] in two: a sample of
    [sample_size] indices and the remaining [data_size - sample_size],
    every index occurring once in one of the two. *)
Theorem ransac_sample_partition (shuffle : nat -> list nat -> list nat)
    (n sample_size data_size : nat) :
  (forall k l, shuffle k l ≡ₚ l) ->
  (data_size <= sample_size ->
   exists msg,
     ransac_sample shuffle n sample_size data_size = Raise (ValueError msg))
  /\ (sample_size < data_size ->
      exists maybe_idx test_idx,
        ransac_sample shuffle n sample_size data_size
        = Return (maybe_idx, test_idx)
        /\ length maybe_idx = sample_size
        /\ length test_idx = data_size - sample_size
        /\ NoDup (maybe_idx ++ test_idx)
        /\ forall j, j < data_size <-> j ∈ maybe_idx \/ j ∈ test_idx).
Proof.
  intros Hperm. unfold ransac_sample. split.
  - intros Hle. apply Nat.leb_le in Hle. rewrite Hle. eauto.
  - intros Hlt. assert (Hle : (data_size <=? sample_size) = false)
      by (apply Nat.leb_gt; lia).
    rewrite Hle. eexists _, _. split; [reflexivity|].
    specialize (Hperm n (seq 0 data_size)).
    pose proof (Permutation_length Hperm) as Hlen.
    rewrite length_seq in Hlen.
    rewrite length_take, length_drop, Hlen, take_drop.
    split; [lia|]. split; [reflexivity|]. split.
    + rewrite Hperm. apply NoDup_seq.
    + intros j. rewrite <- elem_of_app, take_drop, Hperm, elem_of_seq. lia.
Qed.

(** With the identity for a shuffle, a sample of one out of four is
    index 0 and leaves the indices 1, 2 and 3. *)
Lemma ransac_sample_partition_witness :
  ransac_sample Sample.identity_shuffle 0 1 4 = Return ([0], [1; 2; 3])
  /\ NoDup ([0] ++ [1; 2; 3])
  /\ exists msg,
       ransac_sample Sample.identity_shuffle 0 4 4 = Raise (ValueError msg).
Proof.
  assert (Hperm : forall k l, Sample.identity_shuffle k l ≡ₚ l)
    by (intros k l; reflexivity).
  destruct (ransac_sample_partition Sample.identity_shuffle 0 1 4 Hperm)
    as [_ Hsplit].
  destruct (Hsplit ltac:(lia)) as (maybe_idx & test_idx & Hs & _ & _ & Hnd & _).
  injection Hs as <- <-. split; [reflexivity|]. split; [exact Hnd|].
  apply (ransac_sample_partition Sample.identity_shuffle 0 4 4 Hperm). lia.
Defined.

End RansacMore.

(** ** The image frame and the line correspondences *)
Module LinesMore.
Import NumFacts CameraFacts SparsityFacts.

Lemma linspace_last (stop : num) (n : Z) (l : list num) :
  linspace stop n = Return l ->
  (forall x, last l = Some x -> x = zero \/ x = stop)
  /\ ((2 <= length l)%nat -> last l = Some stop).
Proof.
  unfold linspace. destruct (n <? 0)%Z; [discriminate|]. intros [= <-].
  destruct (Z.to_nat n) as [|[|m]].
  - split; [discriminate | cbn; lia].
  - split; [intros x [= <-]; now left | cbn; lia].
  - rewrite last_snoc. split; [intros x [= <-]; now right | reflexivity].
Qed.

(** Every vertex that [edges] returns has a coordinate on the image
    frame: [u] is 0 or the image width, or [v] is 0 or the image height.
    With a step of zero in both directions, and a finite image size, the
    vertices are the four corners, clockwise from the origin. *)
Theorem edges_on_frame (cam : Camera.t) (step : vec2) :
  (forall vs row,
     Camera.edges cam step = Return vs -> row ∈ vs ->
     row.2 = zero \/ row.1 = (Camera.imgsz cam).1
     \/ row.2 = (Camera.imgsz cam).2 \/ row.1 = zero)
  /\ (is_fin (Camera.imgsz cam).1 -> is_fin (Camera.imgsz cam).2 ->
      Camera.edges cam (zero, zero)
      = Return [(zero, zero);
                ((Camera.imgsz cam).1, zero);
                ((Camera.imgsz cam).1, (Camera.imgsz cam).2);
                (zero, (Camera.imgsz cam).2)]).
Proof.
  split.
  - intros vs row. unfold Camera.edges. intros He Hrow.
    apply bind_Return in He as (nu & _ & He).
    apply bind_Return in He as (nv & _ & He).
    apply bind_Return in He as (u & Hu & He).
    apply bind_Return in He as (v & Hv & He).
    destruct (last u) as [u_last|] eqn:Hlast; [|discriminate].
    destruct (length v <? 2)%nat eqn:Hlen; [discriminate|].
    apply Nat.ltb_ge in Hlen. injection He as <-.
    apply linspace_last in Hu as [Hu _], Hv as [_ Hv].
    rewrite (Hv Hlen) in Hrow. cbn [default] in Hrow.
    repeat (apply elem_of_app in Hrow as [Hrow | Hrow]);
      apply list_elem_of_fmap in Hrow as (x & -> & _); cbn [fst snd]; auto.
    destruct (Hu u_last Hlast) as [-> | ->]; auto.
  - intros Hw Hh. unfold Camera.edges. cbn [fst snd].
    destruct ((Camera.imgsz cam).1) as [w| | |]; try contradiction.
    destruct ((Camera.imgsz cam).2) as [h| | |]; try contradiction.
    assert (Hzero : forall q : Qc,
               mul (of_Z (Z.of_nat 0)) (div (Fin q) (of_Z (Z.of_nat 1))) = zero).
    { intros q. unfold of_Z. rewrite div_fin by (apply of_Z_nonzero; lia).
      cbn [mul Z.of_nat]. unfold zero, of_Z. apply (f_equal Fin).
      assert (Hz : Q2Qc (inject_Z (Z.of_nat 0)) = 0%Qc)
        by (apply Qc_is_canon; reflexivity).
      assert (Hz' : Q2Qc (inject_Z 0) = 0%Qc)
        by (apply Qc_is_canon; reflexivity).
      rewrite Hz, Hz'. unfold Qcdiv. ring. }
    assert (Htruthy : truthy zero = false).
    { unfold truthy, zero, of_Z.
      rewrite bool_decide_eq_true_2 by (apply Qc_is_canon; reflexivity).
      reflexivity. }
    assert (Hcount : py_int (add one one) = Return 2%Z)
      by (vm_compute; reflexivity).
    assert (Hlin : forall q : Qc, linspace (Fin q) 2 = Return [zero; Fin q]).
    { intros q. unfold linspace.
      change (2 <? 0)%Z with false. change (Z.to_nat 2) with 2%nat.
      cbn [seq map app]. now rewrite Hzero. }
    rewrite Htruthy, Hcount. cbn [mbind result_bind]. rewrite !Hlin.
    reflexivity.
Qed.

(** The default camera: the four corners for a step of zero, and on the
    frame the eight vertices for a step of half the image size. *)
Lemma edges_on_frame_witness :
  Camera.edges Camera.defaults (zero, zero)
  = Return [(zero, zero); (of_Z 100, zero); (of_Z 100, of_Z 100);
            (zero, of_Z 100)]
  /\ forall row,
       row ∈ [(of_Z 0, zero); (of_Z 50, zero); (of_Z 100, zero);
              (of_Z 100, of_Z 50);
              (of_Z 100, of_Z 100); (of_Z 50, of_Z 100); (of_Z 0, of_Z 100);
              (zero, of_Z 50)] ->
       row.2 = zero \/ row.1 = of_Z 100 \/ row.2 = of_Z 100 \/ row.1 = zero.
Proof.
  split.
  - exact (proj2 (edges_on_frame Camera.defaults (zero, zero)) I I).
  - intros row.
    apply (proj1 (edges_on_frame Camera.defaults (of_Z 50, of_Z 50)) _ row).
    cbn. repeat f_equal; apply Qc_is_canon; reflexivity.
Defined.

(** *** The nearest projected vertex *)

Lemma ltb_fin_false (a b : Qc) : ltb (Fin a) (Fin b) = false <-> (b <= a)%Qc.
Proof.
  cbn. unfold Qccompare, Qcle.
  rewrite Qle_alt, <- (Qcompare_antisym (this a) (this b)).
  destruct (this a ?= this b)%Q; cbn; split; intros Hx;
    try reflexivity; try discriminate; try (intros Hy; discriminate Hy);
    exfalso; now apply Hx.
Qed.

Lemma ltb_neg_trans (a b c : num) :
  is_nan a = false -> is_nan b = false -> is_nan c = false ->
  ltb a b = false -> ltb b c = false -> ltb a c = false.
Proof.
  destruct a as [a| | |], b as [b| | |], c as [c| | |];
    try discriminate; try reflexivity; intros _ _ _.
  rewrite !ltb_fin_false. intros Hab Hbc. exact (Qcle_trans _ _ _ Hbc Hab).
Qed.

Lemma ltb_irrefl (a : num) : ltb a a = false.
Proof.
  destruct a as [a| | |]; try reflexivity.
  apply ltb_fin_false, Qcle_refl.
Qed.

Lemma ltb_asym (a b : num) : ltb a b = true -> ltb b a = false.
Proof.
  intros Hab. destruct (ltb b a) eqn:Hba; [|reflexivity].
  pose proof (RansacFacts.ltb_trans _ _ _ Hab Hba) as Haa.
  now rewrite ltb_irrefl in Haa.
Qed.

Lemma ltb_not_nan (a b : num) : ltb a b = true -> is_nan a = false.
Proof. now destruct a, b. Qed.

(** [np.argmin] on a row without NaN returns the position of an entry
    that no entry of the row is smaller than. *)
Lemma argmin_from_spec (xs : list num) (best : num) (ibest i : nat) :
  (ibest < i)%nat -> is_nan best = false ->
  Forall (fun y => is_nan y = false) xs ->
  exists val,
    ((argmin_from best ibest i xs = ibest /\ val = best)
     \/ ((i <= argmin_from best ibest i xs)%nat
         /\ xs !! (argmin_from best ibest i xs - i)%nat = Some val))
    /\ is_nan val = false
    /\ ltb best val = false
    /\ forall y, y ∈ xs -> ltb y val = false.
Proof.
  revert best ibest i. induction xs as [|y xs IH]; intros best ibest i Hi Hb Hxs.
  - exists best. cbn. split; [now left|]. split; [assumption|].
    split; [apply ltb_irrefl|]. intros y Hy. inversion Hy.
  - apply Forall_cons in Hxs as [Hy Hxs]. cbn [argmin_from].
    rewrite Hb, Hy. cbn [orb].
    destruct (ltb y best) eqn:Hlt.
    + destruct (IH y i (S i) ltac:(lia) Hy Hxs)
        as (val & Hpos & Hnan & Hbest & Hall).
      exists val. split; [|split; [assumption|split]].
      * right. destruct Hpos as [[-> ->] | [Hge Hval]].
        -- split; [lia|]. now rewrite Nat.sub_diag.
        -- split; [lia|].
           replace (argmin_from y i (S i) xs - i)%nat
             with (S (argmin_from y i (S i) xs - S i)) by lia.
           exact Hval.
      * destruct (ltb best val) eqn:Hbv; [|reflexivity].
        pose proof (RansacFacts.ltb_trans _ _ _ Hlt Hbv) as Hyv. congruence.
      * intros y' Hy'. apply elem_of_cons in Hy' as [-> | Hy']; auto.
    + destruct (IH best ibest (S i) ltac:(lia) Hb Hxs)
        as (val & Hpos & Hnan & Hbest & Hall).
      exists val. split; [|split; [assumption|split; [assumption|]]].
      * destruct Hpos as [[Hr ->] | [Hge Hval]]; [now left|].
        right. split; [lia|].
        replace (argmin_from best ibest (S i) xs - i)%nat
          with (S (argmin_from best ibest (S i) xs - S i)) by lia.
        exact Hval.
      * intros y' Hy'. apply elem_of_cons in Hy' as [-> | Hy']; auto.
        exact (ltb_neg_trans _ _ _ Hy Hb Hnan Hlt Hbest).
Qed.

Lemma np_argmin_least (xs : list num) (j : nat) :
  np_argmin xs = Return j ->
  Forall (fun y => is_nan y = false) xs ->
  exists d, xs !! j = Some d /\ forall y, y ∈ xs -> ltb y d = false.
Proof.
  destruct xs as [|x xs]; [discriminate|]. cbn [np_argmin]. intros [= <-] Hxs.
  apply Forall_cons in Hxs as [Hx Hxs].
  destruct (argmin_from_spec xs x 0 1 ltac:(lia) Hx Hxs)
    as (val & Hpos & _ & Hbest & Hall).
  exists val. split.
  - destruct Hpos as [[-> ->] | [Hge Hval]]; [reflexivity|].
    replace (argmin_from x 0 1 xs) with (S (argmin_from x 0 1 xs - 1)) by lia.
    exact Hval.
  - intros y Hy. apply elem_of_cons in Hy as [-> | Hy]; auto.
Qed.

Lemma take_rows_lookup {A : Type} (a : list A) (index : list nat)
    (rows : list A) :
  take_rows a index = Return rows ->
  length rows = length index
  /\ forall i j, index !! i = Some j -> rows !! i = a !! j.
Proof.
  revert rows. induction index as [|j0 index IH]; intros rows; cbn [take_rows].
  - intros [= <-]. split; [reflexivity|]. intros i j Hi. discriminate.
  - destruct (a !! j0) as [x|] eqn:Hx; [|discriminate].
    intros Hr. apply bind_Return in Hr as (rest & Hrest & [= <-]).
    destruct (IH rest Hrest) as [Hlen Hlook]. split; [cbn; lia|].
    intros i j Hi. destruct i as [|i]; cbn in Hi |- *.
    + injection Hi as <-. now rewrite Hx.
    + now apply Hlook.
Qed.

Lemma mapM_lookup_result {A B : Type} (g : A -> result B) (l : list A)
    (l' : list B) (i : nat) (a : A) :
  mapM g l = Return l' -> l !! i = Some a ->
  exists b, l' !! i = Some b /\ g a = Return b.
Proof.
  revert l' i. induction l as [|a0 l IH]; intros l' i; cbn [mapM];
    [discriminate|].
  intros Hm. apply bind_Return in Hm as (b0 & Hb0 & Hm).
  apply bind_Return in Hm as (bs & Hbs & [= <-]).
  intros Hi. destruct i as [|i]; cbn in Hi |- *.
  - injection Hi as <-. eauto.
  - exact (IH bs i Hbs Hi).
Qed.

Section WithExternal.
Context `{External}.

(** [Lines.predicted] returns one row for every observed point, each of
    them a vertex of the projected lines: the vertex at the position that
    [np.argmin] finds in the point's row of distances. When that row holds
    no NaN, no vertex is at a smaller distance. The distance matrix is
    assumed to have one row per observed point. *)
Theorem lines_predicted_nearest (lines : Lines.t) (cam : Camera.t)
    (index : option (list nat)) (rows : list vec2) :
  (forall a b : list vec2, length (pairwise_distance a b) = length a) ->
  Lines.predicted lines cam index = Return rows ->
  exists arrays uv,
    Lines.project lines cam = Return arrays
    /\ Lines.observed lines index = Return uv
    /\ length rows = length uv
    /\ forall i row,
         rows !! i = Some row ->
         exists dist j d,
           pairwise_distance uv (concat arrays) !! i = Some dist
           /\ np_argmin dist = Return j
           /\ concat arrays !! j = Some row
           /\ (Forall (fun y => is_nan y = false) dist ->
               dist !! j = Some d /\ forall y, y ∈ dist -> ltb y d = false).
Proof.
  intros Hshape. unfold Lines.predicted. intros Hp.
  apply bind_Return in Hp as (arrays & Harrays & Hp).
  apply bind_Return in Hp as (puv & Hpuv & Hp).
  apply bind_Return in Hp as (uv & Huv & Hp).
  apply bind_Return in Hp as (min_index & Hmin & Hrows).
  assert (puv = concat arrays) as ->.
  { destruct arrays; [discriminate|]. now injection Hpuv as <-. }
  assert (Hmin' : mapM np_argmin (pairwise_distance uv (concat arrays))
                  = Return min_index)
    by (destruct (concat arrays); [discriminate | exact Hmin]).
  apply take_rows_lookup in Hrows as [Hlen Hlook].
  pose proof (CamerasMore.mapM_length _ _ _ Hmin') as Hlen'.
  exists arrays, uv. split; [assumption|]. split; [assumption|].
  split; [rewrite Hlen, Hlen'; apply Hshape|].
  intros i row Hrow.
  destruct (lookup_lt_is_Some_2 min_index i) as [j Hj].
  { rewrite <- Hlen. now apply lookup_lt_Some in Hrow. }
  destruct (lookup_lt_is_Some_2 (pairwise_distance uv (concat arrays)) i)
    as [dist Hdist].
  { rewrite <- Hlen', <- Hlen. now apply lookup_lt_Some in Hrow. }
  destruct (mapM_lookup_result _ _ _ i dist Hmin' Hdist) as (j' & Hj' & Harg).
  assert (j' = j) as -> by congruence.
  rewrite (Hlook i j Hj) in Hrow.
  destruct (decide (Forall (fun y => is_nan y = false) dist)) as [Hnn | Hnn].
  - destruct (np_argmin_least dist j Harg Hnn) as (d & Hd & Hleast).
    exists dist, j, d. auto.
  - exists dist, j, zero. split; [assumption|]. split; [assumption|].
    split; [assumption|]. intros Hnn'. contradiction.
Qed.

End WithExternal.

(** A world line projecting to [(50, 50)] and [(60, 50)], observed at
    [(40, 50)] and [(70, 50)]: one predicted row for each. *)
Lemma lines_predicted_nearest_witness :
  Lines.predicted Sample.lines_north Camera.defaults None
  = Return [(of_Z 50, of_Z 50); (of_Z 60, of_Z 50)]
  /\ exists arrays uv,
       Lines.project Sample.lines_north Camera.defaults = Return arrays
       /\ Lines.observed Sample.lines_north None = Return uv
       /\ length [(of_Z 50, of_Z 50); (of_Z 60, of_Z 50)] = length uv.
Proof.
  assert (Hp : Lines.predicted Sample.lines_north Camera.defaults None
               = Return [(of_Z 50, of_Z 50); (of_Z 60, of_Z 50)]).
  { vm_compute. repeat f_equal; apply Qc_is_canon; reflexivity. }
  split; [exact Hp|].
  destruct (lines_predicted_nearest (H := Sample.external) Sample.lines_north
              Camera.defaults None _
              (fun a b => length_map _ a) Hp)
    as (arrays & uv & Hproj & Hobs & Hlen & _).
  exists arrays, uv. auto.
Defined.

End LinesMore.
